(** * Block file set and bit-level codec: a shallow embedding

    The development follows the three Go packages of the repository:
    - [Tsz]   : the writable bit stream  (encoding/tsz/ostream.go),
    - [Fs]    : the block file set reader and writer (package fs),
    - [Proto] : the protobuf-diff iterator (package proto).

    Go integers are modelled as [Z] with their wrap-around written out,
    bytes as [Z] in [0, 256), slices as lists.  A Go function that can
    return an error or panic at run time returns a [res]. *)

From Stdlib Require Import ZArith Lia List Bool Sorted.
From stdpp Require Import base option list strings gmap.

Local Open Scope Z_scope.

(** ** Outcomes of a Go call *)

Inductive res (E A : Type) : Type :=
| Ok (a : A)      (* normal return, error value nil *)
| Err (e : E)     (* normal return with a non-nil error *)
| Panic           (* run-time panic: index or slice bound out of range *)
| Fuel.           (* the loop bound given to the model was too small *)

Arguments Ok {E A} a.
Arguments Err {E A} e.
Arguments Panic {E A}.
Arguments Fuel {E A}.

Definition bind {E A B} (m : res E A) (k : A -> res E B) : res E B :=
  match m with
  | Ok a => k a
  | Err e => Err e
  | Panic => Panic
  | Fuel => Fuel
  end.

Notation "x <- m ;; k" := (bind m (fun x => k))
  (at level 100, m at next level, right associativity).

Definition is_ok {E A} (m : res E A) : bool :=
  match m with Ok _ => true | _ => false end.

(** ** Fixed-width integers *)

Definition wrap_u (w n : Z) : Z := n mod 2 ^ w.
Definition wrap_s (w n : Z) : Z := (n + 2 ^ (w - 1)) mod 2 ^ w - 2 ^ (w - 1).

Definition to_byte (n : Z) : Z := wrap_u 8 n.      (* byte(x)   *)
Definition to_uint (n : Z) : Z := wrap_u 64 n.     (* uint(x), uint64(x) *)
Definition to_int (n : Z) : Z := wrap_s 64 n.      (* int(x), int64(x)   *)

Definition is_byte (b : Z) : Prop := 0 <= b < 256.

(** ** Methods: a state and an outcome *)

(** A method mutates its receiver and returns or panics; the receiver keeps
    what was done to it before an error was returned. *)
Definition M (E S A : Type) : Type := S -> S * res E A.

Definition ret {E S A} (a : A) : M E S A := fun s => (s, Ok a).
Definition fail {E S A} (e : E) : M E S A := fun s => (s, Err e).
Definition lift {E S A} (m : res E A) : M E S A := fun s => (s, m).
Definition get {E S} : M E S S := fun s => (s, Ok s).
Definition modify {E S} (f : S -> S) : M E S unit := fun s => (f s, Ok tt).

Definition bindM {E S A B} (m : M E S A) (k : A -> M E S B) : M E S B :=
  fun s =>
    match m s with
    | (s1, Ok a) => k a s1
    | (s1, Err e) => (s1, Err e)
    | (s1, Panic) => (s1, Panic)
    | (s1, Fuel) => (s1, Fuel)
    end.

Notation "x <~ m ;; k" := (bindM m (fun x => k))
  (at level 100, m at next level, right associativity).
Notation "m ;;; k" := (bindM m (fun _ => k))
  (at level 100, right associativity).

(** ** Slices, with their bound checks *)

Definition slen {A} (s : list A) : Z := Z.of_nat (length s).

(** [s[i]] *)
Definition index_at {E A} (s : list A) (i : Z) : res E A :=
  if (0 <=? i) && (i <? slen s) then
    match s !! Z.to_nat i with Some x => Ok x | None => Panic end
  else Panic.

(** [s[i] = x] *)
Definition store_at {E A} (s : list A) (i : Z) (x : A) : res E (list A) :=
  if (0 <=? i) && (i <? slen s) then Ok (<[Z.to_nat i := x]> s) else Panic.

(** [s[:hi]], [s[lo:]] and [s[lo:hi]] of a slice whose capacity is its
    length. *)
Definition slice_to {E A} (s : list A) (hi : Z) : res E (list A) :=
  if (0 <=? hi) && (hi <=? slen s) then Ok (take (Z.to_nat hi) s) else Panic.

Definition slice_from {E A} (s : list A) (lo : Z) : res E (list A) :=
  if (0 <=? lo) && (lo <=? slen s) then Ok (drop (Z.to_nat lo) s) else Panic.

Definition slice_range {E A} (s : list A) (lo hi : Z) : res E (list A) :=
  if (0 <=? lo) && (lo <=? hi) && (hi <=? slen s)
  then Ok (take (Z.to_nat (hi - lo)) (drop (Z.to_nat lo) s))
  else Panic.

(** [make([]byte, n)] *)
Definition make_bytes {E} (n : Z) : res E (list Z) :=
  if 0 <=? n then Ok (replicate (Z.to_nat n) 0) else Panic.

(** * Package tsz: the writable bit stream *)

Module Tsz.

Definition initAllocSize : Z := 1024.

(** [rawBuffer] holds the raw bytes, [pos] says how many bits of the last
    byte are used. *)
Record ostream : Type := mkOStream { rawBuffer : list Z; pos : Z }.

(** [newOStream bytes] looks at the capacity of the slice it is given, which
    a list does not carry: it is the second argument. *)
Definition newOStream (bytes : list Z) (cap_bytes : Z) : ostream :=
  if cap_bytes =? 0 then mkOStream [] 0 else mkOStream bytes 8.

Definition clone (os : ostream) : ostream := mkOStream (rawBuffer os) (pos os).

Definition len (os : ostream) : Z := Z.of_nat (length (rawBuffer os)).

Definition empty (os : ostream) : bool := (len os =? 0) && (pos os =? 0).

Definition lastIndex (os : ostream) : Z := len os - 1.

Definition hasUnusedBits (os : ostream) : bool := (0 <? pos os) && (pos os <? 8).

Definition grow (v : Z) (np : Z) (os : ostream) : ostream :=
  mkOStream (rawBuffer os ++ [v]) np.

(** [os.rawBuffer[os.lastIndex()] |= v << uint(os.pos)]: the index
    expression panics when the buffer has no last byte; the shift is one
    of a byte. *)
Definition fillUnused (v : Z) (os : ostream) : res Empty_set ostream :=
  b <- index_at (rawBuffer os) (lastIndex os) ;;
  buf <- store_at (rawBuffer os) (lastIndex os)
           (Z.lor b (to_byte (Z.shiftl v (to_uint (pos os))))) ;;
  Ok (mkOStream buf (pos os)).

Definition WriteBit (v : Z) (os : ostream) : res Empty_set ostream :=
  if negb (hasUnusedBits os) then Ok (grow (to_byte v) 1 os)
  else
    os1 <- fillUnused (to_byte v) os ;;
    Ok (mkOStream (rawBuffer os1) (to_int (pos os1 + 1))).

Definition WriteByte (v : Z) (os : ostream) : res Empty_set ostream :=
  if negb (hasUnusedBits os) then Ok (grow v 8 os)
  else
    os1 <- fillUnused v os ;;
    Ok (grow (Z.shiftr v (to_uint (to_int (8 - pos os1)))) (pos os1) os1).

Fixpoint WriteBytes (bytes : list Z) (os : ostream) : res Empty_set ostream :=
  match bytes with
  | [] => Ok os
  | b :: rest => os1 <- WriteByte b os ;; WriteBytes rest os1
  end.

(** The first loop of [WriteBits]: [for numBits >= 8 { ... }]. *)
Fixpoint writeBitsBytes (fuel : nat) (v numBits : Z) (os : ostream)
  : res Empty_set (Z * Z * ostream) :=
  if 8 <=? numBits then
    match fuel with
    | O => Fuel
    | S fuel' =>
        os1 <- WriteByte (to_byte v) os ;;
        writeBitsBytes fuel' (Z.shiftr v 8) (to_int (numBits - 8)) os1
    end
  else Ok (v, numBits, os).

(** The second loop of [WriteBits]: [for numBits > 0 { ... }]. *)
Fixpoint writeBitsRest (fuel : nat) (v numBits : Z) (os : ostream)
  : res Empty_set ostream :=
  if 0 <? numBits then
    match fuel with
    | O => Fuel
    | S fuel' =>
        os1 <- WriteBit (Z.land v 1) os ;;
        writeBitsRest fuel' (Z.shiftr v 1) (to_int (numBits - 1)) os1
    end
  else Ok os.

(** Both loops count [numBits] down, so [numBits] iterations bound them. *)
Definition WriteBits (v numBits : Z) (os : ostream) : res Empty_set ostream :=
  if numBits =? 0 then Ok os
  else
    let numBits := if 64 <? numBits then 64 else numBits in
    let fuel := Z.to_nat numBits in
    r <- writeBitsBytes fuel v numBits os ;;
    let '(v1, n1, os1) := r in
    writeBitsRest fuel v1 n1 os1.

Definition Reset (os : ostream) : ostream := mkOStream [] 0.

Definition rawbytes (os : ostream) : list Z * Z := (rawBuffer os, pos os).

(** *** What a stream holds, read as a sequence of bits *)

(** The first [k] bits of [b], lowest bit first. *)
Definition bits_of (k : nat) (b : Z) : list bool :=
  map (fun i => Z.testbit b (Z.of_nat i)) (seq 0 k).

(** Every byte but a partly used last one contributes eight bits; a partly
    used last byte contributes its [pos] low bits. *)
Definition stream_bits (os : ostream) : list bool :=
  if hasUnusedBits os then
    concat (map (bits_of 8) (removelast (rawBuffer os)))
      ++ bits_of (Z.to_nat (pos os)) (List.last (rawBuffer os) 0)
  else concat (map (bits_of 8) (rawBuffer os)).

Definition bitLen (os : ostream) : Z :=
  if hasUnusedBits os then 8 * (len os - 1) + pos os else 8 * len os.

(** Representation invariant of the streams the package builds: a partly
    used last byte exists and has zeroes above its [pos] used bits. *)
Definition wf (os : ostream) : bool :=
  negb (hasUnusedBits os)
  || match last (rawBuffer os) with
     | Some b => (0 <=? b) && (b <? 2 ^ pos os)
     | None => false
     end.

(** *** [WriteBits] as the specification words it *)

Fixpoint WriteBitSeq (bs : list Z) (os : ostream) : res Empty_set ostream :=
  match bs with
  | [] => Ok os
  | b :: rest => os1 <- WriteBit b os ;; WriteBitSeq rest os1
  end.

(** The [k] low bytes of [v], lowest byte first. *)
Definition le_bytes (k : nat) (v : Z) : list Z :=
  map (fun i => to_byte (Z.shiftr v (8 * Z.of_nat i))) (seq 0 k).

(** The [k] low bits of [v], lowest bit first. *)
Definition le_bits (k : nat) (v : Z) : list Z :=
  map (fun i => Z.land (Z.shiftr v (Z.of_nat i)) 1) (seq 0 k).

(** Whole bytes lowest byte first through [WriteByte], then the remaining
    [n mod 8] bits lowest bit first through [WriteBit]. *)
Definition WriteBits_by_words (v n : Z) (os : ostream) : res Empty_set ostream :=
  os1 <- WriteBytes (le_bytes (Z.to_nat (n / 8)) v) os ;;
  WriteBitSeq (le_bits (Z.to_nat (n mod 8)) (Z.shiftr v (8 * (n / 8)))) os1.

(** The number whose bits, lowest first, are [bs]. *)
Fixpoint bits_value (bs : list bool) : Z :=
  match bs with
  | [] => 0
  | b :: rest => Z.b2z b + 2 * bits_value rest
  end.

End Tsz.

(** * Package fs: the block file set *)

Module schema.

(** One record of the index file. *)
Record IndexEntry : Type :=
  mkIndexEntry { Idx : Z; Size : Z; Offset : Z; Key : string }.

(** The single record of the info file. *)
Record IndexInfo : Type :=
  mkIndexInfo { Start : Z; BlockSize : Z; Entries : Z }.

(** [entry.Reset()] *)
Definition zeroIndexEntry : IndexEntry := mkIndexEntry 0 0 0 EmptyString.

End schema.

Module Fs.

Import schema.

Inductive error : Type :=
| ErrReadIndexEntryZeroSize
| ErrReadNotExpectedSize
| ErrReadMarkerNotFound
| ErrReadWrongIdx (ExpectedIdx ActualIdx : Z)
| EOF                      (* io.EOF *)
| ErrLib (code : Z).       (* any other error of the os or proto packages *)

#[global] Instance error_eq_dec : EqDecision error.
Proof. solve_decision. Defined.

(** What the package takes from outside the files of this development:
    the record marker, and the protobuf codec of the two schema records. *)
Class Codec : Type := {
  marker : list Z;
  unmarshalIndexEntry : list Z -> res error IndexEntry;
  marshalIndexEntry : IndexEntry -> res error (list Z);
  marshalIndexInfo : IndexInfo -> res error (list Z)
}.

Definition idxLen : Z := 8.

(** ** Varints of the protobuf library *)

(** [proto.DecodeVarint]: at most ten groups of seven bits; [(0, 0)] when
    the buffer ends early or the number does not fit 64 bits. *)
Fixpoint decodeVarintFrom (fuel : nat) (shift : Z) (buf : list Z) (n x : Z) : Z * Z :=
  if shift <? 64 then
    match fuel with
    | O => (0, 0)
    | S fuel' =>
        match buf !! Z.to_nat n with
        | None => (0, 0)
        | Some b =>
            let x' := Z.lor x (to_uint (Z.shiftl (Z.land b 127) shift)) in
            if Z.land b 128 =? 0 then (x', n + 1)
            else decodeVarintFrom fuel' (shift + 7) buf (n + 1) x'
        end
    end
  else (0, 0).

Definition DecodeVarint (buf : list Z) : Z * Z := decodeVarintFrom 10 0 buf 0 0.

(** [proto.EncodeVarint]: the loop fills a ten byte array. *)
Fixpoint encodeVarintFrom (room : nat) (x : Z) : res error (list Z) :=
  match room with
  | O => Panic
  | S room' =>
      if 127 <? x then
        rest <- encodeVarintFrom room' (Z.shiftr x 7) ;;
        Ok (Z.lor 128 (Z.land x 127) :: rest)
      else Ok [to_byte x]
  end.

Definition EncodeVarint (x : Z) : res error (list Z) := encodeVarintFrom 10 x.

(** [binary.BigEndian.Uint64] and [PutUint64] on eight bytes. *)
Definition be_uint64 (b : list Z) : Z :=
  fold_left (fun acc x => acc * 256 + x) b 0.

Definition be_put_uint64 (v : Z) : list Z :=
  map (fun i => to_byte (Z.shiftr v (8 * (7 - Z.of_nat i)))) (seq 0 8).

(** ** The reader *)

(** What one call of a [fileReader] does: the bytes it stored at the front
    of the buffer, the count and the error it returned. *)
Record readResult : Type :=
  mkReadResult { stored : list Z; count : Z; failure : option error }.

(** [fd] stands for the state of the data file behind [*os.File]. *)
Record reader (fd : Type) : Type := mkReader {
  read : fd -> list Z -> readResult * fd;
  entries : Z;
  entriesRead : Z;
  indexUnread : list Z;
  indexSpare : list Z;      (* the backing array beyond len(indexUnread) *)
  currEntry : IndexEntry;
  dataFd : fd
}.

Arguments mkReader {fd}.
Arguments read {fd}.
Arguments entries {fd}.
Arguments entriesRead {fd}.
Arguments indexUnread {fd}.
Arguments indexSpare {fd}.
Arguments currEntry {fd}.
Arguments dataFd {fd}.

Definition set_entriesRead {fd} (n : Z) (r : reader fd) : reader fd :=
  mkReader (read r) (entries r) n (indexUnread r) (indexSpare r) (currEntry r) (dataFd r).
Definition set_indexUnread {fd} (b : list Z) (r : reader fd) : reader fd :=
  mkReader (read r) (entries r) (entriesRead r) b (indexSpare r) (currEntry r) (dataFd r).
Definition set_currEntry {fd} (e : IndexEntry) (r : reader fd) : reader fd :=
  mkReader (read r) (entries r) (entriesRead r) (indexUnread r) (indexSpare r) e (dataFd r).
Definition set_dataFd {fd} (f : fd) (r : reader fd) : reader fd :=
  mkReader (read r) (entries r) (entriesRead r) (indexUnread r) (indexSpare r) (currEntry r) f.

(** The buffer after the call: the stored bytes over its front. *)
Definition overlay (buf stored_bytes : list Z) : list Z :=
  take (length buf) (stored_bytes ++ drop (length stored_bytes) buf).

(** [n, err := r.read(r.dataFd, data)] *)
Definition call_read {fd} (buf : list Z) : M error (reader fd) readResult :=
  fun r => let '(rr, f) := read r (dataFd r) buf in (set_dataFd f r, Ok rr).

Section Reader.
Context `{Codec}.

Definition markerLen : Z := slen marker.

Definition Read {fd} : M error (reader fd) (string * list Z) :=
  modify (set_currEntry zeroIndexEntry) ;;;
  r <~ get ;;
  let '(size, consumed) := DecodeVarint (indexUnread r) in
  modify (set_indexUnread (drop (Z.to_nat consumed) (indexUnread r))) ;;;
  if consumed <? 1 then fail ErrReadIndexEntryZeroSize
  else
    r <~ get ;;
    (* a slice expression may reach into the capacity *)
    indexEntryData <~ lift (slice_to (indexUnread r ++ indexSpare r) size) ;;
    entry <~ lift (unmarshalIndexEntry indexEntryData) ;;
    modify (set_currEntry entry) ;;;
    rest <~ lift (slice_from (indexUnread r) size) ;;
    modify (set_indexUnread rest) ;;;
    let expectedSize := to_int (to_int (markerLen + idxLen) + to_int (Size entry)) in
    buf <~ lift (make_bytes expectedSize) ;;
    rr <~ call_read buf ;;
    let data := overlay buf (stored rr) in
    match failure rr with
    | Some err => fail err
    | None =>
        if negb (count rr =? expectedSize) then fail ErrReadNotExpectedSize
        else
          head <~ lift (slice_to data markerLen) ;;
          if negb (bool_decide (head = marker)) then fail ErrReadMarkerNotFound
          else
            idxBytes <~ lift (slice_range data markerLen (markerLen + idxLen)) ;;
            let idx := to_int (be_uint64 idxBytes) in
            if negb (idx =? Idx entry)
            then fail (ErrReadWrongIdx (Idx entry) idx)
            else
              r <~ get ;;
              modify (set_entriesRead (to_int (entriesRead r + 1))) ;;;
              payload <~ lift (slice_from data (markerLen + idxLen)) ;;
              ret (Key entry, payload)
    end.

Definition GetEntries {fd} (r : reader fd) : Z := entries r.
Definition GetEntriesRead {fd} (r : reader fd) : Z := entriesRead r.

(** What the specification has [Read] answer for an index entry that was
    decoded, from what the read of the data file gave: [rr] is the outcome
    of the read and [buf] the buffer after it. *)
Definition frameOutcome (entry : IndexEntry) (rr : readResult) (buf : list Z)
  : res error (string * list Z) :=
  match failure rr with
  | Some err => Err err
  | None =>
      if negb (count rr =? markerLen + idxLen + Size entry)
      then Err ErrReadNotExpectedSize
      else if negb (bool_decide (take (Z.to_nat markerLen) buf = marker))
      then Err ErrReadMarkerNotFound
      else
        let idx := to_int (be_uint64 (take 8 (drop (Z.to_nat markerLen) buf))) in
        if negb (idx =? Idx entry)
        then Err (ErrReadWrongIdx (Idx entry) idx)
        else Ok (Key entry, drop (Z.to_nat (markerLen + idxLen)) buf)
  end.

End Reader.

(** [readFile] is [fd.Read(buf)] of package os on a regular file, the file
    being the bytes that are left of it: nothing is read into an empty
    buffer, the end of the file gives [0, io.EOF], and otherwise the
    buffer is filled as far as the file goes. *)
Definition readFile (fd : list Z) (buf : list Z) : readResult * list Z :=
  match buf with
  | [] => (mkReadResult [] 0 None, fd)
  | _ :: _ =>
      match fd with
      | [] => (mkReadResult [] 0 (Some EOF), fd)
      | _ :: _ =>
          let n := Nat.min (length buf) (length fd) in
          (mkReadResult (take n fd) (Z.of_nat n) None, drop n fd)
      end
  end.

(** ** The files the writer works on *)

Inductive file : Type := InfoFile | IndexFile | DataFile | CheckpointFile.

#[global] Instance file_eq_dec : EqDecision file.
Proof. solve_decision. Defined.

(** System calls that took effect. *)
Inductive event : Type :=
| EvTruncate (f : file)
| EvWrite (f : file) (data : list Z)
| EvClose (f : file)
| EvOpenWritable (f : file).    (* O_WRONLY|O_CREATE|O_TRUNC *)

#[global] Instance event_eq_dec : EqDecision event.
Proof. solve_decision. Defined.

(** The operating system as the writer sees it: the bytes of each file
    ([None] when the file does not exist), the system calls that took effect,
    oldest first, and what the coming system calls will answer ([Some e]:
    that call fails with [e] and has no effect; past the end of the list
    every call succeeds). *)
Record world : Type := mkWorld {
  info : option (list Z);
  index : option (list Z);
  data : option (list Z);
  checkpoint : option (list Z);
  trace : list event;
  faults : list (option error)
}.

Definition content (f : file) (o : world) : option (list Z) :=
  match f with
  | InfoFile => info o
  | IndexFile => index o
  | DataFile => data o
  | CheckpointFile => checkpoint o
  end.

Definition set_content (f : file) (c : option (list Z)) (o : world) : world :=
  match f with
  | InfoFile => mkWorld c (index o) (data o) (checkpoint o) (trace o) (faults o)
  | IndexFile => mkWorld (info o) c (data o) (checkpoint o) (trace o) (faults o)
  | DataFile => mkWorld (info o) (index o) c (checkpoint o) (trace o) (faults o)
  | CheckpointFile => mkWorld (info o) (index o) (data o) c (trace o) (faults o)
  end.

Definition log (ev : event) (o : world) : world :=
  mkWorld (info o) (index o) (data o) (checkpoint o) (trace o ++ [ev]) (faults o).

Definition next_fault (o : world) : option error * world :=
  match faults o with
  | [] => (None, o)
  | a :: rest =>
      (a, mkWorld (info o) (index o) (data o) (checkpoint o) (trace o) rest)
  end.

Definition syscall (ev : event) (effect : world -> world) : M error world unit :=
  fun o =>
    match next_fault o with
    | (Some e, o1) => (o1, Err e)
    | (None, o1) => (log ev (effect o1), Ok tt)
    end.

(** [fd.Write(b)]: all of [b] goes to the end of the file, or the call
    fails. *)
Definition sysWrite (f : file) (b : list Z) : M error world Z :=
  syscall (EvWrite f b)
    (fun o => set_content f (Some (default [] (content f o) ++ b)) o) ;;;
  ret (slen b).

Definition sysTruncate (f : file) : M error world unit :=
  syscall (EvTruncate f) (set_content f (Some [])).

Definition sysClose (f : file) : M error world unit :=
  syscall (EvClose f) (fun o => o).

Definition sysOpenWritable (f : file) : M error world file :=
  syscall (EvOpenWritable f) (set_content f (Some [])) ;;; ret f.

(** Modelled from the spec: [closeFiles] is not among the sources; close
    "closes all three files in order", and an error of a close is the error
    of the call. *)
Fixpoint closeFiles (fds : list file) : M error world unit :=
  match fds with
  | [] => ret tt
  | f :: rest => sysClose f ;;; closeFiles rest
  end.

(** ** The writer *)

Record writer : Type := mkWriter {
  blockSize : Z;
  start : Z;                 (* the block start, in nanoseconds *)
  wEntry : IndexEntry;       (* currEntry *)
  currIdx : Z;
  currOffset : Z;
  infoBuffer : list Z;
  indexBuffer : list Z;
  varintBuffer : list Z;
  idxData : list Z
}.

Definition set_wEntry (e : IndexEntry) (w : writer) : writer :=
  mkWriter (blockSize w) (start w) e (currIdx w) (currOffset w)
    (infoBuffer w) (indexBuffer w) (varintBuffer w) (idxData w).
Definition set_currIdx (n : Z) (w : writer) : writer :=
  mkWriter (blockSize w) (start w) (wEntry w) n (currOffset w)
    (infoBuffer w) (indexBuffer w) (varintBuffer w) (idxData w).
Definition set_currOffset (n : Z) (w : writer) : writer :=
  mkWriter (blockSize w) (start w) (wEntry w) (currIdx w) n
    (infoBuffer w) (indexBuffer w) (varintBuffer w) (idxData w).
Definition set_infoBuffer (b : list Z) (w : writer) : writer :=
  mkWriter (blockSize w) (start w) (wEntry w) (currIdx w) (currOffset w)
    b (indexBuffer w) (varintBuffer w) (idxData w).
Definition set_indexBuffer (b : list Z) (w : writer) : writer :=
  mkWriter (blockSize w) (start w) (wEntry w) (currIdx w) (currOffset w)
    (infoBuffer w) b (varintBuffer w) (idxData w).
Definition set_varintBuffer (b : list Z) (w : writer) : writer :=
  mkWriter (blockSize w) (start w) (wEntry w) (currIdx w) (currOffset w)
    (infoBuffer w) (indexBuffer w) b (idxData w).
Definition set_idxData (b : list Z) (w : writer) : writer :=
  mkWriter (blockSize w) (start w) (wEntry w) (currIdx w) (currOffset w)
    (infoBuffer w) (indexBuffer w) (varintBuffer w) b.

(** A writer at work: its fields and the files behind its descriptors. *)
Definition session : Type := writer * world.

Definition on_os {A} (m : M error world A) : M error session A :=
  fun s => let '(o, a) := m (snd s) in ((fst s, o), a).

Definition modify_w (f : writer -> writer) : M error session unit :=
  modify (fun s => (f (fst s), snd s)).

Definition the_writer : M error session writer := fun s => (s, Ok (fst s)).

(** [NewWriter]: the counters start at their zero values. *)
Definition NewWriter (blockSize : Z) : writer :=
  mkWriter blockSize 0 zeroIndexEntry 0 0 [] [] [] (replicate 8 0).

Section Writer.
Context `{Codec}.

Definition writeData (b : list Z) : M error session unit :=
  if slen b =? 0 then ret tt
  else
    written <~ on_os (sysWrite DataFile b) ;;
    w <~ the_writer ;;
    modify_w (set_currOffset (to_int (currOffset w + to_int written))).

Fixpoint writeDataEach (ds : list (list Z)) : M error session unit :=
  match ds with
  | [] => ret tt
  | d :: rest => writeData d ;;; writeDataEach rest
  end.

(** [for _, d := range data { size += int64(len(d)) }] *)
Definition totalSize (ds : list (list Z)) : Z :=
  fold_left (fun size d => to_int (size + to_int (slen d))) ds 0.

Definition WriteAll (key : string) (ds : list (list Z)) : M error session unit :=
  let size := totalSize ds in
  if size =? 0 then ret tt
  else
    w <~ the_writer ;;
    let entry := mkIndexEntry (currIdx w) size (currOffset w) key in
    modify_w (set_wEntry entry) ;;;
    modify_w (set_indexBuffer []) ;;;
    entryBytes <~ lift (marshalIndexEntry entry) ;;
    modify_w (set_indexBuffer entryBytes) ;;;
    modify_w (set_varintBuffer []) ;;;
    varint <~ lift (EncodeVarint (to_uint (slen entryBytes))) ;;
    modify_w (set_varintBuffer varint) ;;;
    writeData marker ;;;
    modify_w (set_idxData (be_put_uint64 (to_uint (currIdx w)))) ;;;
    writeData (be_put_uint64 (to_uint (currIdx w))) ;;;
    writeDataEach ds ;;;
    on_os (sysWrite IndexFile varint) ;;;
    on_os (sysWrite IndexFile entryBytes) ;;;
    w <~ the_writer ;;
    modify_w (set_currIdx (to_int (currIdx w + 1))).

Definition Write (key : string) (d : list Z) : M error session unit :=
  WriteAll key [d].

Definition openWritable (f : file) : M error world file := sysOpenWritable f.

(** The result of closing the checkpoint descriptor is dropped. *)
Definition writeCheckpointFile : M error world unit :=
  fd <~ openWritable CheckpointFile ;;
  fun o => let '(o1, _) := sysClose fd o in (o1, Ok tt).

Definition Close : M error session unit :=
  on_os (sysTruncate InfoFile) ;;;
  w <~ the_writer ;;
  let hdr := mkIndexInfo (start w) (to_int (blockSize w)) (currIdx w) in
  encoded <~ lift (marshalIndexInfo hdr) ;;
  modify_w (set_infoBuffer (infoBuffer w ++ encoded)) ;;;
  on_os (sysWrite InfoFile (infoBuffer w ++ encoded)) ;;;
  on_os (closeFiles [InfoFile; IndexFile; DataFile]) ;;;
  on_os writeCheckpointFile.

(** A run of appends, stopping at the first that fails. *)
Fixpoint WriteEach (appends : list (string * list (list Z))) : M error session unit :=
  match appends with
  | [] => ret tt
  | (key, ds) :: rest => WriteAll key ds ;;; WriteEach rest
  end.

(** *** What a run of appends leaves in the files *)

(** The length of a payload given in pieces. *)
Definition payloadLen (ds : list (list Z)) : Z :=
  foldr (fun d n => slen d + n) 0 ds.

(** The appends that write a record. *)
Definition withPayload (appends : list (string * list (list Z)))
  : list (string * list (list Z)) :=
  filter (fun a => payloadLen (snd a) <> 0) appends.

(** The bytes one record takes in the data file. *)
Definition frameLen (ds : list (list Z)) : Z := markerLen + idxLen + payloadLen ds.

Definition framesLen (recs : list (string * list (list Z))) : Z :=
  foldr (fun a n => frameLen (snd a) + n) 0 recs.

Definition dataRecord (idx : Z) (ds : list (list Z)) : list Z :=
  marker ++ be_put_uint64 idx ++ concat ds.

Fixpoint dataRecordsFrom (idx : Z) (recs : list (string * list (list Z))) : list Z :=
  match recs with
  | [] => []
  | (_, ds) :: rest => dataRecord idx ds ++ dataRecordsFrom (idx + 1) rest
  end.

(** The index entries of records written one after the other, the first
    one with ordinal [idx] at data offset [off]. *)
Fixpoint entriesFrom (idx off : Z) (recs : list (string * list (list Z)))
  : list IndexEntry :=
  match recs with
  | [] => []
  | (key, ds) :: rest =>
      mkIndexEntry idx (payloadLen ds) off key
        :: entriesFrom (idx + 1) (off + frameLen ds) rest
  end.

(** An index entry as the index file holds it. *)
Definition indexRecord (e : IndexEntry) : res error (list Z) :=
  enc <- marshalIndexEntry e ;;
  v <- EncodeVarint (to_uint (slen enc)) ;;
  Ok (v ++ enc).

Fixpoint indexRecords (es : list IndexEntry) : res error (list Z) :=
  match es with
  | [] => Ok []
  | e :: rest =>
      a <- indexRecord e ;;
      b <- indexRecords rest ;;
      Ok (a ++ b)
  end.

(** The bytes of a file, none if it does not exist. *)
Definition bytes_of_file (f : file) (o : world) : list Z := default [] (content f o).

(** From [s] to [s']: the record index and the data offset went up by
    [didx] and [doff], and the data and index files grew by [dapp] and
    [iapp]. *)
Definition advanced (s s' : session) (didx doff : Z) (dapp iapp : list Z) : Prop :=
  currIdx (fst s') = currIdx (fst s) + didx
  /\ currOffset (fst s') = currOffset (fst s) + doff
  /\ bytes_of_file DataFile (snd s') = bytes_of_file DataFile (snd s) ++ dapp
  /\ bytes_of_file IndexFile (snd s') = bytes_of_file IndexFile (snd s) ++ iapp.

(** The system calls of [Close] before the checkpoint is made. *)
Definition closeEvents (w : writer) (encoded : list Z) : list event :=
  [EvTruncate InfoFile; EvWrite InfoFile (infoBuffer w ++ encoded);
   EvClose InfoFile; EvClose IndexFile; EvClose DataFile].

End Writer.

(** ** Reading back what was written *)

(** The reader as [NewReader] and [Open] leave it: [readIndex] took all
    bytes of the index file, nothing was read from the data file yet, and
    [entries] is what the info file says.  [spare] is what lies in the
    buffer of the index beyond its bytes. *)
Definition openedReader (entries : Z) (indexBytes spare dataBytes : list Z)
  : reader (list Z) :=
  mkReader readFile entries 0 indexBytes spare zeroIndexEntry dataBytes.

Section ReadBack.
Context `{Codec}.

(** [n] calls of [Read] one after the other, stopping at the first that
    does not return a record; the records read, oldest first. *)
Fixpoint ReadEach {fd} (n : nat) : M error (reader fd) (list (string * list Z)) :=
  match n with
  | O => ret []
  | S n' =>
      rec <~ Read ;;
      rest <~ ReadEach n' ;;
      ret (rec :: rest)
  end.

(** A record as its reader sees it: the key and the payload in one piece. *)
Definition recordOf (a : string * list (list Z)) : string * list Z :=
  (fst a, concat (snd a)).

End ReadBack.

(** A write to the data file or to the index file. *)
Definition isAppend (ev : event) : Prop :=
  exists b, ev = EvWrite DataFile b \/ ev = EvWrite IndexFile b.

(** From [s] to [s'] nothing happened but appends to the data and index
    files: the info and checkpoint files, the block size, the block start
    and the info buffer are as they were, and so is what the data and
    index files held. *)
Definition appendedOnly (s s' : session) : Prop :=
  content InfoFile (snd s') = content InfoFile (snd s)
  /\ content CheckpointFile (snd s') = content CheckpointFile (snd s)
  /\ blockSize (fst s') = blockSize (fst s)
  /\ start (fst s') = start (fst s)
  /\ infoBuffer (fst s') = infoBuffer (fst s)
  /\ (exists dapp,
        bytes_of_file DataFile (snd s') = bytes_of_file DataFile (snd s) ++ dapp)
  /\ (exists iapp,
        bytes_of_file IndexFile (snd s') = bytes_of_file IndexFile (snd s) ++ iapp)
  /\ (exists evs, trace (snd s') = trace (snd s) ++ evs /\ Forall isAppend evs).

(** ** Opening a block for writing *)

(** [os.MkdirAll]: the directories are not part of the world; the call can
    fail and then has no effect. *)
Definition sysMkdirAll : M error world unit :=
  fun o =>
    match next_fault o with
    | (Some e, o1) => (o1, Err e)
    | (None, o1) => (o1, Ok tt)
    end.

(** Closing what was opened, whatever the closes answer. *)
Fixpoint closeOpened (fds : list file) : M error world unit :=
  match fds with
  | [] => ret tt
  | f :: rest => fun o => closeOpened rest (fst (sysClose f o))
  end.

(** Modelled from the spec: [openFiles] is not among the sources; open
    "opens three files for write-truncate" and on an error must "close any
    descriptors already opened before returning the error". *)
Fixpoint openFilesFrom (opener : file -> M error world file) (opened fds : list file)
  : M error world unit :=
  match fds with
  | [] => ret tt
  | f :: rest =>
      fun o =>
        match opener f o with
        | (o1, Ok fd) => openFilesFrom opener (opened ++ [fd]) rest o1
        | (o1, Err e) => (fst (closeOpened opened o1), Err e)
        | (o1, Panic) => (o1, Panic)
        | (o1, Fuel) => (o1, Fuel)
        end
  end.

Definition openFiles (opener : file -> M error world file) (fds : list file)
  : M error world unit :=
  openFilesFrom opener [] fds.

Definition set_start (t : Z) (w : writer) : writer :=
  mkWriter (blockSize w) t (wEntry w) (currIdx w) (currOffset w)
    (infoBuffer w) (indexBuffer w) (varintBuffer w) (idxData w).

(** [Open(shard, blockStart)].  The world holds the files of one block, so
    every [Open] is one of that block: its info, index and data files are
    opened with [O_TRUNC], its checkpoint file is left as it is. *)
Definition Open (blockStart : Z) : M error session unit :=
  on_os sysMkdirAll ;;;
  modify_w (set_start blockStart) ;;;
  on_os (openFiles openWritable [InfoFile; IndexFile; DataFile]).

End Fs.

(** * Package proto: the protobuf-diff iterator *)

Module Proto.

(** Errors of the bit stream under the iterator. *)
Inductive io_error : Type :=
| EOF
| ErrReader (code : Z).

(** One constructor for each place where the iterator makes an error. *)
Inductive error : Type :=
| ErrStream (e : io_error)                 (* a stream error, passed on as it is *)
| ErrReadingVarInt (e : io_error)
| ErrMaxCustomField (found allowed : Z)
| ErrProtoChangesBit (e : io_error)
| ErrFieldsSetToDefaultBit (e : io_error)
| ErrBitsetBit (e : io_error)
| ErrBitset (e : error)
| ErrProtoLength (e : error)
| ErrProtoTooLarge (found allowed : Z)
| ErrProtoBytes (e : io_error)
| ErrProtoShort (wanted found : Z)
| ErrUnmarshal (code : Z)
| ErrIsDefault (field : Z) (code : Z)
| ErrClearField (fieldNum : Z) (code : Z).

(** [encoding.IStream], the interface the iterator reads through.  [Read]
    is given the length of the buffer and answers the bytes it stored and
    their count. *)
Class IStream (Str : Type) : Type := {
  ReadBit : Str -> res io_error (Z * Str);
  ReadByte : Str -> res io_error (Z * Str);
  ReadBits : Z -> Str -> res io_error (Z * Str);
  Read : Z -> Str -> res io_error (list Z * Z * Str)
}.

(** ** Descriptors and dynamic messages *)

Record FieldDescriptor : Type := mkField {
  GetNumber : Z;
  IsRepeated : bool;
  GetMessageType : option string      (* [None] is nil *)
}.

Definition MessageDescriptor : Type := list FieldDescriptor.

(** What the iterator takes from outside the files of this development. *)
Class Env : Type := {
  Value : Type;
  maxTSZFieldsCapacityRetain : Z;
  maxMarshaledProtoMessageSize : Z;
  (* whether the run time can make a slice of this capacity *)
  canMake : Z -> bool;
  (* the value [GetFieldByNumber] answers for a field that is not set *)
  defaultOf : FieldDescriptor -> Value;
  (* [m.Unmarshal(b)] on a new message of the descriptor *)
  unmarshalValues : MessageDescriptor -> list Z -> res Z (gmap Z Value);
  (* [isDefaultValue(field, val)] of this package *)
  isDefaultValue : FieldDescriptor -> Value -> res Z bool
}.

(** Modelled from the spec: the opcodes and [cNotCustomEncoded] are not
    among the sources.  "0 means no non-custom field changed", "1 means a
    bitset follows", "bits set to 1 designate field numbers", "0 = not custom
    encoded". *)
Definition opCodeNoChange : Z := 0.
Definition opCodeFieldsSetToDefaultProtoMarshal : Z := 1.
Definition opCodeBitsetValueIsSet : Z := 1.
Definition cNotCustomEncoded : Z := 0.

Record customFieldState : Type := mkCustomFieldState {
  fieldNum : Z;
  fieldType : Z;
  prevFloatBits : Z;
  prevXOR : Z;
  NumSig : Z;
  iteratorBytesFieldDict : list (list Z)
}.

(** Modelled from the spec: [newCustomFieldState] is not among the sources;
    a state starts with its number and type and nothing seen. *)
Definition newCustomFieldState (fieldNum fieldType : Z) : customFieldState :=
  mkCustomFieldState fieldNum fieldType 0 0 0 [].

Definition set_dict (d : list (list Z)) (c : customFieldState) : customFieldState :=
  mkCustomFieldState (fieldNum c) (fieldType c) (prevFloatBits c) (prevXOR c)
    (NumSig c) d.

Section Iterator.
Context `{Env} {Str : Type} `{IStream Str}.

(** A [dynamic.Message]: its descriptor and the fields that are set. *)
Record Message : Type := mkMessage {
  descriptor : MessageDescriptor;
  values : gmap Z Value
}.

Definition NewMessage (md : MessageDescriptor) : Message := mkMessage md ∅.

Definition GetKnownFields (m : Message) : list FieldDescriptor := descriptor m.

Definition GetFieldByNumber (m : Message) (f : FieldDescriptor) : Value :=
  default (defaultOf f) (values m !! GetNumber f).

Definition SetFieldByNumber (n : Z) (v : Value) (m : Message) : Message :=
  mkMessage (descriptor m) (<[n := v]> (values m)).

Definition FindFieldDescriptor (m : Message) (n : Z) : option FieldDescriptor :=
  find (fun f => GetNumber f =? n) (descriptor m).

(** [TryClearFieldByNumber]: a number the descriptor does not have is an
    error; the number is cut to 32 bits on the way. *)
Definition TryClearFieldByNumber (n : Z) (m : Message) : res Z Message :=
  match FindFieldDescriptor m (wrap_s 32 n) with
  | None => Err 0
  | Some f => Ok (mkMessage (descriptor m) (delete (GetNumber f) (values m)))
  end.

Record iterator : Type := mkIterator {
  schema : option MessageDescriptor;
  stream : Str;
  consumedFirstMessage : bool;
  lastIterated : Message;
  byteFieldDictLRUSize : Z;
  customFields : option (list customFieldState);    (* [None] is nil *)
  bitsetValues : list Z
}.

Definition set_stream (s : Str) (it : iterator) : iterator :=
  mkIterator (schema it) s (consumedFirstMessage it) (lastIterated it)
    (byteFieldDictLRUSize it) (customFields it) (bitsetValues it).
Definition set_lastIterated (m : Message) (it : iterator) : iterator :=
  mkIterator (schema it) (stream it) (consumedFirstMessage it) m
    (byteFieldDictLRUSize it) (customFields it) (bitsetValues it).
Definition set_customFields (c : option (list customFieldState)) (it : iterator)
  : iterator :=
  mkIterator (schema it) (stream it) (consumedFirstMessage it) (lastIterated it)
    (byteFieldDictLRUSize it) c (bitsetValues it).
Definition set_bitsetValues (b : list Z) (it : iterator) : iterator :=
  mkIterator (schema it) (stream it) (consumedFirstMessage it) (lastIterated it)
    (byteFieldDictLRUSize it) (customFields it) b.

(** The elements of a slice that may be nil. *)
Definition elems {A} (s : option (list A)) : list A := default [] s.

(** A call on [it.stream]; [mk] makes the iterator's error of the stream's. *)
Definition on_stream {A} (mk : io_error -> error) (op : Str -> res io_error (A * Str))
  : M error iterator A :=
  fun it =>
    match op (stream it) with
    | Ok (a, s) => (set_stream s it, Ok a)
    | Err e => (it, Err (mk e))
    | Panic => (it, Panic)
    | Fuel => (it, Fuel)
    end.

(** [fmt.Errorf] around the error of a call. *)
Definition wrap_err {A} (mk : error -> error) (m : M error iterator A)
  : M error iterator A :=
  fun it =>
    match m it with
    | (it1, Err e) => (it1, Err (mk e))
    | other => other
    end.

Definition from_lib {A} (mk : Z -> error) (r : res Z A) : M error iterator A :=
  fun it =>
    match r with
    | Ok a => (it, Ok a)
    | Err c => (it, Err (mk c))
    | Panic => (it, Panic)
    | Fuel => (it, Fuel)
    end.

(** ** Varints *)

(** [binary.Uvarint] *)
Fixpoint uvarintFrom (buf : list Z) (i : Z) (x s : Z) : Z * Z :=
  match buf with
  | [] => (0, 0)
  | b :: rest =>
      if i =? 10 then (0, - (i + 1))
      else if b <? 128 then
        if (i =? 9) && (1 <? b) then (0, - (i + 1))
        else (Z.lor x (to_uint (Z.shiftl b s)), i + 1)
      else uvarintFrom rest (i + 1) (Z.lor x (to_uint (Z.shiftl (Z.land b 127) s))) (s + 7)
  end.

Definition Uvarint (buf : list Z) : Z * Z := uvarintFrom buf 0 0 0.

(** The loop of [readVarInt]: bytes are taken until one has its high bit
    clear. *)
Fixpoint readVarIntBytes (fuel : nat) (buf : list Z) : M error iterator (list Z) :=
  match fuel with
  | O => lift Fuel
  | S fuel' =>
      b <~ on_stream ErrReadingVarInt ReadByte ;;
      let buf := buf ++ [b] in
      if Z.shiftr b 7 =? 0 then ret buf else readVarIntBytes fuel' buf
  end.

Definition readVarInt (fuel : nat) : M error iterator Z :=
  buf <~ readVarIntBytes fuel [] ;;
  ret (fst (Uvarint buf)).

(** ** The header *)

Definition append_customField (c : customFieldState) (it : iterator) : iterator :=
  set_customFields (Some (elems (customFields it) ++ [c])) it.

(** [for i := 1; i <= int(maxCustomFieldNum); i++ { ... }] *)
Fixpoint readFieldTypes (fuel : nat) (i maxCustomFieldNum : Z) : M error iterator unit :=
  if i <=? to_int maxCustomFieldNum then
    match fuel with
    | O => lift Fuel
    | S fuel' =>
        fieldTypeBits <~ on_stream ErrStream (ReadBits 3) ;;
        let fieldType := to_int fieldTypeBits in
        (if fieldType =? cNotCustomEncoded then ret tt
         else modify (append_customField (newCustomFieldState i fieldType))) ;;;
        readFieldTypes fuel' (to_int (i + 1)) maxCustomFieldNum
    end
  else ret tt.

Definition readCustomFieldsSchema (fuel : nat) : M error iterator unit :=
  maxCustomFieldNum <~ readVarInt fuel ;;
  if maxCustomFieldNum <? maxCustomFieldNum
  then fail (ErrMaxCustomField maxCustomFieldNum maxCustomFieldNum)
  else
    it <~ get ;;
    (if (maxCustomFieldNum <=? maxTSZFieldsCapacityRetain)
          && bool_decide (customFields it ≠ None)
     then modify (set_customFields (Some []))
     else
       if canMake maxCustomFieldNum then modify (set_customFields (Some []))
       else lift Panic) ;;;
    readFieldTypes fuel 1 maxCustomFieldNum.

Definition readHeader (fuel : nat) : M error iterator unit :=
  readVarInt fuel ;;;
  byteFieldDictLRUSize <~ readVarInt fuel ;;
  modify (fun it =>
            mkIterator (schema it) (stream it) (consumedFirstMessage it)
              (lastIterated it) (to_int byteFieldDictLRUSize) (customFields it)
              (bitsetValues it)) ;;;
  readCustomFieldsSchema fuel.

(** ** The bitset of cleared fields *)

(** [for i := uint64(0); i < bitsetLengthBits; i++ { ... }] *)
Fixpoint readBitsetBits (fuel : nat) (i bitsetLengthBits : Z) : M error iterator unit :=
  if i <? bitsetLengthBits then
    match fuel with
    | O => lift Fuel
    | S fuel' =>
        b <~ on_stream ErrBitsetBit ReadBit ;;
        (if b =? opCodeBitsetValueIsSet
         then modify (fun it => set_bitsetValues (bitsetValues it ++ [to_int (to_int i + 1)]) it)
         else ret tt) ;;;
        readBitsetBits fuel' (to_uint (i + 1)) bitsetLengthBits
    end
  else ret tt.

Definition readBitset (fuel : nat) : M error iterator unit :=
  modify (set_bitsetValues []) ;;;
  bitsetLengthBits <~ readVarInt fuel ;;
  readBitsetBits fuel 0 bitsetLengthBits.

(** ** The message diff *)

(** [m.GetFieldByNumber(n)]: the value that is set, or the default of the
    field; the call panics on a number the descriptor does not have. *)
Definition valueByNumber (m : Message) (n : Z) : res error Value :=
  match FindFieldDescriptor m n with
  | None => Panic
  | Some f => Ok (default (defaultOf f) (values m !! n))
  end.

(** [it.lastIterated.SetFieldByNumber(n, v)] panics where
    [TrySetFieldByNumber] fails. *)
Definition setByNumber (n : Z) (v : Value) (m : Message) : res error Message :=
  match FindFieldDescriptor m n with
  | None => Panic
  | Some _ => Ok (SetFieldByNumber n v m)
  end.

(** [for _, field := range m.GetKnownFields() { ... }] *)
Fixpoint mergeKnownFields (m : Message) (fields : list FieldDescriptor)
  : M error iterator unit :=
  match fields with
  | [] => ret tt
  | field :: rest =>
      let messageType := GetMessageType field in
      let fieldNumInt := GetNumber field in
      if bool_decide (messageType = None) && negb (IsRepeated field)
      then mergeKnownFields m rest
      else
        curVal <~ lift (valueByNumber m fieldNumInt) ;;
        isDefault <~ from_lib (ErrIsDefault fieldNumInt) (isDefaultValue field curVal) ;;
        if isDefault then mergeKnownFields m rest
        else
          it <~ get ;;
          last <~ lift (setByNumber fieldNumInt curVal (lastIterated it)) ;;
          modify (set_lastIterated last) ;;;
          mergeKnownFields m rest
  end.

(** [for _, fieldNum := range it.bitsetValues { ... }] *)
Fixpoint clearFields (nums : list Z) : M error iterator unit :=
  match nums with
  | [] => ret tt
  | fieldNum :: rest =>
      it <~ get ;;
      last <~ from_lib (ErrClearField fieldNum)
                (TryClearFieldByNumber fieldNum (lastIterated it)) ;;
      modify (set_lastIterated last) ;;;
      clearFields rest
  end.

(** The first part of [readProtoValues], up to [m.Unmarshal]: [None] when
    the control bit says nothing changed, else the second control bit and
    the message of the diff. *)
Definition readProtoDiff (fuel : nat) : M error iterator (option (Z * Message)) :=
  protoChangesControlBit <~ on_stream ErrProtoChangesBit ReadBit ;;
  if protoChangesControlBit =? opCodeNoChange then ret None
  else
    fieldsSetToDefaultControlBit <~ on_stream ErrFieldsSetToDefaultBit ReadBit ;;
    (if fieldsSetToDefaultControlBit =? opCodeFieldsSetToDefaultProtoMarshal
     then wrap_err ErrBitset (readBitset fuel)
     else ret tt) ;;;
    marshalLen <~ wrap_err ErrProtoLength (readVarInt fuel) ;;
    if maxMarshaledProtoMessageSize <? marshalLen
    then fail (ErrProtoTooLarge marshalLen maxMarshaledProtoMessageSize)
    else
      r <~ on_stream ErrProtoBytes (Read (to_int marshalLen)) ;;
      let '(unmarshalBytes, n) := r in
      if negb (n =? to_int marshalLen)
      then fail (ErrProtoShort (to_int marshalLen) n)
      else
        it <~ get ;;
        md <~ lift (match schema it with Some md => Ok md | None => Panic end) ;;
        vs <~ from_lib ErrUnmarshal (unmarshalValues md unmarshalBytes) ;;
        ret (Some (fieldsSetToDefaultControlBit, mkMessage md vs)).

Definition readProtoValues (fuel : nat) : M error iterator unit :=
  diff <~ readProtoDiff fuel ;;
  match diff with
  | None => ret tt
  | Some (fieldsSetToDefaultControlBit, m) =>
      mergeKnownFields m (GetKnownFields m) ;;;
      if fieldsSetToDefaultControlBit =? 1
      then it <~ get ;; clearFields (bitsetValues it)
      else ret tt
  end.

(** ** The dictionary of a bytes field *)

(** [for j := i; j < len(existing); j++ { ... }] *)
Fixpoint moveToEndLoop (fuel : nat) (j : Z) (existing : list (list Z))
  : res error (list (list Z)) :=
  if j <? slen existing then
    match fuel with
    | O => Fuel
    | S fuel' =>
        let nextIdx := to_int (j + 1) in
        if slen existing <=? nextIdx then Ok existing
        else
          currVal <- index_at existing j ;;
          nextVal <- index_at existing nextIdx ;;
          existing <- store_at existing j nextVal ;;
          existing <- store_at existing nextIdx currVal ;;
          moveToEndLoop fuel' (to_int (j + 1)) existing
    end
  else Ok existing.

(** The slice [existing] shares its array with the slice of the field, so
    what the loop stores is stored in the field. *)
Definition moveToEndOfBytesDict (fieldIdx i : Z) : M error iterator unit :=
  it <~ get ;;
  c <~ lift (index_at (elems (customFields it)) fieldIdx) ;;
  let existing := iteratorBytesFieldDict c in
  moved <~ lift (moveToEndLoop (S (length existing)) i existing) ;;
  cs <~ lift (store_at (elems (customFields it)) fieldIdx (set_dict moved c)) ;;
  modify (set_customFields (Some cs)).

(** [for i := range existing { ... }] *)
Fixpoint shiftDown (range : list nat) (existing : list (list Z))
  : res error (list (list Z)) :=
  match range with
  | [] => Ok existing
  | i :: rest =>
      let nextIdx := Z.of_nat i + 1 in
      if slen existing <=? nextIdx then Ok existing
      else
        nextVal <- index_at existing nextIdx ;;
        existing <- store_at existing (Z.of_nat i) nextVal ;;
        shiftDown rest existing
  end.

Definition addToBytesDict (fieldIdx : Z) (b : list Z) : M error iterator unit :=
  it <~ get ;;
  c <~ lift (index_at (elems (customFields it)) fieldIdx) ;;
  let existing := iteratorBytesFieldDict c in
  if slen existing <? byteFieldDictLRUSize it then
    cs <~ lift (store_at (elems (customFields it)) fieldIdx
                  (set_dict (existing ++ [b]) c)) ;;
    modify (set_customFields (Some cs))
  else
    shifted <~ lift (shiftDown (seq 0 (length existing)) existing) ;;
    replaced <~ lift (store_at shifted (slen shifted - 1) b) ;;
    cs <~ lift (store_at (elems (customFields it)) fieldIdx (set_dict replaced c)) ;;
    modify (set_customFields (Some cs)).

(** The dictionary of the field at [fieldIdx]. *)
Definition dictOf (fieldIdx : Z) (it : iterator) : option (list (list Z)) :=
  iteratorBytesFieldDict <$> (elems (customFields it) !! Z.to_nat fieldIdx).

(** ** The merge rule, field by field *)

(** Whether the loop over the known fields copies [field] from the diff. *)
Definition copied (m : Message) (field : FieldDescriptor) : bool :=
  negb (bool_decide (GetMessageType field = None) && negb (IsRepeated field))
  && match isDefaultValue field (GetFieldByNumber m field) with
     | Ok false => true
     | _ => false
     end.

(** The value of field [n] after a diff [m] was merged into [last] and the
    fields of [cleared] were cleared. *)
Definition merged (clears : bool) (cleared : list Z) (m last : Message) (n : Z)
  : option Value :=
  if clears && bool_decide (n ∈ cleared) then None
  else
    match find (fun f => (GetNumber f =? n) && copied m f) (GetKnownFields m) with
    | Some f => Some (GetFieldByNumber m f)
    | None => values last !! n
    end.

(** Whether a call ended with the error that says the maximum custom field
    number of the header is too large. *)
Definition rejectsMax {A} (r : res error A) : bool :=
  match r with
  | Err (ErrMaxCustomField _ _) => true
  | _ => false
  end.

End Iterator.

(** ** Integer fields: significant bits and differences *)

(** Where [readIntSig] and [readIntValDiff] make an error: each wraps the
    error of the stream in a message of its own. *)
Inductive int_error : Type :=
| ErrSigUpdateBit (e : io_error)
| ErrZeroSigBit (e : io_error)
| ErrNumSigBits (e : io_error)
| ErrNegativeBit (e : io_error)
| ErrSigDigits (e : io_error).

(** The opcodes and the field type the two functions look at; they are
    not among the sources. *)
Class IntCodes : Type := {
  OpcodeZeroSig : Z;
  opCodeIntDeltaNegative : Z;
  cUnsignedInt64 : Z
}.

Definition set_NumSig (n : Z) (c : customFieldState) : customFieldState :=
  mkCustomFieldState (fieldNum c) (fieldType c) (prevFloatBits c) (prevXOR c)
    n (iteratorBytesFieldDict c).

Definition set_prevFloatBits (v : Z) (c : customFieldState) : customFieldState :=
  mkCustomFieldState (fieldNum c) (fieldType c) v (prevXOR c)
    (NumSig c) (iteratorBytesFieldDict c).

Section IntValues.
Context `{Env} {Str : Type} `{IStream Str} `{IntCodes}.

(** A call on [it.stream] whose error is wrapped by [mk]. *)
Definition on_stream_as {E A} (mk : io_error -> E) (op : Str -> res io_error (A * Str))
  : M E (@iterator _ Str) A :=
  fun it =>
    match op (stream it) with
    | Ok (a, s) => (set_stream s it, Ok a)
    | Err e => (it, Err (mk e))
    | Panic => (it, Panic)
    | Fuel => (it, Fuel)
    end.

(** [it.customFields[i]] *)
Definition customFieldAt {E} (i : Z) : M E (@iterator _ Str) customFieldState :=
  it <~ get ;;
  lift (index_at (elems (customFields it)) i).

(** [it.customFields[i].f = v] *)
Definition updateCustomField {E} (i : Z) (f : customFieldState -> customFieldState)
  : M E (@iterator _ Str) unit :=
  it <~ get ;;
  c <~ lift (index_at (elems (customFields it)) i) ;;
  cs <~ lift (store_at (elems (customFields it)) i (f c)) ;;
  modify (set_customFields (Some cs)).

(** [NumSig] is a [uint8]: [uint8(numSigBits) + 1] wraps at 256. *)
Definition readIntSig (i : Z) : M int_error (@iterator _ Str) unit :=
  updateControlBit <~ on_stream_as ErrSigUpdateBit ReadBit ;;
  if updateControlBit =? opCodeNoChange then ret tt
  else
    sigDigitsControlBit <~ on_stream_as ErrZeroSigBit ReadBit ;;
    if sigDigitsControlBit =? OpcodeZeroSig
    then updateCustomField i (set_NumSig 0)
    else
      numSigBits <~ on_stream_as ErrNumSigBits (ReadBits 6) ;;
      updateCustomField i (set_NumSig (to_byte (to_byte numSigBits + 1))).

Definition readIntValDiff (i : Z) : M int_error (@iterator _ Str) unit :=
  negativeControlBit <~ on_stream_as ErrNegativeBit ReadBit ;;
  c <~ customFieldAt i ;;
  let numSig := NumSig c in
  diffSigBits <~ on_stream_as ErrSigDigits (ReadBits numSig) ;;
  c <~ customFieldAt i ;;
  if fieldType c =? cUnsignedInt64 then
    let diff := to_uint diffSigBits in
    let shouldSubtract := negativeControlBit =? opCodeIntDeltaNegative in
    c <~ customFieldAt i ;;
    let prev := to_uint (prevFloatBits c) in
    if shouldSubtract
    then updateCustomField i (set_prevFloatBits (to_uint (prev - diff)))
    else updateCustomField i (set_prevFloatBits (to_uint (prev + diff)))
  else
    let diff := to_int diffSigBits in
    let sign := if negativeControlBit =? opCodeIntDeltaNegative then -1 else 1 in
    c <~ customFieldAt i ;;
    let prev := to_int (prevFloatBits c) in
    updateCustomField i
      (set_prevFloatBits (to_uint (to_int (prev + to_int (sign * diff))))).

(** The state of the custom field at [i]. *)
Definition customFieldOf (i : Z) (it : @iterator _ Str) : option customFieldState :=
  elems (customFields it) !! Z.to_nat i.

End IntValues.

(** Whether an error was made while the diff was merged into the last
    message or fields were cleared from it. *)
Definition fromMerge (e : error) : bool :=
  match e with
  | ErrIsDefault _ _ | ErrClearField _ _ => true
  | _ => false
  end.

End Proto.

(** * Small instances to run the model on *)

Module Examples.

Import schema.

Definition bytes_of_key (k : string) : list Z :=
  map (fun a => Z.of_N (Ascii.N_of_ascii a)) (String.list_ascii_of_string k).

Definition key_of_bytes (b : list Z) : string :=
  String.string_of_list_ascii (map (fun z => Ascii.ascii_of_N (Z.to_N z)) b).

(** A stand-in for the protobuf codec, good for numbers below 256: one byte
    for each number, then the key. *)
Definition smallCodec : Fs.Codec := {|
  Fs.marker := [222; 173; 190; 239];
  Fs.unmarshalIndexEntry := fun b =>
    match b with
    | i :: sz :: off :: key => Ok (mkIndexEntry i sz off (key_of_bytes key))
    | _ => Err (Fs.ErrLib 1)
    end;
  Fs.marshalIndexEntry := fun e =>
    Ok ([Idx e; Size e; Offset e] ++ bytes_of_key (Key e));
  Fs.marshalIndexInfo := fun i => Ok [Start i; BlockSize i; Entries i]
|}.

(** An operating system with no file yet and no fault to come. *)
Definition quietWorld : Fs.world := Fs.mkWorld None None None None [] [].

(** A reader on an index with one entry (ordinal 0, size 3, offset 0, key
    "k") and a data file. *)
Definition readerOn (dataFile : list Z) : Fs.reader (list Z) :=
  Fs.mkReader Fs.readFile 1 0 [4; 0; 3; 0; 107] [] zeroIndexEntry dataFile.

(** The frame of record 0 with payload 1, 2, 3. *)
Definition frame0 : list Z := [222; 173; 190; 239; 0; 0; 0; 0; 0; 0; 0; 0; 1; 2; 3].

(** Three appends, the second without payload. *)
Definition threeAppends : list (string * list (list Z)) :=
  [("a"%string, [[1; 2; 3]]); ("b"%string, [[]]); ("c"%string, [[4]; [5]])].

(** A stand-in for the protobuf library on messages whose values are
    numbers: the bytes are pairs of a field number and a value, and 0 is the
    default of every field. *)
Fixpoint pairValues (b : list Z) : res Z (gmap Z Z) :=
  match b with
  | [] => Ok ∅
  | n :: v :: rest => m <- pairValues rest ;; Ok (<[n := v]> m)
  | _ => Err 1
  end.

Definition smallEnv : Proto.Env := {|
  Proto.Value := Z;
  Proto.maxTSZFieldsCapacityRetain := 24;
  Proto.maxMarshaledProtoMessageSize := 4096;
  Proto.canMake := fun n => n <? 2 ^ 31;
  Proto.defaultOf := fun _ => 0;
  Proto.unmarshalValues := fun _ b => pairValues b;
  Proto.isDefaultValue := fun _ v => Ok (v =? 0)
|}.

(** Modelled from the spec: the stream under [encoding.IStream] is not among
    the sources.  Here it is the bits that are left, and "readers mirror"
    the writer: the bits of a number come lowest first. *)
Fixpoint readBitsLow (n : nat) (s : list bool) : res Proto.io_error (Z * list bool) :=
  match n with
  | O => Ok (0, s)
  | S n' =>
      match s with
      | [] => Err Proto.EOF
      | b :: rest =>
          r <- readBitsLow n' rest ;;
          Ok (Z.b2z b + 2 * fst r, snd r)
      end
  end.

Fixpoint readBytesLow (n : nat) (s : list bool)
  : res Proto.io_error (list Z * list bool) :=
  match n with
  | O => Ok ([], s)
  | S n' =>
      r <- readBitsLow 8 s ;;
      r' <- readBytesLow n' (snd r) ;;
      Ok (fst r :: fst r', snd r')
  end.

Definition bitReader : Proto.IStream (list bool) := {|
  Proto.ReadBit := readBitsLow 1;
  Proto.ReadByte := readBitsLow 8;
  Proto.ReadBits := fun n => readBitsLow (Z.to_nat n);
  Proto.Read := fun n s =>
    r <- readBytesLow (Z.to_nat n) s ;;
    Ok (fst r, n, snd r)
|}.

(** The bits of the bytes [b], lowest bit of each byte first. *)
Definition bitsOfBytes (b : list Z) : list bool := concat (map (Tsz.bits_of 8) b).

(** A schema with a singular scalar field 1 and a repeated field 2. *)
Definition twoFields : Proto.MessageDescriptor :=
  [Proto.mkField 1 false None; Proto.mkField 2 true None].

(** An iterator on [stream] after the header, with nothing iterated yet. *)
Definition iteratorOn (stream : list bool)
  : @Proto.iterator smallEnv (list bool) :=
  Proto.mkIterator (Some twoFields) stream true
    (@Proto.NewMessage smallEnv twoFields) 2 None [].

(** A record whose diff sets field 1 to 5 and field 2 to 7 and clears
    nothing: the two control bits, then the length and the bytes. *)
Definition diffStream : list bool :=
  [true; false] ++ bitsOfBytes [4; 1; 5; 2; 7].

(** An iterator with one bytes field whose dictionary is [dict]. *)
Definition iteratorWithDict (lruSize : Z) (dict : list (list Z))
  : @Proto.iterator smallEnv (list bool) :=
  Proto.mkIterator (Some twoFields) [] true
    (@Proto.NewMessage smallEnv twoFields) lruSize
    (Some [Proto.mkCustomFieldState 3 7 0 0 0 dict]) [].

(** The diff that [readProtoDiff] takes from [diffStream], and the iterator
    after it. *)
Definition diffMessage : @Proto.Message smallEnv :=
  match snd (@Proto.readProtoDiff smallEnv _ bitReader 10 (iteratorOn diffStream)) with
  | Ok (Some (_, m)) => m
  | _ => @Proto.NewMessage smallEnv []
  end.

Definition afterDiff : @Proto.iterator smallEnv (list bool) :=
  fst (@Proto.readProtoDiff smallEnv _ bitReader 10 (iteratorOn diffStream)).

(** Stand-ins for the opcodes of the integer encoding. *)
Definition smallIntCodes : Proto.IntCodes := {|
  Proto.OpcodeZeroSig := 0;
  Proto.opCodeIntDeltaNegative := 1;
  Proto.cUnsignedInt64 := 6
|}.

(** An iterator on [stream] with one integer field of type [fieldType]
    whose last value has the bits [prev] and [numSig] significant bits. *)
Definition iteratorWithInt (fieldType prev numSig : Z) (stream : list bool)
  : @Proto.iterator smallEnv (list bool) :=
  Proto.mkIterator (Some twoFields) stream true
    (@Proto.NewMessage smallEnv twoFields) 2
    (Some [Proto.mkCustomFieldState 3 fieldType prev 0 numSig []]) [].

End Examples.
(** * Facts about fixed-width integers *)

Lemma wrap_s_small w n :
  0 < w -> - 2 ^ (w - 1) <= n < 2 ^ (w - 1) -> wrap_s w n = n.
Proof.
  intros Hw Hn. unfold wrap_s.
  replace (2 ^ w) with (2 * 2 ^ (w - 1)).
  - rewrite Z.mod_small; lia.
  - rewrite <- Z.pow_succ_r by lia. f_equal. lia.
Qed.

Lemma to_int_small n : - 2 ^ 63 <= n < 2 ^ 63 -> to_int n = n.
Proof. intros Hn. apply wrap_s_small; [lia | exact Hn]. Qed.

Lemma to_uint_small n : 0 <= n < 2 ^ 64 -> to_uint n = n.
Proof. intros Hn. unfold to_uint, wrap_u. apply Z.mod_small. exact Hn. Qed.

Lemma to_byte_small n : 0 <= n < 256 -> to_byte n = n.
Proof. intros Hn. unfold to_byte, wrap_u. apply Z.mod_small. exact Hn. Qed.

Lemma to_byte_is_byte n : is_byte (to_byte n).
Proof. unfold is_byte, to_byte, wrap_u. apply Z.mod_pos_bound. lia. Qed.

Lemma to_byte_testbit n i :
  Z.testbit (to_byte n) i = if i <? 8 then Z.testbit n i else false.
Proof.
  unfold to_byte, wrap_u. destruct (Z.ltb_spec i 8).
  - apply Z.mod_pow2_bits_low. lia.
  - apply Z.mod_pow2_bits_high. lia.
Qed.

Lemma testbit_above n p i :
  0 <= n < 2 ^ p -> 0 <= p <= i -> Z.testbit n i = false.
Proof.
  intros Hn Hp. destruct (Z.eq_dec n 0) as [-> | Hne].
  - apply Z.bits_0.
  - apply Z.bits_above_log2; [lia |].
    apply Z.lt_le_trans with p; [| lia].
    apply Z.log2_lt_pow2; lia.
Qed.

Lemma lor_below a b p :
  0 <= p -> 0 <= a < 2 ^ p -> 0 <= b < 2 ^ p -> 0 <= Z.lor a b < 2 ^ p.
Proof.
  intros Hp Ha Hb.
  assert (H0 : 0 <= Z.lor a b) by (apply Z.lor_nonneg; lia).
  split; [exact H0 |].
  destruct (Z.eq_dec (Z.lor a b) 0) as [E | E];
    [rewrite E; apply Z.pow_pos_nonneg; lia |].
  apply Z.log2_lt_pow2; [lia |].
  rewrite Z.log2_lor by lia.
  destruct (Z.eq_dec a 0) as [-> | Ha0]; destruct (Z.eq_dec b 0) as [-> | Hb0].
  - exfalso. apply E. reflexivity.
  - rewrite Z.max_r by (apply Z.log2_nonneg). apply Z.log2_lt_pow2; lia.
  - rewrite Z.max_l by (apply Z.log2_nonneg). apply Z.log2_lt_pow2; lia.
  - apply Z.max_lub_lt; apply Z.log2_lt_pow2; lia.
Qed.

Section TszFacts.
Import Tsz.

Lemma bits_of_length k b : length (bits_of k b) = k.
Proof. unfold bits_of. rewrite length_map, length_seq. reflexivity. Qed.

Lemma bits_of_ext k x y :
  (forall i, 0 <= i < Z.of_nat k -> Z.testbit x i = Z.testbit y i) ->
  bits_of k x = bits_of k y.
Proof.
  intros Hxy. unfold bits_of. apply map_ext_in. intros i Hi.
  apply in_seq in Hi. apply Hxy. lia.
Qed.

Lemma bits_of_app a b x :
  bits_of (a + b) x = bits_of a x ++ bits_of b (Z.shiftr x (Z.of_nat a)).
Proof.
  unfold bits_of. rewrite seq_app, map_app. f_equal.
  replace (0 + a)%nat with (a + 0)%nat by lia.
  rewrite <- (fmap_add_seq a 0 b).
  change (fmap (Nat.add a) (seq 0 b)) with (map (Nat.add a) (seq 0 b)).
  rewrite map_map. apply map_ext. intros i.
  rewrite Z.shiftr_spec by lia. f_equal. lia.
Qed.

Lemma fillUnused_snoc v init b p :
  fillUnused v (mkOStream (init ++ [b]) p)
  = Ok (mkOStream (init ++ [Z.lor b (to_byte (Z.shiftl v (to_uint p)))]) p).
Proof.
  unfold fillUnused, lastIndex, len, index_at, store_at, slen. simpl.
  rewrite length_app. simpl.
  replace (Z.of_nat (length init + 1) - 1) with (Z.of_nat (length init)) by lia.
  rewrite Nat2Z.id.
  destruct (Z.leb_spec 0 (Z.of_nat (length init))); [| lia].
  destruct (Z.ltb_spec (Z.of_nat (length init)) (Z.of_nat (length init + 1))); [| lia].
  simpl. rewrite list_lookup_middle by reflexivity. simpl.
  rewrite insert_app_r_alt by lia. rewrite Nat.sub_diag. reflexivity.
Qed.

Lemma stream_bits_snoc init b p :
  0 < p < 8 ->
  stream_bits (mkOStream (init ++ [b]) p)
  = concat (map (bits_of 8) init) ++ bits_of (Z.to_nat p) b.
Proof.
  intros Hp. unfold stream_bits, hasUnusedBits. simpl.
  destruct (Z.ltb_spec 0 p); [| lia]. destruct (Z.ltb_spec p 8); [| lia]. simpl.
  rewrite removelast_last, last_last. reflexivity.
Qed.

Lemma stream_bits_full buf p :
  ~ 0 < p < 8 ->
  stream_bits (mkOStream buf p) = concat (map (bits_of 8) buf).
Proof.
  intros Hp. unfold stream_bits, hasUnusedBits. simpl.
  destruct (Z.ltb_spec 0 p); destruct (Z.ltb_spec p 8); simpl; try reflexivity. lia.
Qed.

Lemma concat_bits_snoc init b :
  concat (map (bits_of 8) (init ++ [b]))
  = concat (map (bits_of 8) init) ++ bits_of 8 b.
Proof. rewrite map_app, concat_app. reflexivity. Qed.

(** The shape of a well-formed stream. *)
Lemma wf_cases os :
  wf os = true ->
  (hasUnusedBits os = false)
  \/ (exists init b, os = mkOStream (init ++ [b]) (pos os)
                     /\ 0 < pos os < 8 /\ 0 <= b < 2 ^ pos os).
Proof.
  unfold wf. destruct os as [buf p]. simpl.
  destruct (hasUnusedBits (mkOStream buf p)) eqn:Hu; simpl; [| left; reflexivity].
  intros Hw. right.
  destruct (last buf) as [b |] eqn:Hl; [| discriminate].
  apply last_Some in Hl. destruct Hl as [init ->].
  exists init, b. split; [reflexivity |].
  unfold hasUnusedBits in Hu. simpl in Hu. lia.
Qed.

Lemma wf_snoc init b p : 0 <= b < 2 ^ p -> wf (mkOStream (init ++ [b]) p) = true.
Proof.
  intros Hb. unfold wf. simpl. rewrite last_snoc.
  destruct (hasUnusedBits _); simpl; [| reflexivity]. lia.
Qed.

Lemma wf_full buf p : ~ 0 < p < 8 -> wf (mkOStream buf p) = true.
Proof.
  intros Hp. unfold wf, hasUnusedBits. simpl.
  destruct (Z.ltb_spec 0 p); destruct (Z.ltb_spec p 8); simpl; try reflexivity. lia.
Qed.

Lemma bits_of_to_byte v : bits_of 8 (to_byte v) = bits_of 8 v.
Proof.
  apply bits_of_ext. intros i Hi. rewrite to_byte_testbit.
  destruct (Z.ltb_spec i 8); [reflexivity | lia].
Qed.

Lemma filled_low b v p i :
  0 <= i < p ->
  Z.testbit (Z.lor b (to_byte (Z.shiftl v p))) i = Z.testbit b i.
Proof.
  intros Hi. rewrite Z.lor_spec, to_byte_testbit.
  destruct (i <? 8); [| apply orb_false_r].
  rewrite Z.shiftl_spec by lia.
  rewrite (Z.testbit_neg_r v (i - p)) by lia. apply orb_false_r.
Qed.

Lemma filled_high b v p i :
  0 <= p -> 0 <= b < 2 ^ p -> 0 <= i -> i + p < 8 ->
  Z.testbit (Z.lor b (to_byte (Z.shiftl v p))) (i + p) = Z.testbit v i.
Proof.
  intros Hp Hb Hi Hip. rewrite Z.lor_spec, to_byte_testbit.
  rewrite (testbit_above b p) by lia.
  destruct (Z.ltb_spec (i + p) 8); [| lia].
  rewrite Z.shiftl_spec by lia. simpl. f_equal. lia.
Qed.

Lemma WriteByte_bits v os :
  wf os = true -> 0 <= v < 256 ->
  exists os', WriteByte v os = Ok os' /\ wf os' = true
              /\ stream_bits os' = stream_bits os ++ bits_of 8 v.
Proof.
  intros Hw Hv. destruct (wf_cases os Hw) as [Hu | (init & b & Hos & Hp & Hb)].
  - unfold WriteByte. rewrite Hu. simpl. eexists. split; [reflexivity |].
    destruct os as [buf p]. unfold grow. simpl.
    split; [apply wf_full; lia |].
    rewrite stream_bits_full by lia. unfold stream_bits. rewrite Hu.
    apply concat_bits_snoc.
  - set (p := pos os) in *. rewrite Hos. unfold WriteByte.
    assert (Hu : hasUnusedBits (mkOStream (init ++ [b]) p) = true).
    { unfold hasUnusedBits. simpl. lia. }
    rewrite Hu. simpl. rewrite fillUnused_snoc. simpl. unfold grow. simpl.
    eexists. split; [reflexivity |].
    rewrite (to_int_small (8 - p)) by lia.
    rewrite (to_uint_small (8 - p)) by lia.
    rewrite (to_uint_small p) by lia.
    split.
    + apply wf_snoc. rewrite Z.shiftr_div_pow2 by lia. split.
      * apply Z.div_pos; [lia | apply Z.pow_pos_nonneg; lia].
      * apply Z.div_lt_upper_bound; [apply Z.pow_pos_nonneg; lia |].
        rewrite <- Z.pow_add_r by lia. replace (8 - p + p) with 8 by lia. lia.
    + rewrite !stream_bits_snoc by lia. rewrite concat_bits_snoc.
      rewrite <- !app_assoc. f_equal.
      assert (H8 : 8%nat = (Z.to_nat p + Z.to_nat (8 - p))%nat) by lia.
      assert (H8' : 8%nat = (Z.to_nat (8 - p) + Z.to_nat p)%nat) by lia.
      rewrite H8 at 1. rewrite bits_of_app.
      rewrite (bits_of_ext (Z.to_nat p) _ b)
        by (intros i Hi; apply filled_low; lia).
      rewrite <- app_assoc. f_equal.
      rewrite (bits_of_ext (Z.to_nat (8 - p)) _ v).
      2:{ intros i Hi. rewrite Z.shiftr_spec by lia. rewrite Z2Nat.id by lia.
          apply filled_high; lia. }
      rewrite H8'. rewrite bits_of_app. rewrite Z2Nat.id by lia. reflexivity.
Qed.

Lemma WriteBit_bits b os :
  wf os = true -> 0 <= b <= 1 ->
  exists os', WriteBit b os = Ok os' /\ wf os' = true
              /\ stream_bits os' = stream_bits os ++ [Z.testbit b 0].
Proof.
  intros Hw Hv.
  destruct (wf_cases os Hw) as [Hu | (init & c & Hos & Hp & Hc)].
  - unfold WriteBit. rewrite Hu. simpl. eexists. split; [reflexivity |].
    destruct os as [buf p]. unfold grow. simpl.
    rewrite (to_byte_small b) by lia.
    split; [apply wf_snoc; simpl; lia |].
    rewrite stream_bits_snoc by lia. unfold stream_bits. rewrite Hu.
    reflexivity.
  - set (p := pos os) in *. rewrite Hos. unfold WriteBit.
    assert (Hu : hasUnusedBits (mkOStream (init ++ [c]) p) = true).
    { unfold hasUnusedBits. simpl. lia. }
    rewrite Hu. simpl. rewrite fillUnused_snoc. simpl.
    eexists. split; [reflexivity |].
    rewrite (to_int_small (p + 1)) by lia.
    rewrite (to_uint_small p) by lia.
    set (c' := Z.lor c (to_byte (Z.shiftl (to_byte b) p))).
    assert (Hbits : bits_of (Z.to_nat p + 1) c'
                    = bits_of (Z.to_nat p) c ++ [Z.testbit b 0]).
    { rewrite bits_of_app. f_equal.
      - apply bits_of_ext. intros i Hi. apply filled_low. lia.
      - change (bits_of 1 (Z.shiftr c' (Z.of_nat (Z.to_nat p))))
          with [Z.testbit (Z.shiftr c' (Z.of_nat (Z.to_nat p))) 0].
        apply (f_equal (fun t => [t])).
        rewrite Z.shiftr_spec by lia.
        rewrite Z2Nat.id by lia.
        pose proof (filled_high c (to_byte b) p 0) as F.
        rewrite Z.add_0_l in F. rewrite (to_byte_small b) in F by lia.
        rewrite Z.add_0_l. unfold c'. rewrite (to_byte_small b) by lia.
        apply F; lia. }
    assert (Hc' : 0 <= c' < 2 ^ (p + 1)).
    { apply lor_below; [lia | |].
      - split; [lia |]. apply Z.lt_trans with (2 ^ p); [lia |].
        apply Z.pow_lt_mono_r; lia.
      - split; [apply to_byte_is_byte |].
        rewrite (to_byte_small b) by lia.
        rewrite Z.shiftl_mul_pow2 by lia.
        assert (0 < 2 ^ p) by (apply Z.pow_pos_nonneg; lia).
        assert (2 ^ (p + 1) = 2 * 2 ^ p)
          by (rewrite Z.pow_add_r by lia; change (2 ^ 1) with 2; lia).
        assert (to_byte (b * 2 ^ p) <= b * 2 ^ p).
        { unfold to_byte, wrap_u. apply Z.mod_le; nia. }
        nia. }
    destruct (Z.eq_dec (p + 1) 8) as [E8 | N8].
    + rewrite E8. split; [apply wf_full; lia |].
      rewrite stream_bits_full by lia. rewrite stream_bits_snoc by lia.
      rewrite concat_bits_snoc, <- app_assoc. f_equal.
      replace 8%nat with (Z.to_nat p + 1)%nat by lia. exact Hbits.
    + split; [apply wf_snoc; exact Hc' |].
      rewrite !stream_bits_snoc by lia. rewrite <- app_assoc. f_equal.
      replace (Z.to_nat (p + 1)) with (Z.to_nat p + 1)%nat by lia. exact Hbits.
Qed.

Lemma le_bytes_S k v :
  le_bytes (S k) v = to_byte v :: le_bytes k (Z.shiftr v 8).
Proof.
  unfold le_bytes. change (seq 0 (S k)) with (0%nat :: seq 1 k).
  rewrite <- seq_shift. rewrite map_cons, map_map. f_equal.
  apply map_ext. intros i. rewrite Z.shiftr_shiftr by lia. do 2 f_equal. lia.
Qed.

Lemma le_bits_S k v :
  le_bits (S k) v = Z.land v 1 :: le_bits k (Z.shiftr v 1).
Proof.
  unfold le_bits. change (seq 0 (S k)) with (0%nat :: seq 1 k).
  rewrite <- seq_shift. rewrite map_cons, map_map. f_equal.
  apply map_ext. intros i. rewrite Z.shiftr_shiftr by lia. do 2 f_equal. lia.
Qed.

Lemma land_1_range v : 0 <= Z.land v 1 <= 1.
Proof.
  assert (E : Z.land v 1 = v mod 2 ^ 1) by (apply (Z.land_ones v 1); lia).
  rewrite E. change (2 ^ 1) with 2. pose proof (Z.mod_pos_bound v 2). lia.
Qed.

Lemma land_1_testbit v : Z.testbit (Z.land v 1) 0 = Z.testbit v 0.
Proof. rewrite Z.land_spec. change (Z.testbit 1 0) with true. apply andb_true_r. Qed.

Lemma writeBitsBytes_S fuel v n os :
  writeBitsBytes (S fuel) v n os
  = if 8 <=? n then
      os1 <- WriteByte (to_byte v) os ;;
      writeBitsBytes fuel (Z.shiftr v 8) (to_int (n - 8)) os1
    else Ok (v, n, os).
Proof. reflexivity. Qed.

Lemma writeBitsRest_S fuel v n os :
  writeBitsRest (S fuel) v n os
  = if 0 <? n then
      os1 <- WriteBit (Z.land v 1) os ;;
      writeBitsRest fuel (Z.shiftr v 1) (to_int (n - 1)) os1
    else Ok os.
Proof. reflexivity. Qed.

(** The loop over whole bytes. *)
Lemma writeBitsBytes_run k :
  forall fuel v n os,
    wf os = true -> 0 <= n <= 64 -> Z.to_nat (n / 8) = k -> (k <= fuel)%nat ->
    exists os',
      writeBitsBytes fuel v n os = Ok (Z.shiftr v (8 * (n / 8)), n mod 8, os')
      /\ wf os' = true
      /\ stream_bits os' = stream_bits os ++ bits_of (8 * k) v
      /\ WriteBytes (le_bytes k v) os = Ok os'.
Proof.
  induction k as [| k IH]; intros fuel v n os Hw Hn Hk Hf.
  - assert (Hlt : n < 8) by (Z.div_mod_to_equations; lia).
    exists os. rewrite Z.div_small, Z.mod_small by lia.
    rewrite Z.mul_0_r, Z.shiftr_0_r, app_nil_r.
    repeat split; try assumption; try reflexivity.
    destruct fuel; simpl; destruct (Z.leb_spec 8 n); try lia; reflexivity.
  - assert (Hge : 8 <= n) by (Z.div_mod_to_equations; lia).
    destruct fuel as [| fuel]; [lia |].
    destruct (WriteByte_bits (to_byte v) os Hw (to_byte_is_byte v))
      as (os1 & Hw1 & Hwf1 & Hb1).
    assert (Hdiv : (n - 8) / 8 = n / 8 - 1) by (Z.div_mod_to_equations; lia).
    assert (Hmod : (n - 8) mod 8 = n mod 8) by (Z.div_mod_to_equations; lia).
    destruct (IH fuel (Z.shiftr v 8) (n - 8) os1 Hwf1) as (os2 & Hr & Hwf2 & Hb2 & Hs2);
      [lia | lia | lia |].
    exists os2. rewrite writeBitsBytes_S. destruct (Z.leb_spec 8 n); [| lia].
    rewrite Hw1. cbn [bind]. rewrite (to_int_small (n - 8)) by lia.
    rewrite Hr, Hdiv, Hmod. rewrite Z.shiftr_shiftr by lia.
    replace (8 + 8 * (n / 8 - 1)) with (8 * (n / 8)) by lia.
    repeat split; try assumption.
    + rewrite Hb2, Hb1, bits_of_to_byte, <- app_assoc. f_equal.
      replace (8 * S k)%nat with (8 + 8 * k)%nat by lia.
      rewrite bits_of_app. reflexivity.
    + rewrite le_bytes_S. cbn [WriteBytes]. rewrite Hw1. exact Hs2.
Qed.

(** The loop over the remaining bits. *)
Lemma writeBitsRest_run k :
  forall fuel v n os,
    wf os = true -> 0 <= n <= 64 -> Z.to_nat n = k -> (k <= fuel)%nat ->
    exists os',
      writeBitsRest fuel v n os = Ok os'
      /\ wf os' = true
      /\ stream_bits os' = stream_bits os ++ bits_of k v
      /\ WriteBitSeq (le_bits k v) os = Ok os'.
Proof.
  induction k as [| k IH]; intros fuel v n os Hw Hn Hk Hf.
  - exists os. rewrite app_nil_r.
    repeat split; try assumption; try reflexivity.
    destruct fuel; simpl; destruct (Z.ltb_spec 0 n); try lia; reflexivity.
  - destruct fuel as [| fuel]; [lia |].
    destruct (WriteBit_bits (Z.land v 1) os Hw (land_1_range v))
      as (os1 & Hw1 & Hwf1 & Hb1).
    destruct (IH fuel (Z.shiftr v 1) (n - 1) os1 Hwf1) as (os2 & Hr & Hwf2 & Hb2 & Hs2);
      [lia | lia | lia |].
    exists os2. rewrite writeBitsRest_S. destruct (Z.ltb_spec 0 n); [| lia].
    rewrite Hw1. cbn [bind]. rewrite (to_int_small (n - 1)) by lia.
    repeat split; try assumption.
    + rewrite Hb2, Hb1, land_1_testbit, <- app_assoc. f_equal.
      change (S k) with (1 + k)%nat. rewrite bits_of_app. reflexivity.
    + rewrite le_bits_S. cbn [WriteBitSeq]. rewrite Hw1. exact Hs2.
Qed.

Lemma length_concat_bits buf :
  length (concat (map (bits_of 8) buf)) = (8 * length buf)%nat.
Proof.
  induction buf as [| b buf IH]; [reflexivity |].
  rewrite map_cons. change (concat (?x :: ?l)) with (x ++ concat l).
  rewrite length_app, bits_of_length, IH. simpl. lia.
Qed.

Lemma bitLen_bits os : wf os = true -> bitLen os = Z.of_nat (length (stream_bits os)).
Proof.
  intros Hw. destruct (wf_cases os Hw) as [Hu | (init & b & Hos & Hp & Hb)].
  - unfold bitLen, stream_bits, len. rewrite Hu, length_concat_bits. lia.
  - set (p := pos os) in *. rewrite Hos.
    rewrite stream_bits_snoc by lia.
    unfold bitLen, hasUnusedBits, len. simpl.
    destruct (Z.ltb_spec 0 p); [| lia]. destruct (Z.ltb_spec p 8); [| lia]. simpl.
    rewrite !length_app, bits_of_length, length_concat_bits. simpl. lia.
Qed.

Lemma WriteBits_run v n os :
  wf os = true -> 1 <= n <= 64 ->
  exists os',
    WriteBits v n os = Ok os' /\ wf os' = true
    /\ stream_bits os' = stream_bits os ++ bits_of (Z.to_nat n) v
    /\ WriteBits_by_words v n os = Ok os'.
Proof.
  intros Hw Hn.
  destruct (writeBitsBytes_run (Z.to_nat (n / 8)) (Z.to_nat n) v n os Hw)
    as (os1 & Hr1 & Hwf1 & Hb1 & Hs1); [lia | reflexivity | |].
  { apply Z2Nat.inj_le; Z.div_mod_to_equations; lia. }
  assert (Hm : 0 <= n mod 8 < 8) by (apply Z.mod_pos_bound; lia).
  destruct (writeBitsRest_run (Z.to_nat (n mod 8)) (Z.to_nat n)
              (Z.shiftr v (8 * (n / 8))) (n mod 8) os1 Hwf1)
    as (os2 & Hr2 & Hwf2 & Hb2 & Hs2); [lia | reflexivity | |].
  { apply Z2Nat.inj_le; Z.div_mod_to_equations; lia. }
  exists os2. unfold WriteBits, WriteBits_by_words.
  destruct (Z.eqb_spec n 0); [lia |].
  destruct (Z.ltb_spec 64 n); [lia |].
  rewrite Hr1. simpl. rewrite Hr2, Hs1. simpl.
  repeat split; try assumption.
  rewrite Hb2, Hb1, <- app_assoc. f_equal.
  assert (Hsplit : Z.to_nat n = (8 * Z.to_nat (n / 8) + Z.to_nat (n mod 8))%nat).
  { Z.div_mod_to_equations. lia. }
  rewrite Hsplit, bits_of_app. do 3 f_equal.
  assert (0 <= n / 8) by (apply Z.div_pos; lia). lia.
Qed.

(** The streams the package builds are well formed. *)
Lemma wf_newOStream bytes cap_bytes : wf (newOStream bytes cap_bytes) = true.
Proof. unfold newOStream. destruct (cap_bytes =? 0); apply wf_full; lia. Qed.

Lemma wf_Reset os : wf (Reset os) = true.
Proof. apply wf_full. lia. Qed.

Lemma wf_WriteBytes bytes :
  forall os, wf os = true -> Forall is_byte bytes ->
             exists os', WriteBytes bytes os = Ok os' /\ wf os' = true.
Proof.
  induction bytes as [| b bytes IH]; intros os Hw Hb.
  - exists os. split; [reflexivity | exact Hw].
  - inversion Hb as [| ? ? Hb1 Hb2]; subst.
    destruct (WriteByte_bits b os Hw Hb1) as (os1 & Hr & Hw1 & _).
    destruct (IH os1 Hw1 Hb2) as (os2 & Hr2 & Hw2).
    exists os2. cbn [WriteBytes]. rewrite Hr. split; assumption.
Qed.



(** A bit count that is not positive passes both loops by. *)
Lemma WriteBits_nonpositive v n os : n <= 0 -> WriteBits v n os = Ok os.
Proof.
  intros Hn. unfold WriteBits. destruct (n =? 0); [reflexivity |].
  destruct (Z.ltb_spec 64 n) as [Hbig | _]; [lia |].
  assert (H8 : (8 <=? n) = false) by (apply Z.leb_gt; lia).
  assert (H0 : (0 <? n) = false) by (apply Z.ltb_ge; lia).
  destruct (Z.to_nat n) as [| k].
  - cbn [writeBitsBytes]. rewrite H8. cbn [bind writeBitsRest]. rewrite H0.
    reflexivity.
  - rewrite writeBitsBytes_S, H8. cbn [bind]. rewrite writeBitsRest_S, H0.
    reflexivity.
Qed.

(** C10, as the code has it.  On every stream, a bit count that is zero
    or negative leaves the stream as it is, and more than 64 bits are
    written as 64.  On a stream as the package builds it (a partly used
    last byte exists and is zero above [pos]), for [n] from 1 to 64 the
    call is the whole bytes of [v], lowest first, through [WriteByte] and
    then the remaining [n mod 8] bits, lowest first, through [WriteBit],
    and the stream then holds the [n] low bits of [v] after what it held;
    for every [n] the call returns and the number of bits of the stream
    grows by [min (max n 0) 64]. *)
Theorem WriteBits_appends_low_bits (v n : Z) (os : ostream) :
  (n <= 0 -> WriteBits v n os = Ok os)
  /\ (64 < n -> WriteBits v n os = WriteBits v 64 os)
  /\ (wf os = true -> 1 <= n <= 64 ->
      exists os',
        WriteBits v n os = Ok os' /\ wf os' = true
        /\ WriteBits_by_words v n os = Ok os'
        /\ stream_bits os' = stream_bits os ++ bits_of (Z.to_nat n) v)
  /\ (wf os = true ->
      exists os',
        WriteBits v n os = Ok os' /\ wf os' = true
        /\ bitLen os' = bitLen os + Z.min (Z.max n 0) 64).
Proof.
  assert (H64 : 64 < n -> WriteBits v n os = WriteBits v 64 os).
  { intros Hn. unfold WriteBits. destruct (Z.eqb_spec n 0); [lia |].
    destruct (Z.ltb_spec 64 n); [| lia]. reflexivity. }
  split; [apply WriteBits_nonpositive |]. split; [exact H64 |]. split.
  - intros Hw Hn. destruct (WriteBits_run v n os Hw Hn) as (os' & H1 & H2 & H3 & H4).
    exists os'. repeat split; assumption.
  - intros Hw. destruct (Z.le_gt_cases n 0) as [Hn0 | Hpos].
    + exists os. split; [apply WriteBits_nonpositive; exact Hn0 |].
      split; [exact Hw |]. rewrite Z.max_r by lia. rewrite Z.min_l by lia. lia.
    + assert (Hm : 1 <= Z.min n 64 <= 64) by lia.
      destruct (WriteBits_run v (Z.min n 64) os Hw Hm) as (os' & H1 & H2 & H3 & _).
      exists os'. split; [| split; [exact H2 |]].
      * destruct (Z.le_gt_cases n 64) as [Hle | Hgt].
        -- rewrite Z.min_l in H1 by lia. exact H1.
        -- rewrite H64 by lia. rewrite Z.min_r in H1 by lia. exact H1.
      * rewrite !bitLen_bits by assumption. rewrite H3, length_app, bits_of_length.
        rewrite Z.max_l by lia. lia.
Qed.

Lemma WriteBits_appends_low_bits_witness :
  wf (mkOStream [1] 1) = true /\ 1 <= 9 <= 64
  /\ (exists os',
        WriteBits 511 9 (mkOStream [1] 1) = Ok os'
        /\ stream_bits os' = stream_bits (mkOStream [1] 1) ++ bits_of (Z.to_nat 9) 511)
  /\ (exists os',
        WriteBits 511 9 (mkOStream [1] 1) = Ok os'
        /\ bitLen os' = bitLen (mkOStream [1] 1) + Z.min (Z.max 9 0) 64)
  /\ WriteBits 511 (-3) (mkOStream [1] 1) = Ok (mkOStream [1] 1).
Proof.
  assert (Hw : wf (mkOStream [1] 1) = true) by reflexivity.
  assert (Hn : 1 <= 9 <= 64) by lia.
  assert (Hneg : -3 <= 0) by lia.
  split; [exact Hw |]. split; [exact Hn |].
  destruct (WriteBits_appends_low_bits 511 9 (mkOStream [1] 1)) as (_ & _ & H3 & H4).
  destruct (H3 Hw Hn) as (os' & Hr & _ & _ & Hs).
  destruct (H4 Hw) as (os'' & Hr' & _ & Hl).
  split; [exists os'; split; assumption |].
  split; [exists os''; split; assumption |].
  exact (proj1 (WriteBits_appends_low_bits 511 (-3) (mkOStream [1] 1)) Hneg).
Defined.

(** The claim as it is worded fails in two places.  With the bit count
    -3 on the stream that one [WriteBit] made of the empty stream, the call
    returns with the stream as it was: its one bit stays one bit, where
    growing by [min n 64] would leave -2.  And a stream state with an empty
    buffer whose [pos] says three bits of the last byte are used, which the
    package never builds, makes [WriteBits] panic. *)
Lemma WriteBits_negative_count_writes_nothing :
  WriteBit 1 (newOStream [] 0) = Ok (mkOStream [1] 1)
  /\ WriteBits 255 (-3) (mkOStream [1] 1) = Ok (mkOStream [1] 1)
  /\ bitLen (mkOStream [1] 1) = 1
  /\ bitLen (mkOStream [1] 1) + Z.min (-3) 64 = -2
  /\ ~ (exists os',
          WriteBits 255 (-3) (mkOStream [1] 1) = Ok os'
          /\ bitLen os' = bitLen (mkOStream [1] 1) + Z.min (-3) 64)
  /\ wf (mkOStream [] 3) = false
  /\ WriteBits 1 1 (mkOStream [] 3) = Panic.
Proof.
  split; [reflexivity |]. split; [reflexivity |]. split; [reflexivity |].
  split; [reflexivity |]. split; [| split; reflexivity].
  intros (os' & Hr & Hl).
  assert (Hsame : WriteBits 255 (-3) (mkOStream [1] 1) = Ok (mkOStream [1] 1))
    by reflexivity.
  rewrite Hsame in Hr. injection Hr as <-.
  vm_compute in Hl. discriminate Hl.
Qed.

End TszFacts.

(** * Facts about methods *)

Lemma bindM_ok {E S A B} (m : M E S A) (k : A -> M E S B) s s' b :
  bindM m k s = (s', Ok b) ->
  exists s1 a, m s = (s1, Ok a) /\ k a s1 = (s', Ok b).
Proof.
  unfold bindM. destruct (m s) as [s1 [a | e | |]]; intros Hk; try discriminate.
  exists s1, a. split; [reflexivity | exact Hk].
Qed.

Lemma bindM_run {E S A B} (m : M E S A) (k : A -> M E S B) s s1 a :
  m s = (s1, Ok a) -> bindM m k s = k a s1.
Proof. intros Hm. unfold bindM. rewrite Hm. reflexivity. Qed.

(** * The block file set *)

Section FsFacts.
Import schema Fs.
Context `{Codec}.

(** ** Appends without payload *)

Lemma slen_nonneg {A} (s : list A) : 0 <= slen s.
Proof. unfold slen. lia. Qed.

Lemma payloadLen_nonneg ds : 0 <= payloadLen ds.
Proof.
  induction ds as [| d ds IH]; simpl; [lia |]. pose proof (slen_nonneg d). lia.
Qed.

Lemma totalSize_from acc ds :
  0 <= acc -> acc + payloadLen ds < 2 ^ 63 ->
  fold_left (fun size d => to_int (size + to_int (slen d))) ds acc
  = acc + payloadLen ds.
Proof.
  revert acc. induction ds as [| d ds IH]; intros acc Hacc Hlt; simpl in *; [lia |].
  pose proof (slen_nonneg d). pose proof (payloadLen_nonneg ds).
  rewrite (to_int_small (slen d)) by lia.
  rewrite (to_int_small (acc + slen d)) by lia.
  rewrite IH by lia. lia.
Qed.

Lemma totalSize_small ds : payloadLen ds < 2 ^ 63 -> totalSize ds = payloadLen ds.
Proof. intros Hlt. unfold totalSize. rewrite totalSize_from; lia. Qed.

Lemma WriteAll_noop (key : string) (ds : list (list Z)) (s : session) :
  payloadLen ds = 0 -> WriteAll key ds s = (s, Ok tt).
Proof.
  intros Hz. unfold WriteAll. rewrite totalSize_small by lia. rewrite Hz. reflexivity.
Qed.

(** C4.  An append whose payload has no byte returns nil and leaves the
    writer, with its record index and data offset, and the files as they
    were. *)
Theorem WriteAll_without_payload_is_noop (key : string) (ds : list (list Z)) (s : session) :
  payloadLen ds = 0 ->
  WriteAll key ds s = (s, Ok tt)
  /\ (forall d, ds = [d] -> Write key d s = (s, Ok tt)).
Proof.
  intros Hz. pose proof (WriteAll_noop key ds s Hz) as Hw.
  split; [exact Hw |]. intros d ->. exact Hw.
Qed.

(** ** Close *)

Lemma unique_split {A} (x : A) l1 l2 pre post :
  l1 ++ x :: l2 = pre ++ x :: post -> ~ In x l1 -> ~ In x l2 -> pre = l1.
Proof.
  revert pre. induction l1 as [| a l1 IH]; intros pre Heq H1 H2.
  - destruct pre as [| b pre]; [reflexivity |].
    simpl in Heq. injection Heq as <- Heq. exfalso. apply H2.
    rewrite Heq. apply in_or_app. right. left. reflexivity.
  - destruct pre as [| b pre].
    + simpl in Heq. injection Heq as -> Heq. exfalso. apply H1. left. reflexivity.
    + simpl in Heq. injection Heq as <- Heq. f_equal. apply IH.
      * exact Heq.
      * intros Hin. apply H1. right. exact Hin.
      * exact H2.
Qed.

Ltac next_call HC :=
  match type of HC with
  | context [match ?f with [] => _ | _ :: _ => _ end] =>
      destruct f as [| [? | ] ?]; simpl in HC
  end.

Ltac marshal_case HC :=
  match type of HC with
  | context [match marshalIndexInfo ?i with Ok _ => _ | _ => _ end] =>
      destruct (marshalIndexInfo i) eqn:?; simpl in HC
  end.

(** What [Close] did, by the call that failed, if one did. *)
Lemma Close_cases (w : writer) (o : world) s' r :
  Close (w, o) = (s', r) ->
  exists evs,
    trace (snd s') = trace o ++ evs
    /\ ((exists encoded tail,
            marshalIndexInfo (mkIndexInfo (start w) (to_int (blockSize w)) (currIdx w))
            = Ok encoded
            /\ evs = closeEvents w encoded ++ EvOpenWritable CheckpointFile :: tail
            /\ ~ In (EvOpenWritable CheckpointFile) tail
            /\ r = Ok tt)
        \/ (~ In (EvOpenWritable CheckpointFile) evs
            /\ checkpoint (snd s') = checkpoint o
            /\ r <> Ok tt)).
Proof.
  intros HC. destruct o as [fi fx fd fc t f].
  unfold Close, writeCheckpointFile, openWritable, closeFiles, on_os,
    sysTruncate, sysWrite, sysClose, sysOpenWritable, syscall, next_fault,
    bindM, the_writer, modify_w, modify, lift, ret, log in HC.
  simpl in HC.
  repeat (first [next_call HC | marshal_case HC]).
  all: injection HC as <- <-; simpl.
  all: rewrite <- ?app_assoc; simpl.
  all: first [ eexists; split; [reflexivity |]
             | exists []; split; [symmetry; apply app_nil_r |] ].
  all: first
    [ right; split; [| split; [reflexivity | discriminate]];
      simpl; intuition discriminate
    | left; eexists; eexists; split; [reflexivity |];
      split; [reflexivity |]; split; [| reflexivity];
      simpl; intuition discriminate ].
Qed.

Ltac run_calls HC :=
  lazy beta iota zeta delta
    [Close writeCheckpointFile openWritable closeFiles on_os sysTruncate
     sysWrite sysClose sysOpenWritable syscall next_fault bindM the_writer
     modify_w modify lift ret log replicate app fst snd faults trace info
     index data checkpoint set_content content] in HC.

Ltac marshal_case' HC :=
  match type of HC with
  | context [match marshalIndexInfo ?i with Ok _ => _ | _ => _ end] =>
      destruct (marshalIndexInfo i) eqn:?
  end.

(** The call that fails among the first five decides the result. *)
Lemma Close_returns_first_error (w : writer) (o : world) s' r (k : nat) e rest :
  Close (w, o) = (s', r) ->
  (k < 5)%nat ->
  faults o = replicate k None ++ Some e :: rest ->
  (k = 0%nat
   \/ is_ok (marshalIndexInfo (mkIndexInfo (start w) (to_int (blockSize w)) (currIdx w)))
      = true) ->
  r = Err e.
Proof.
  intros HC Hk Hf Hm. destruct o as [fi fx fd fc t f]. simpl in Hf. subst f.
  destruct k as [| [| [| [| [| k]]]]]; [.. | lia].
  all: run_calls HC; repeat (marshal_case' HC; run_calls HC).
  all: try (injection HC as <- <-; reflexivity).
  all: destruct Hm as [Hm | Hm]; try discriminate Hm.
  all: match goal with
       | Hr : marshalIndexInfo _ = _ |- _ => rewrite Hr in Hm; discriminate Hm
       end.
Qed.

Ltac run_Close :=
  lazy beta iota zeta delta
    [Close writeCheckpointFile openWritable closeFiles on_os sysTruncate
     sysWrite sysClose sysOpenWritable syscall next_fault bindM the_writer
     modify_w modify lift ret log fst snd faults trace info
     index data checkpoint set_content content].

(** When the header is marshaled and none of the first six system calls
    fails, [Close] returns nil and has made the checkpoint. *)
Lemma Close_without_failure (w : writer) (o : world) (encoded : list Z) :
  marshalIndexInfo (mkIndexInfo (start w) (to_int (blockSize w)) (currIdx w))
  = Ok encoded ->
  Forall (fun a => a = None) (take 6 (faults o)) ->
  exists s' tail,
    Close (w, o) = (s', Ok tt)
    /\ trace (snd s')
       = trace o ++ closeEvents w encoded ++ EvOpenWritable CheckpointFile :: tail
    /\ tail = match faults o !! 6%nat with
              | Some (Some _) => []
              | _ => [EvClose CheckpointFile]
              end
    /\ content CheckpointFile (snd s') = Some []
    /\ content InfoFile (snd s') = Some (infoBuffer w ++ encoded)
    /\ content IndexFile (snd s') = content IndexFile o
    /\ content DataFile (snd s') = content DataFile o.
Proof.
  intros Hm Hquiet. destruct o as [fi fx fd fc t f]. cbn [faults] in Hquiet.
  assert (Hhead : forall (a : option error) l,
             Forall (fun a => a = None) (a :: l) -> a = None /\ Forall (fun a => a = None) l).
  { intros a l Hall. apply Forall_cons in Hall. exact Hall. }
  repeat match goal with
         | Hq : Forall _ (take _ ?l) |- _ =>
             destruct l as [| ? ?]; cbn [take] in Hq;
             [clear Hq | apply Hhead in Hq; destruct Hq as [-> Hq]]
         end.
  all: try match goal with
           | |- context [Close (_, mkWorld _ _ _ _ _ (None :: None :: None :: None
                                  :: None :: None :: ?l))] =>
               destruct l as [| [e |] l']
           end.
  all: eexists; eexists; split;
    [run_Close; rewrite Hm; run_Close; reflexivity |].
  all: cbn [snd trace content checkpoint info index data closeEvents].
  all: split; [rewrite <- !app_assoc; cbn [app]; reflexivity |].
  all: repeat split; reflexivity.
Qed.

(** C5.  When the header is marshaled and neither the truncation, the
    write of the header, the three closes nor the open of the checkpoint
    fails, [Close] returns nil and the system calls it made are, in this
    order, the truncation of the info file, the write of the header
    [{start, window, entries = currIdx}], the closes of the info, index and
    data descriptors, and then the open of the checkpoint, which leaves it
    empty, and its close.  Whenever a checkpoint was opened, exactly these five calls came
    before it; [Close] returns nil only if it opened the checkpoint; when
    [Close] returns an error no checkpoint was made; and when the
    truncation, the write of the header or one of the three closes fails,
    [Close] returns the error of that call. *)
Theorem Close_makes_checkpoint_last (w : writer) (o : world) s' r :
  Close (w, o) = (s', r) ->
  exists evs,
    trace (snd s') = trace o ++ evs
    /\ (forall encoded,
           marshalIndexInfo (mkIndexInfo (start w) (to_int (blockSize w)) (currIdx w))
           = Ok encoded ->
           Forall (fun a => a = None) (take 6 (faults o)) ->
           r = Ok tt
           /\ evs = closeEvents w encoded
                    ++ EvOpenWritable CheckpointFile
                       :: match faults o !! 6%nat with
                          | Some (Some _) => []
                          | _ => [EvClose CheckpointFile]
                          end
           /\ content CheckpointFile (snd s') = Some []
           /\ content InfoFile (snd s') = Some (infoBuffer w ++ encoded))
    /\ (r = Ok tt ->
        exists encoded tail,
          marshalIndexInfo (mkIndexInfo (start w) (to_int (blockSize w)) (currIdx w))
          = Ok encoded
          /\ evs = closeEvents w encoded ++ EvOpenWritable CheckpointFile :: tail
          /\ ~ In (EvOpenWritable CheckpointFile) tail)
    /\ (forall pre post,
           evs = pre ++ EvOpenWritable CheckpointFile :: post ->
           exists encoded,
             marshalIndexInfo (mkIndexInfo (start w) (to_int (blockSize w)) (currIdx w))
             = Ok encoded
             /\ pre = closeEvents w encoded)
    /\ (forall e, r = Err e ->
           ~ In (EvOpenWritable CheckpointFile) evs
           /\ checkpoint (snd s') = checkpoint o)
    /\ (forall (k : nat) e rest,
           (k < 5)%nat ->
           faults o = replicate k None ++ Some e :: rest ->
           (k = 0%nat
            \/ is_ok (marshalIndexInfo
                        (mkIndexInfo (start w) (to_int (blockSize w)) (currIdx w)))
               = true) ->
           r = Err e).
Proof.
  intros HC.
  destruct (Close_cases w o s' r HC) as (evs & Htr & Hcases).
  exists evs. split; [exact Htr |]. split; [| split; [| split; [| split]]].
  - intros encoded Hm Hquiet.
    destruct (Close_without_failure w o encoded Hm Hquiet)
      as (s'' & tail & Hrun & Htrace & Htail & Hck & Hinfo & _).
    rewrite Hrun in HC. injection HC as <- <-.
    split; [reflexivity |]. split; [| split; assumption].
    rewrite Htrace in Htr. apply app_inv_head in Htr. rewrite <- Htr, Htail.
    reflexivity.
  - intros Hok.
    destruct Hcases as [(encoded & tail & Hm & Hevs & Htail & _) | (_ & _ & Hno)].
    + exists encoded, tail. repeat split; assumption.
    + contradiction.
  - intros pre post Heq.
    destruct Hcases as [(encoded & tail & Hm & Hevs & Htail & _) | (Hno & _)].
    + exists encoded. split; [exact Hm |].
      rewrite Hevs in Heq. apply (unique_split _ _ _ _ _ Heq).
      * unfold closeEvents. simpl. intuition discriminate.
      * exact Htail.
    + exfalso. apply Hno. rewrite Heq. apply in_or_app. right. left. reflexivity.
  - intros e Hr.
    destruct Hcases as [(_ & _ & _ & _ & _ & Hok) | (Hno & Hck & _)].
    + rewrite Hok in Hr. discriminate Hr.
    + split; assumption.
  - intros k e rest Hk Hf Hm. exact (Close_returns_first_error w o s' r k e rest HC Hk Hf Hm).
Qed.

(** ** Read *)

Lemma slice_to_ok {E A} (s : list A) hi :
  0 <= hi <= slen s -> slice_to (E := E) s hi = Ok (take (Z.to_nat hi) s).
Proof.
  intros Hh. unfold slice_to.
  destruct (Z.leb_spec 0 hi); [| lia]. destruct (Z.leb_spec hi (slen s)); [| lia].
  reflexivity.
Qed.

Lemma slice_from_ok {E A} (s : list A) lo :
  0 <= lo <= slen s -> slice_from (E := E) s lo = Ok (drop (Z.to_nat lo) s).
Proof.
  intros Hh. unfold slice_from.
  destruct (Z.leb_spec 0 lo); [| lia]. destruct (Z.leb_spec lo (slen s)); [| lia].
  reflexivity.
Qed.

Lemma slice_range_ok {E A} (s : list A) lo hi :
  0 <= lo <= hi -> hi <= slen s ->
  slice_range (E := E) s lo hi = Ok (take (Z.to_nat (hi - lo)) (drop (Z.to_nat lo) s)).
Proof.
  intros Hl Hh. unfold slice_range.
  destruct (Z.leb_spec 0 lo); [| lia]. destruct (Z.leb_spec lo hi); [| lia].
  destruct (Z.leb_spec hi (slen s)); [| lia]. reflexivity.
Qed.

Lemma make_bytes_ok {E} n :
  0 <= n -> make_bytes (E := E) n = Ok (replicate (Z.to_nat n) 0).
Proof. intros Hn. unfold make_bytes. destruct (Z.leb_spec 0 n); [reflexivity | lia]. Qed.

Lemma slen_overlay buf stored_bytes : slen (overlay buf stored_bytes) = slen buf.
Proof.
  unfold slen, overlay. f_equal. rewrite length_take, length_app, length_drop. lia.
Qed.

Lemma markerLen_nonneg : 0 <= markerLen.
Proof. unfold markerLen, slen. lia. Qed.


(** ** Appends *)

Lemma advanced_refl s : advanced s s 0 0 [] [].
Proof. unfold advanced. rewrite !app_nil_r. repeat split; lia. Qed.

Lemma advanced_trans s1 s2 s3 a b c d a' b' c' d' :
  advanced s1 s2 a b c d -> advanced s2 s3 a' b' c' d' ->
  advanced s1 s3 (a + a') (b + b') (c ++ c') (d ++ d').
Proof.
  unfold advanced. intros (H1 & H2 & H3 & H4) (K1 & K2 & K3 & K4).
  rewrite K1, K2, K3, K4, H1, H2, H3, H4, !app_assoc. repeat split; lia.
Qed.

Lemma next_fault_content g o : content g (snd (next_fault o)) = content g o.
Proof. unfold next_fault. destruct (faults o); destruct g; reflexivity. Qed.

Lemma sysWrite_ok f b o o' n :
  sysWrite f b o = (o', Ok n) ->
  n = slen b
  /\ bytes_of_file f o' = bytes_of_file f o ++ b
  /\ (forall g, g <> f -> content g o' = content g o).
Proof.
  unfold sysWrite, bindM, syscall, ret, bytes_of_file.
  pose proof (fun g => next_fault_content g o) as Hnf.
  destruct (next_fault o) as [[e |] o1]; simpl in Hnf; intros Heq; [discriminate |].
  injection Heq as <- <-. split; [reflexivity |]. split.
  - rewrite <- (Hnf f). destruct f; reflexivity.
  - intros g Hg. rewrite <- (Hnf g). destruct f, g; try reflexivity; congruence.
Qed.

Lemma writeData_ok b s s' :
  writeData b s = (s', Ok tt) ->
  0 <= currOffset (fst s) -> currOffset (fst s) + slen b < 2 ^ 63 ->
  advanced s s' 0 (slen b) b [].
Proof.
  intros Hw H0 Hlt. pose proof (slen_nonneg b) as Hb. unfold writeData in Hw.
  destruct (Z.eqb_spec (slen b) 0) as [Hz | Hnz].
  - injection Hw as <-. rewrite Hz.
    assert (b = []) as -> by (destruct b; [reflexivity | unfold slen in Hz; simpl in Hz; lia]).
    apply advanced_refl.
  - apply bindM_ok in Hw. destruct Hw as (s1 & written & Hsys & Hw).
    apply bindM_ok in Hw. destruct Hw as (s2 & w & Hthe & Hw).
    unfold the_writer in Hthe. injection Hthe as <- <-.
    unfold modify_w, modify in Hw. injection Hw as <-.
    unfold on_os in Hsys. destruct (sysWrite DataFile b (snd s)) as [o1 a] eqn:Hs.
    injection Hsys as <- ->.
    destruct (sysWrite_ok _ _ _ _ _ Hs) as (-> & Hd & Hother).
    assert (Hi : bytes_of_file IndexFile o1 = bytes_of_file IndexFile (snd s)).
    { unfold bytes_of_file. rewrite (Hother IndexFile) by discriminate. reflexivity. }
    unfold advanced. cbn [fst snd]. rewrite Hi, Hd, app_nil_r.
    destruct s as [w o]. simpl in *.
    rewrite (to_int_small (slen b)) by lia.
    rewrite to_int_small by lia.
    repeat split; lia.
Qed.

Lemma writeDataEach_ok ds :
  forall s s',
    writeDataEach ds s = (s', Ok tt) ->
    0 <= currOffset (fst s) -> currOffset (fst s) + payloadLen ds < 2 ^ 63 ->
    advanced s s' 0 (payloadLen ds) (concat ds) [].
Proof.
  induction ds as [| d ds IH]; intros s s' Hw H0 Hlt.
  - injection Hw as <-. apply advanced_refl.
  - cbn [writeDataEach] in Hw. apply bindM_ok in Hw.
    destruct Hw as (s1 & [] & Hd & Hrest).
    pose proof (slen_nonneg d). pose proof (payloadLen_nonneg ds).
    simpl in Hlt.
    pose proof (writeData_ok d s s1 Hd H0 ltac:(lia)) as A1.
    assert (Hoff : currOffset (fst s1) = currOffset (fst s) + slen d) by apply A1.
    pose proof (IH s1 s' Hrest ltac:(lia) ltac:(lia)) as A2.
    pose proof (advanced_trans _ _ _ _ _ _ _ _ _ _ _ A1 A2) as A.
    simpl in A. exact A.
Qed.

Lemma on_os_sysWrite_index_ok v s s' n :
  on_os (sysWrite IndexFile v) s = (s', Ok n) -> advanced s s' 0 0 [] v.
Proof.
  unfold on_os. destruct (sysWrite IndexFile v (snd s)) as [o1 a] eqn:Hs.
  intros Heq. injection Heq as <- ->.
  destruct (sysWrite_ok _ _ _ _ _ Hs) as (_ & Hd & Hother).
  assert (Hi : bytes_of_file DataFile o1 = bytes_of_file DataFile (snd s)).
  { unfold bytes_of_file. rewrite (Hother DataFile) by discriminate. reflexivity. }
  unfold advanced. cbn [fst snd]. rewrite Hi, Hd, app_nil_r.
  repeat split; lia.
Qed.

Lemma modify_w_ok f s s' a di do' :
  modify_w f s = (s', Ok a) ->
  currIdx (f (fst s)) = currIdx (fst s) + di ->
  currOffset (f (fst s)) = currOffset (fst s) + do' ->
  advanced s s' di do' [] [].
Proof.
  unfold modify_w, modify. intros Heq Hi Ho. injection Heq as <-.
  unfold advanced. simpl. rewrite !app_nil_r. repeat split; assumption.
Qed.

Lemma length_be_put_uint64 v : slen (be_put_uint64 v) = 8.
Proof. reflexivity. Qed.

Ltac peel H s a Hn :=
  apply bindM_ok in H; destruct H as (s & a & Hn & H).

Ltac quiet_step A Hn :=
  apply (modify_w_ok _ _ _ _ 0 0) in Hn; [| simpl; lia | simpl; lia];
  pose proof (advanced_trans _ _ _ _ _ _ _ _ _ _ _ A Hn) as A'; clear A Hn;
  rename A' into A.

(** One append with a payload. *)
Lemma WriteAll_ok key ds s s' :
  WriteAll key ds s = (s', Ok tt) ->
  payloadLen ds <> 0 ->
  0 <= currIdx (fst s) < 2 ^ 63 - 1 ->
  0 <= currOffset (fst s) ->
  currOffset (fst s) + frameLen ds < 2 ^ 63 ->
  exists rec,
    indexRecord (mkIndexEntry (currIdx (fst s)) (payloadLen ds) (currOffset (fst s)) key)
    = Ok rec
    /\ advanced s s' 1 (frameLen ds) (dataRecord (currIdx (fst s)) ds) rec.
Proof.
  intros Hw Hnz Hidx Hoff Hlt.
  pose proof markerLen_nonneg as Hml. pose proof (payloadLen_nonneg ds) as Hpl.
  assert (Hi8 : idxLen = 8) by reflexivity.
  unfold frameLen in Hlt.
  unfold WriteAll in Hw. rewrite totalSize_small in Hw by lia.
  destruct (Z.eqb_spec (payloadLen ds) 0) as [| _]; [contradiction |].
  pose proof (advanced_refl s) as A.
  peel Hw s1 w H1. unfold the_writer in H1. injection H1 as <- <-.
  peel Hw s1 u1 H1. quiet_step A H1.
  peel Hw s2 u2 H2. quiet_step A H2.
  peel Hw s3 entryBytes H3. unfold lift in H3. injection H3 as <- Hmarshal.
  peel Hw s4 u4 H4. quiet_step A H4.
  peel Hw s5 u5 H5. quiet_step A H5.
  peel Hw s6 varint H6. unfold lift in H6. injection H6 as <- Hvarint.
  peel Hw s7 u7 H7. quiet_step A H7.
  assert (Ho7 : currOffset (fst s7) = currOffset (fst s)) by (destruct A as (_ & -> & _); lia).
  peel Hw s8 u8 H8. destruct u8.
  apply writeData_ok in H8; [| lia | fold markerLen; lia].
  pose proof (advanced_trans _ _ _ _ _ _ _ _ _ _ _ A H8) as A'; clear A H8; rename A' into A.
  peel Hw s9 u9 H9. quiet_step A H9.
  assert (Ho9 : currOffset (fst s9) = currOffset (fst s) + markerLen)
    by (destruct A as (_ & -> & _); unfold markerLen; lia).
  peel Hw s10 u10 H10. destruct u10.
  apply writeData_ok in H10; [| lia | rewrite length_be_put_uint64; lia].
  pose proof (advanced_trans _ _ _ _ _ _ _ _ _ _ _ A H10) as A'; clear A H10; rename A' into A.
  assert (Ho10 : currOffset (fst s10) = currOffset (fst s) + markerLen + 8).
  { destruct A as (_ & -> & _). rewrite length_be_put_uint64. unfold markerLen. lia. }
  peel Hw s11 u11 H11. destruct u11.
  apply writeDataEach_ok in H11; [| lia | lia].
  pose proof (advanced_trans _ _ _ _ _ _ _ _ _ _ _ A H11) as A'; clear A H11; rename A' into A.
  peel Hw s12 u12 H12. apply on_os_sysWrite_index_ok in H12.
  pose proof (advanced_trans _ _ _ _ _ _ _ _ _ _ _ A H12) as A'; clear A H12; rename A' into A.
  peel Hw s13 u13 H13. apply on_os_sysWrite_index_ok in H13.
  pose proof (advanced_trans _ _ _ _ _ _ _ _ _ _ _ A H13) as A'; clear A H13; rename A' into A.
  peel Hw s14 w14 H14. unfold the_writer in H14. injection H14 as <- <-.
  assert (Hi13 : currIdx (fst s13) = currIdx (fst s)) by (destruct A as (-> & _); lia).
  apply (modify_w_ok _ _ _ _ 1 0) in Hw;
    [| simpl; rewrite to_int_small by lia; lia | simpl; lia].
  pose proof (advanced_trans _ _ _ _ _ _ _ _ _ _ _ A Hw) as A'; clear A Hw; rename A' into A.
  exists (varint ++ entryBytes). split.
  - unfold indexRecord. rewrite Hmarshal. cbn [bind]. rewrite Hvarint. reflexivity.
  - unfold advanced in *. destruct A as (A1 & A2 & A3 & A4).
    rewrite A1, A2, A3, A4. rewrite length_be_put_uint64.
    rewrite (to_uint_small (currIdx (fst s))) by lia.
    unfold frameLen, dataRecord, markerLen.
    rewrite ?app_nil_r, <- ?app_assoc. simpl.
    repeat split; try lia; reflexivity.
Qed.

Lemma frameLen_pos ds : 8 <= frameLen ds.
Proof.
  unfold frameLen. pose proof markerLen_nonneg. pose proof (payloadLen_nonneg ds).
  change idxLen with 8. lia.
Qed.

Lemma framesLen_length recs : Z.of_nat (length recs) <= framesLen recs.
Proof.
  induction recs as [| [key ds] recs IH]; simpl; [lia |].
  pose proof (frameLen_pos ds). lia.
Qed.

Lemma withPayload_cons_zero key ds appends :
  payloadLen ds = 0 -> withPayload ((key, ds) :: appends) = withPayload appends.
Proof.
  intros Hz. unfold withPayload. rewrite filter_cons. simpl.
  destruct (decide (payloadLen ds <> 0)); [contradiction | reflexivity].
Qed.

Lemma withPayload_cons_payload key ds appends :
  payloadLen ds <> 0 ->
  withPayload ((key, ds) :: appends) = (key, ds) :: withPayload appends.
Proof.
  intros Hz. unfold withPayload. rewrite filter_cons. simpl.
  destruct (decide (payloadLen ds <> 0)); [reflexivity | contradiction].
Qed.

(** A run of appends that all return nil. *)
Lemma WriteEach_ok appends :
  forall s s',
    WriteEach appends s = (s', Ok tt) ->
    0 <= currIdx (fst s) -> 0 <= currOffset (fst s) ->
    currIdx (fst s) + framesLen (withPayload appends) < 2 ^ 63 ->
    currOffset (fst s) + framesLen (withPayload appends) < 2 ^ 63 ->
    exists bytes,
      indexRecords
        (entriesFrom (currIdx (fst s)) (currOffset (fst s)) (withPayload appends))
      = Ok bytes
      /\ advanced s s' (Z.of_nat (length (withPayload appends)))
           (framesLen (withPayload appends))
           (dataRecordsFrom (currIdx (fst s)) (withPayload appends)) bytes.
Proof.
  induction appends as [| [key ds] appends IH]; intros s s' Hw Hi Ho Hil Hol.
  - injection Hw as <-. exists []. split; [reflexivity | apply advanced_refl].
  - cbn [WriteEach] in Hw. peel Hw s1 u1 H1. destruct u1.
    destruct (Z.eq_dec (payloadLen ds) 0) as [Hz | Hnz].
    + rewrite withPayload_cons_zero in * by exact Hz.
      rewrite (WriteAll_noop key ds s Hz) in H1. injection H1 as <-.
      apply IH; assumption.
    + rewrite withPayload_cons_payload in * by exact Hnz.
      cbn [framesLen foldr snd] in Hil, Hol.
      fold (framesLen (withPayload appends)) in Hil, Hol.
      pose proof (framesLen_length (withPayload appends)) as Hfl.
      pose proof (frameLen_pos ds) as Hfp.
      destruct (WriteAll_ok key ds s s1 H1 Hnz) as (rec & Hrec & A1); [lia | lia | lia |].
      assert (Hi1 : currIdx (fst s1) = currIdx (fst s) + 1) by apply A1.
      assert (Ho1 : currOffset (fst s1) = currOffset (fst s) + frameLen ds) by apply A1.
      destruct (IH s1 s' Hw) as (bytes & Hbytes & A2); [lia | lia | lia | lia |].
      exists (rec ++ bytes). split.
      * cbn [entriesFrom indexRecords]. rewrite Hrec. cbn [bind].
        rewrite <- Hi1, <- Ho1, Hbytes. reflexivity.
      * pose proof (advanced_trans _ _ _ _ _ _ _ _ _ _ _ A1 A2) as A.
        rewrite Hi1 in A. cbn [length dataRecordsFrom framesLen foldr snd].
        fold (framesLen (withPayload appends)).
        replace (Z.of_nat (S (length (withPayload appends))))
          with (1 + Z.of_nat (length (withPayload appends))) by lia.
        exact A.
Qed.

Lemma length_entriesFrom recs : forall idx off, length (entriesFrom idx off recs) = length recs.
Proof.
  induction recs as [| [key ds] recs IH]; intros idx off; simpl; [reflexivity |].
  rewrite IH. reflexivity.
Qed.

Lemma slen_dataRecordsFrom recs : forall idx, slen (dataRecordsFrom idx recs) = framesLen recs.
Proof.
  induction recs as [| [key ds] recs IH]; intros idx; [reflexivity |].
  cbn [dataRecordsFrom framesLen foldr snd]. fold (framesLen recs).
  unfold slen in *. rewrite length_app, Nat2Z.inj_add, IH.
  unfold dataRecord, frameLen, markerLen, slen.
  rewrite !length_app, !Nat2Z.inj_add.
  change (Z.of_nat (length (be_put_uint64 idx))) with idxLen.
  assert (Hc : Z.of_nat (length (concat ds)) = payloadLen ds).
  { clear. induction ds as [| d ds IHd]; [reflexivity |].
    simpl. rewrite length_app, Nat2Z.inj_add, IHd. reflexivity. }
  rewrite Hc. lia.
Qed.

Lemma entriesFrom_lookup recs :
  forall idx off (i : nat) e,
    entriesFrom idx off recs !! i = Some e ->
    exists key ds,
      recs !! i = Some (key, ds)
      /\ Idx e = idx + Z.of_nat i
      /\ Size e = payloadLen ds
      /\ Key e = key
      /\ Offset e = off + framesLen (take i recs).
Proof.
  induction recs as [| [key ds] recs IH]; intros idx off i e He; [discriminate |].
  destruct i as [| i].
  - injection He as <-. exists key, ds. simpl. repeat split; lia.
  - cbn [entriesFrom] in He. rewrite lookup_cons_ne_0 in He by lia.
    replace (Nat.pred (S i)) with i in He by reflexivity.
    destruct (IH _ _ _ _ He) as (key' & ds' & Hl & H1 & H2 & H3 & H4).
    exists key', ds'. repeat split; try assumption; try lia.
    rewrite H4. cbn [take framesLen foldr snd]. fold (framesLen (take i recs)). lia.
Qed.

(** The first block of a new writer.  After appends that all returned nil
    on a writer that [NewWriter] made and that was not used before, the index
    file holds, after what it held, one entry for each append with a
    payload, in order; entry [i] has idx [i], the length of payload [i] as
    its size, and as its offset the bytes of the data file written before
    record [i], the sum of [markerLen + 8 + size] over the records before
    it. *)
Theorem index_entries_of_appends (blockSize : Z) (o : world)
    (appends : list (string * list (list Z))) (s' : session) :
  WriteEach appends (NewWriter blockSize, o) = (s', Ok tt) ->
  framesLen (withPayload appends) < 2 ^ 63 ->
  (exists bytes,
      indexRecords (entriesFrom 0 0 (withPayload appends)) = Ok bytes
      /\ bytes_of_file IndexFile (snd s') = bytes_of_file IndexFile o ++ bytes)
  /\ bytes_of_file DataFile (snd s')
     = bytes_of_file DataFile o ++ dataRecordsFrom 0 (withPayload appends)
  /\ length (entriesFrom 0 0 (withPayload appends)) = length (withPayload appends)
  /\ (forall (i : nat) e,
         entriesFrom 0 0 (withPayload appends) !! i = Some e ->
         exists key ds,
           withPayload appends !! i = Some (key, ds)
           /\ Idx e = Z.of_nat i
           /\ Size e = payloadLen ds
           /\ Key e = key
           /\ Offset e = framesLen (take i (withPayload appends))
           /\ Offset e = slen (dataRecordsFrom 0 (take i (withPayload appends)))).
Proof.
  intros Hw Hlt.
  destruct (WriteEach_ok appends _ _ Hw) as (bytes & Hb & A); simpl; try lia.
  destruct A as (_ & _ & Ad & Ai). simpl in *.
  split; [exists bytes; split; assumption |].
  split; [exact Ad |]. split; [apply length_entriesFrom |].
  intros i e He.
  destruct (entriesFrom_lookup _ _ _ _ _ He) as (key & ds & Hl & H1 & H2 & H3 & H4).
  exists key, ds. rewrite slen_dataRecordsFrom. repeat split; try assumption; lia.
Qed.

End FsFacts.

(** ** The theorems at work on small inputs *)

Section FsRuns.
Import schema Fs Examples.
Local Existing Instance smallCodec.

Lemma WriteAll_without_payload_is_noop_witness :
  payloadLen [[]; []] = 0
  /\ WriteAll "k" [[]; []] (NewWriter 10, quietWorld) = (NewWriter 10, quietWorld, Ok tt).
Proof.
  split; [reflexivity |].
  exact (proj1 (WriteAll_without_payload_is_noop "k" [[]; []]
                  (NewWriter 10, quietWorld) eq_refl)).
Defined.

Lemma Close_makes_checkpoint_last_witness :
  Close (NewWriter 10, quietWorld)
  = (fst (Close (NewWriter 10, quietWorld)), Ok tt)
  /\ marshalIndexInfo (mkIndexInfo 0 (to_int 10) 0) = Ok [0; 10; 0]
  /\ Forall (fun a => a = None) (take 6 (faults quietWorld))
  /\ trace (snd (fst (Close (NewWriter 10, quietWorld))))
     = [EvTruncate InfoFile; EvWrite InfoFile [0; 10; 0]; EvClose InfoFile;
        EvClose IndexFile; EvClose DataFile; EvOpenWritable CheckpointFile;
        EvClose CheckpointFile]
  /\ (exists evs,
         trace (snd (fst (Close (NewWriter 10, quietWorld)))) = [] ++ evs
         /\ evs = closeEvents (NewWriter 10) [0; 10; 0]
                  ++ [EvOpenWritable CheckpointFile; EvClose CheckpointFile])
  /\ content CheckpointFile (snd (fst (Close (NewWriter 10, quietWorld)))) = Some []
  /\ content InfoFile (snd (fst (Close (NewWriter 10, quietWorld)))) = Some [0; 10; 0].
Proof.
  assert (HC : Close (NewWriter 10, quietWorld)
               = (fst (Close (NewWriter 10, quietWorld)), Ok tt))
    by (vm_compute; reflexivity).
  assert (Hm : marshalIndexInfo (mkIndexInfo (start (NewWriter 10))
                                   (to_int (blockSize (NewWriter 10)))
                                   (currIdx (NewWriter 10))) = Ok [0; 10; 0])
    by reflexivity.
  assert (Hq : Forall (fun a => a = None) (take 6 (faults quietWorld)))
    by constructor.
  split; [exact HC |]. split; [exact Hm |]. split; [exact Hq |].
  split; [vm_compute; reflexivity |].
  destruct (Close_makes_checkpoint_last (NewWriter 10) quietWorld _ _ HC)
    as (evs & Htr & Hgood & _).
  destruct (Hgood [0; 10; 0] Hm Hq) as (_ & Hevs & Hck & Hinfo).
  split; [exists evs; split; [exact Htr | exact Hevs] |].
  split; [exact Hck | exact Hinfo].
Defined.



Lemma index_entries_of_appends_witness :
  WriteEach threeAppends (NewWriter 10, quietWorld)
  = (fst (WriteEach threeAppends (NewWriter 10, quietWorld)), Ok tt)
  /\ framesLen (withPayload threeAppends) < 2 ^ 63
  /\ bytes_of_file DataFile (snd (fst (WriteEach threeAppends (NewWriter 10, quietWorld))))
     = frame0 ++ [222; 173; 190; 239; 0; 0; 0; 0; 0; 0; 0; 1; 4; 5]
  /\ exists key ds,
       withPayload threeAppends !! 1%nat = Some (key, ds)
       /\ Idx (mkIndexEntry 1 2 15 "c") = 1
       /\ Size (mkIndexEntry 1 2 15 "c") = payloadLen ds.
Proof.
  assert (Hlt : framesLen (withPayload threeAppends) < 2 ^ 63) by (vm_compute; reflexivity).
  assert (HW : WriteEach threeAppends (NewWriter 10, quietWorld)
               = (fst (WriteEach threeAppends (NewWriter 10, quietWorld)), Ok tt))
    by (vm_compute; reflexivity).
  split; [exact HW |]. split; [exact Hlt |].
  destruct (index_entries_of_appends 10 quietWorld threeAppends _ HW Hlt)
    as (_ & Hd & _ & He).
  split; [rewrite Hd; reflexivity |].
  destruct (He 1%nat (mkIndexEntry 1 2 15 "c") eq_refl)
    as (key & ds & Hl & Hi & Hs & _).
  exists key, ds. repeat split; assumption.
Defined.

End FsRuns.

(** * The protobuf-diff iterator *)

(** ** Reads and stores in the middle of a slice *)

Lemma index_at_middle {E A} (pre post : list A) (x : A) :
  index_at (E := E) (pre ++ x :: post) (slen pre) = Ok x.
Proof.
  unfold index_at, slen. rewrite length_app. simpl.
  destruct (Z.leb_spec 0 (Z.of_nat (length pre))); [| lia].
  destruct (Z.ltb_spec (Z.of_nat (length pre)) (Z.of_nat (length pre + S (length post))));
    [| lia].
  simpl. rewrite Nat2Z.id. rewrite list_lookup_middle by reflexivity. reflexivity.
Qed.

Lemma store_at_middle {E A} (pre post : list A) (x y : A) :
  store_at (E := E) (pre ++ x :: post) (slen pre) y = Ok (pre ++ y :: post).
Proof.
  unfold store_at, slen. rewrite length_app. simpl.
  destruct (Z.leb_spec 0 (Z.of_nat (length pre))); [| lia].
  destruct (Z.ltb_spec (Z.of_nat (length pre)) (Z.of_nat (length pre + S (length post))));
    [| lia].
  simpl. rewrite Nat2Z.id. rewrite insert_app_r_alt by lia.
  rewrite Nat.sub_diag. reflexivity.
Qed.

Lemma slen_snoc {A} (l : list A) (x : A) : slen (l ++ [x]) = slen l + 1.
Proof. unfold slen. rewrite length_app. simpl. lia. Qed.

Lemma split_at {A} (d : list A) (i : nat) (x : A) :
  d !! i = Some x -> d = take i d ++ x :: drop (S i) d /\ length (take i d) = i.
Proof.
  intros Hx. split.
  - symmetry. apply take_drop_middle. exact Hx.
  - rewrite length_take. apply lookup_lt_Some in Hx. lia.
Qed.

Lemma index_at_lookup {E A} (s : list A) (i : Z) (x : A) :
  0 <= i -> s !! Z.to_nat i = Some x -> index_at (E := E) s i = Ok x.
Proof.
  intros Hi Hx. unfold index_at, slen. apply lookup_lt_Some in Hx as Hlt.
  destruct (Z.leb_spec 0 i); [| lia].
  destruct (Z.ltb_spec i (Z.of_nat (length s))); [| lia].
  simpl. rewrite Hx. reflexivity.
Qed.

Lemma store_at_lookup {E A} (s : list A) (i : Z) (x y : A) :
  0 <= i -> s !! Z.to_nat i = Some x ->
  store_at (E := E) s i y = Ok (<[Z.to_nat i := y]> s).
Proof.
  intros Hi Hx. unfold store_at, slen. apply lookup_lt_Some in Hx as Hlt.
  destruct (Z.leb_spec 0 i); [| lia].
  destruct (Z.ltb_spec i (Z.of_nat (length s))); [| lia].
  reflexivity.
Qed.

Section DictFacts.
Import Proto.
Context `{Env} {Str : Type} `{IStream Str}.
Local Abbreviation iter := (@iterator _ Str).

(** The loop of swaps carries the entry at [j] to the end. *)
Lemma moveToEndLoop_run (post : list (list Z)) :
  forall (fuel : nat) (pre : list (list Z)) (x : list Z),
    (length post < fuel)%nat ->
    slen (pre ++ x :: post) < 2 ^ 63 ->
    moveToEndLoop fuel (slen pre) (pre ++ x :: post) = Ok (pre ++ post ++ [x]).
Proof.
  induction post as [| y post IH]; intros fuel pre x Hf Hlen.
  - destruct fuel as [| fuel]; [lia |]. cbn [moveToEndLoop].
    assert (Hs : slen (pre ++ [x]) = slen pre + 1) by apply slen_snoc.
    pose proof (slen_nonneg pre).
    destruct (Z.ltb_spec (slen pre) (slen (pre ++ [x]))); [| lia].
    rewrite to_int_small by lia.
    destruct (Z.leb_spec (slen (pre ++ [x])) (slen pre + 1)); [reflexivity | lia].
  - destruct fuel as [| fuel]; [lia |]. cbn [moveToEndLoop].
    assert (Hs : slen (pre ++ x :: y :: post) = slen pre + 2 + slen post).
    { unfold slen. rewrite length_app. simpl. lia. }
    pose proof (slen_nonneg pre). pose proof (slen_nonneg post).
    destruct (Z.ltb_spec (slen pre) (slen (pre ++ x :: y :: post))); [| lia].
    rewrite to_int_small by lia.
    destruct (Z.leb_spec (slen (pre ++ x :: y :: post)) (slen pre + 1)); [lia |].
    rewrite index_at_middle. cbn [bind].
    replace (pre ++ x :: y :: post) with ((pre ++ [x]) ++ y :: post) at 1
      by (rewrite <- app_assoc; reflexivity).
    rewrite <- (slen_snoc pre x). rewrite index_at_middle. cbn [bind].
    rewrite store_at_middle. cbn [bind].
    replace (pre ++ y :: y :: post) with ((pre ++ [y]) ++ y :: post)
      by (rewrite <- app_assoc; reflexivity).
    replace (slen (pre ++ [x])) with (slen (pre ++ [y])) by (rewrite !slen_snoc; reflexivity).
    rewrite store_at_middle. cbn [bind].
    rewrite IH.
    + rewrite <- !app_assoc. reflexivity.
    + simpl in Hf. lia.
    + unfold slen in *. rewrite !length_app in *. simpl in *. lia.
Qed.

(** The dictionary of field [fieldIdx] after it was replaced by [d]. *)
Lemma dictOf_stored (it : iter) (fieldIdx : Z) (c : customFieldState)
    (d : list (list Z)) :
  0 <= fieldIdx ->
  elems (customFields it) !! Z.to_nat fieldIdx = Some c ->
  let it' :=
    set_customFields
      (Some (<[Z.to_nat fieldIdx := set_dict d c]> (elems (customFields it)))) it in
  dictOf fieldIdx it' = Some d
  /\ (forall k, 0 <= k -> k <> fieldIdx -> dictOf k it' = dictOf k it)
  /\ byteFieldDictLRUSize it' = byteFieldDictLRUSize it.
Proof.
  intros Hf Hc. unfold dictOf. simpl. apply lookup_lt_Some in Hc as Hlt.
  split; [| split].
  - rewrite list_lookup_insert_eq by exact Hlt. reflexivity.
  - intros k Hk Hne. rewrite list_lookup_insert_ne by lia. reflexivity.
  - reflexivity.
Qed.

(** C6.  Promoting the entry at a hit index [i] of a dictionary [d] gives
    [d[0..i-1] ++ d[i+1..] ++ [d[i]]]: the hit entry is last, the entries
    before it stay, the entries after it move down by one, and the
    dictionaries of the other fields are as they were. *)
Theorem moveToEndOfBytesDict_moves_hit_to_tail
    (it : iter) (fieldIdx i : Z) (d : list (list Z)) :
  0 <= fieldIdx ->
  dictOf fieldIdx it = Some d ->
  0 <= i < slen d ->
  slen d < 2 ^ 63 ->
  exists x it',
    d !! Z.to_nat i = Some x
    /\ moveToEndOfBytesDict fieldIdx i it = (it', Ok tt)
    /\ dictOf fieldIdx it'
       = Some (take (Z.to_nat i) d ++ drop (S (Z.to_nat i)) d ++ [x])
    /\ (forall k, 0 <= k -> k <> fieldIdx -> dictOf k it' = dictOf k it).
Proof.
  intros Hf Hd Hi Hlen. unfold dictOf in Hd.
  destruct (elems (customFields it) !! Z.to_nat fieldIdx) as [c |] eqn:Hc;
    [| discriminate].
  injection Hd as Hd.
  destruct (lookup_lt_is_Some_2 d (Z.to_nat i)) as [x Hx]; [unfold slen in Hi; lia |].
  destruct (split_at d (Z.to_nat i) x Hx) as [Hsplit Hpre].
  assert (Hrun : moveToEndLoop (S (length (iteratorBytesFieldDict c))) i
                   (iteratorBytesFieldDict c)
                 = Ok (take (Z.to_nat i) d ++ drop (S (Z.to_nat i)) d ++ [x])).
  { rewrite Hd.
    remember (take (Z.to_nat i) d) as pre eqn:Epre.
    remember (drop (S (Z.to_nat i)) d) as post eqn:Epost.
    assert (Hip : i = slen pre) by (unfold slen; lia).
    clear Epre Epost Hx. subst d. rewrite Hip. rewrite Hsplit in Hlen |- *.
    apply moveToEndLoop_run; [| exact Hlen].
    rewrite length_app. simpl. lia. }
  exists x. eexists. split; [exact Hx |].
  destruct (dictOf_stored it fieldIdx c
              (take (Z.to_nat i) d ++ drop (S (Z.to_nat i)) d ++ [x]) Hf Hc)
    as (D1 & D2 & _).
  split; [| split; [exact D1 | exact D2]].
  unfold moveToEndOfBytesDict, bindM, get, lift, modify.
  rewrite (index_at_lookup _ _ c Hf Hc). rewrite Hrun.
  rewrite (store_at_lookup _ _ c _ Hf Hc). reflexivity.
Qed.

(** The loop of [addToBytesDict] moves every entry but the first down by
    one and leaves the last one twice. *)
Lemma shiftDown_run (post : list (list Z)) :
  forall (pre : list (list Z)) (x : list Z),
    shiftDown (seq (length pre) (S (length post))) (pre ++ x :: post)
    = Ok (pre ++ post ++ [default x (last post)]).
Proof.
  induction post as [| y post IH]; intros pre x.
  - cbn [seq shiftDown length]. fold (slen pre).
    rewrite slen_snoc.
    destruct (Z.leb_spec (slen pre + 1) (slen pre + 1)); [reflexivity | lia].
  - cbn [length]. rewrite <- cons_seq. cbn [shiftDown]. fold (slen pre).
    assert (Hs : slen (pre ++ x :: y :: post) = slen pre + 2 + slen post).
    { unfold slen. rewrite length_app. simpl. lia. }
    pose proof (slen_nonneg post).
    destruct (Z.leb_spec (slen (pre ++ x :: y :: post)) (slen pre + 1)); [lia |].
    replace (pre ++ x :: y :: post) with ((pre ++ [x]) ++ y :: post) at 1
      by (rewrite <- app_assoc; reflexivity).
    rewrite <- (slen_snoc pre x). rewrite index_at_middle. cbn [bind].
    rewrite store_at_middle. cbn [bind].
    replace (pre ++ y :: y :: post) with ((pre ++ [y]) ++ y :: post)
      by (rewrite <- app_assoc; reflexivity).
    replace (S (length pre)) with (length (pre ++ [y]))
      by (rewrite length_app; simpl; lia).
    rewrite IH. rewrite <- !app_assoc. simpl. do 3 f_equal.
    destruct post as [| z post]; [reflexivity |].
    rewrite !last_cons_cons.
    destruct (last (z :: post)) eqn:El; [reflexivity |].
    apply last_None in El. discriminate El.
Qed.

(** A dictionary with room, or full and not empty.  A new value goes to
    the tail of a dictionary that has room; a full dictionary that is not
    empty loses its entry at index 0, every other entry moves down by one
    and the new value is last. *)
Theorem addToBytesDict_appends_or_evicts
    (it : iter) (fieldIdx : Z) (b : list Z) (d : list (list Z)) :
  0 <= fieldIdx ->
  dictOf fieldIdx it = Some d ->
  (slen d < byteFieldDictLRUSize it ->
   exists it',
     addToBytesDict fieldIdx b it = (it', Ok tt)
     /\ dictOf fieldIdx it' = Some (d ++ [b])
     /\ (forall k, 0 <= k -> k <> fieldIdx -> dictOf k it' = dictOf k it))
  /\ (slen d = byteFieldDictLRUSize it -> d <> [] ->
      exists it',
        addToBytesDict fieldIdx b it = (it', Ok tt)
        /\ dictOf fieldIdx it' = Some (drop 1 d ++ [b])
        /\ (forall k, 0 <= k -> k <> fieldIdx -> dictOf k it' = dictOf k it)).
Proof.
  intros Hf Hd. unfold dictOf in Hd.
  destruct (elems (customFields it) !! Z.to_nat fieldIdx) as [c |] eqn:Hc;
    [| discriminate].
  injection Hd as Hd. split.
  - intros Hroom. eexists.
    destruct (dictOf_stored it fieldIdx c (d ++ [b]) Hf Hc) as (D1 & D2 & _).
    split; [| split; [exact D1 | exact D2]].
    unfold addToBytesDict, bindM, get, lift, modify.
    rewrite (index_at_lookup _ _ c Hf Hc). rewrite Hd.
    destruct (Z.ltb_spec (slen d) (byteFieldDictLRUSize it)); [| lia].
    rewrite (store_at_lookup _ _ c _ Hf Hc). reflexivity.
  - intros Hfull Hne. eexists.
    destruct (dictOf_stored it fieldIdx c (drop 1 d ++ [b]) Hf Hc) as (D1 & D2 & _).
    split; [| split; [exact D1 | exact D2]].
    unfold addToBytesDict, bindM, get, lift, modify.
    rewrite (index_at_lookup _ _ c Hf Hc). rewrite Hd.
    destruct (Z.ltb_spec (slen d) (byteFieldDictLRUSize it)); [lia |].
    destruct d as [| x post]; [contradiction |].
    pose proof (shiftDown_run post [] x) as Hshift.
    change (length (@nil (list Z))) with 0%nat in Hshift.
    change ([] ++ x :: post) with (x :: post) in Hshift.
    change (S (length post)) with (length (x :: post)) in Hshift.
    rewrite Hshift. clear Hshift. cbn [bind].
    change ([] ++ post ++ [default x (last post)])
      with (post ++ [default x (last post)]).
    change (drop 1 (x :: post)) with post.
    replace (slen (post ++ [default x (last post)]) - 1) with (slen post)
      by (rewrite slen_snoc; lia).
    rewrite store_at_middle.
    rewrite (store_at_lookup _ _ c _ Hf Hc). reflexivity.
Qed.

End DictFacts.

(** ** The header *)

Lemma bindM_err {E S A B} (m : M E S A) (k : A -> M E S B) s s' e :
  bindM m k s = (s', Err e) ->
  m s = (s', Err e) \/ exists s1 a, m s = (s1, Ok a) /\ k a s1 = (s', Err e).
Proof.
  unfold bindM. destruct (m s) as [s1 [a | e1 | |]]; intros Hk; try discriminate.
  - right. exists s1, a. split; [reflexivity | exact Hk].
  - left. injection Hk as -> ->. reflexivity.
Qed.

Section HeaderFacts.
Import Proto.
Context `{Env} {Str : Type} `{IStream Str}.
Local Abbreviation iter := (@iterator _ Str).

Lemma on_stream_err {A} (mk : io_error -> error) (op : Str -> res io_error (A * Str))
    (it it' : iter) e :
  on_stream mk op it = (it', Err e) -> exists io, e = mk io.
Proof.
  unfold on_stream. destruct (op (stream it)) as [[a s] | io | |]; intros Heq;
    try discriminate.
  injection Heq as _ <-. exists io. reflexivity.
Qed.

Lemma readVarIntBytes_err (fuel : nat) :
  forall buf (it it' : iter) e,
    readVarIntBytes fuel buf it = (it', Err e) -> exists io, e = ErrReadingVarInt io.
Proof.
  induction fuel as [| fuel IH]; intros buf it it' e Hr; [discriminate |].
  cbn [readVarIntBytes] in Hr. apply bindM_err in Hr.
  destruct Hr as [Hr | (it1 & b & _ & Hr)].
  - exact (on_stream_err _ _ _ _ _ Hr).
  - destruct (Z.shiftr b 7 =? 0); [discriminate | exact (IH _ _ _ _ Hr)].
Qed.

Lemma readVarInt_err (fuel : nat) (it it' : iter) e :
  readVarInt fuel it = (it', Err e) -> exists io, e = ErrReadingVarInt io.
Proof.
  unfold readVarInt. intros Hr. apply bindM_err in Hr.
  destruct Hr as [Hr | (it1 & b & _ & Hr)]; [| discriminate].
  exact (readVarIntBytes_err _ _ _ _ _ Hr).
Qed.

Lemma readFieldTypes_err (fuel : nat) :
  forall i maxNum (it it' : iter) e,
    readFieldTypes fuel i maxNum it = (it', Err e) -> exists io, e = ErrStream io.
Proof.
  induction fuel as [| fuel IH]; intros i maxNum it it' e Hr.
  - cbn [readFieldTypes] in Hr. destruct (i <=? to_int maxNum); discriminate.
  - cbn [readFieldTypes] in Hr. destruct (i <=? to_int maxNum); [| discriminate].
    apply bindM_err in Hr. destruct Hr as [Hr | (it1 & bits & _ & Hr)].
    + exact (on_stream_err _ _ _ _ _ Hr).
    + apply bindM_err in Hr. destruct Hr as [Hr | (it2 & u & _ & Hr)].
      * destruct (to_int bits =? cNotCustomEncoded); discriminate.
      * exact (IH _ _ _ _ _ Hr).
Qed.

(** C8.  The guard of [readCustomFieldsSchema] compares the number it read
    with itself, so reading the schema of the custom fields never ends with
    the error that says the maximum custom field number is too large,
    whatever the header holds. *)
Theorem readCustomFieldsSchema_never_rejects_max (fuel : nat) (it : iter) :
  rejectsMax (snd (readCustomFieldsSchema fuel it)) = false.
Proof.
  destruct (readCustomFieldsSchema fuel it) as [it' r] eqn:Hr. simpl.
  destruct r as [u | e | |]; try reflexivity.
  destruct e; try reflexivity. exfalso.
  unfold readCustomFieldsSchema in Hr. apply bindM_err in Hr.
  destruct Hr as [Hr | (it1 & n & _ & Hr)].
  - destruct (readVarInt_err _ _ _ _ Hr) as [io Hio]. discriminate Hio.
  - rewrite Z.ltb_irrefl in Hr.
    apply bindM_err in Hr. destruct Hr as [Hr | (it2 & it2' & _ & Hr)];
      [discriminate |].
    apply bindM_err in Hr. destruct Hr as [Hr | (it3 & u & _ & Hr)].
    + destruct ((n <=? maxTSZFieldsCapacityRetain)
                && bool_decide (customFields it2' <> None));
        [discriminate |].
      destruct (canMake n); discriminate.
    + destruct (readFieldTypes_err _ _ _ _ _ _ Hr) as [io Hio]. discriminate Hio.
Qed.

End HeaderFacts.

(** ** The merge of a diff *)

Lemma find_unique {A} (g : A -> Z) (l : list A) (x : A) :
  NoDup (map g l) -> In x l -> find (fun y => g y =? g x) l = Some x.
Proof.
  induction l as [| a l IH]; intros Hnd Hin; [contradiction |].
  simpl in Hnd. apply NoDup_cons in Hnd as Hnd'. destruct Hnd' as [Hna Hnd'].
  simpl. destruct Hin as [-> | Hin].
  - rewrite Z.eqb_refl. reflexivity.
  - destruct (Z.eqb_spec (g a) (g x)) as [Heq | Hne].
    + exfalso. apply Hna. rewrite Heq. apply list_elem_of_In. apply in_map. exact Hin.
    + apply IH; assumption.
Qed.

Lemma find_number {A} (g : A -> Z) (l : list A) (n : Z) :
  In n (map g l) -> exists x, find (fun y => g y =? n) l = Some x /\ g x = n.
Proof.
  induction l as [| a l IH]; intros Hin; [contradiction |].
  simpl. destruct (Z.eqb_spec (g a) n) as [Heq | Hne].
  - exists a. split; [reflexivity | exact Heq].
  - destruct Hin as [Hin | Hin]; [contradiction |]. apply IH. exact Hin.
Qed.

Section MergeFacts.
Import Proto.
Context `{Env} {Str : Type} `{IStream Str}.
Local Abbreviation iter := (@iterator _ Str).

Lemma from_lib_ok {A} (mk : Z -> error) (a : A) (it : iter) :
  from_lib mk (Ok a) it = (it, Ok a).
Proof. reflexivity. Qed.

(** The loop over the known fields. *)
Lemma mergeKnownFields_run (m : Message) (fields : list FieldDescriptor) :
  forall it : iter,
    NoDup (map GetNumber (descriptor m)) ->
    NoDup (map GetNumber fields) ->
    (forall f, In f fields -> In f (descriptor m)) ->
    descriptor (lastIterated it) = descriptor m ->
    (forall f, In f fields ->
               exists b, isDefaultValue f (GetFieldByNumber m f) = Ok b) ->
    exists it',
      mergeKnownFields m fields it = (it', Ok tt)
      /\ descriptor (lastIterated it') = descriptor m
      /\ bitsetValues it' = bitsetValues it
      /\ (forall n,
             values (lastIterated it') !! n
             = match find (fun f => (GetNumber f =? n) && copied m f) fields with
               | Some f => Some (GetFieldByNumber m f)
               | None => values (lastIterated it) !! n
               end).
Proof.
  induction fields as [| f fields IH]; intros it Hnd Hndf Hsub Hdesc Hdef.
  - exists it. split; [reflexivity |]. split; [exact Hdesc |].
    split; reflexivity.
  - simpl in Hndf. apply NoDup_cons in Hndf as Hndf'. destruct Hndf' as [Hnf Hndf'].
    assert (Hsub' : forall g, In g fields -> In g (descriptor m))
      by (intros g Hg; apply Hsub; right; exact Hg).
    assert (Hdef' : forall g, In g fields ->
                              exists b, isDefaultValue g (GetFieldByNumber m g) = Ok b)
      by (intros g Hg; apply Hdef; right; exact Hg).
    destruct (Hdef f (or_introl eq_refl)) as [b Hb].
    cbn [mergeKnownFields].
    destruct (bool_decide (GetMessageType f = None) && negb (IsRepeated f)) eqn:Hguard.
    + (* the field is skipped *)
      assert (Hcop : copied m f = false) by (unfold copied; rewrite Hguard; reflexivity).
      destruct (IH it Hnd Hndf' Hsub' Hdesc Hdef') as (it' & Hrun & Hd' & Hb' & Hv).
      exists it'. split; [exact Hrun |]. split; [exact Hd' |]. split; [exact Hb' |].
      intros n. cbn [find]. rewrite Hcop, andb_false_r. apply Hv.
    + assert (Hfind : FindFieldDescriptor m (GetNumber f) = Some f).
      { unfold FindFieldDescriptor. apply find_unique; [exact Hnd |].
        apply Hsub. left. reflexivity. }
      unfold bindM at 1. unfold lift at 1. unfold valueByNumber. rewrite Hfind.
      fold (GetFieldByNumber m f).
      unfold bindM at 1. rewrite Hb, from_lib_ok.
      destruct b.
      * (* the value is the default of the field *)
        assert (Hcop : copied m f = false)
          by (unfold copied; rewrite Hguard, Hb; reflexivity).
        destruct (IH it Hnd Hndf' Hsub' Hdesc Hdef') as (it' & Hrun & Hd' & Hb' & Hv).
        exists it'. split; [exact Hrun |]. split; [exact Hd' |]. split; [exact Hb' |].
        intros n. cbn [find]. rewrite Hcop, andb_false_r. apply Hv.
      * assert (Hcop : copied m f = true)
          by (unfold copied; rewrite Hguard, Hb; reflexivity).
        unfold bindM at 1. unfold get at 1.
        unfold bindM at 1. unfold lift at 1. unfold setByNumber.
        unfold FindFieldDescriptor in Hfind |- *. rewrite Hdesc, Hfind.
        unfold bindM at 1. unfold modify at 1.
        set (it1 := set_lastIterated
                      (SetFieldByNumber (GetNumber f) (GetFieldByNumber m f)
                         (lastIterated it)) it).
        destruct (IH it1 Hnd Hndf' Hsub' Hdesc Hdef') as (it' & Hrun & Hd' & Hb' & Hv).
        exists it'. split; [exact Hrun |]. split; [exact Hd' |].
        split; [exact Hb' |].
        intros n. rewrite Hv. cbn [find]. rewrite Hcop, andb_true_r.
        destruct (Z.eqb_spec (GetNumber f) n) as [<- | Hne].
        -- (* no other field has this number *)
           destruct (find (fun f0 => (GetNumber f0 =? GetNumber f) && copied m f0)
                       fields) as [g |] eqn:Eg.
           ++ apply find_some in Eg. destruct Eg as [Hg Hgt].
              apply andb_true_iff in Hgt. destruct Hgt as [Hnum _].
              apply Z.eqb_eq in Hnum. exfalso. apply Hnf. rewrite <- Hnum.
              apply list_elem_of_In. apply in_map. exact Hg.
           ++ unfold it1. simpl. apply lookup_insert_eq.
        -- destruct (find (fun f0 => (GetNumber f0 =? n) && copied m f0) fields);
             [reflexivity |].
           unfold it1. simpl. apply lookup_insert_ne. exact Hne.
Qed.

(** The loop over the cleared field numbers. *)
Lemma clearFields_run (md : MessageDescriptor) (nums : list Z) :
  forall it : iter,
    descriptor (lastIterated it) = md ->
    (forall n, In n nums -> - 2 ^ 31 <= n < 2 ^ 31 /\ In n (map GetNumber md)) ->
    exists it',
      clearFields nums it = (it', Ok tt)
      /\ (forall k,
             values (lastIterated it') !! k
             = if bool_decide (k ∈ nums) then None
               else values (lastIterated it) !! k).
Proof.
  induction nums as [| n nums IH]; intros it Hdesc Hknown.
  - exists it. split; [reflexivity |]. intros k. reflexivity.
  - destruct (Hknown n (or_introl eq_refl)) as [Hrange Hin].
    destruct (find_number GetNumber md n Hin) as (f & Hfind & Hnum).
    cbn [clearFields]. unfold bindM at 1. unfold get at 1.
    unfold bindM at 1. unfold TryClearFieldByNumber, FindFieldDescriptor.
    rewrite (wrap_s_small 32 n) by (simpl; lia).
    rewrite Hdesc, Hfind, from_lib_ok, Hnum.
    unfold bindM at 1. unfold modify at 1.
    set (it1 := set_lastIterated
                  (mkMessage md (delete n (values (lastIterated it)))) it).
    destruct (IH it1 eq_refl) as (it' & Hrun & Hv).
    { intros k Hk. apply Hknown. right. exact Hk. }
    exists it'. split; [exact Hrun |].
    intros k. rewrite Hv. unfold it1. simpl.
    destruct (decide (k = n)) as [-> | Hne].
    + rewrite lookup_delete_eq.
      rewrite (bool_decide_eq_true_2 (n ∈ n :: nums)) by (left).
      destruct (bool_decide (n ∈ nums)); reflexivity.
    + rewrite lookup_delete_ne by congruence.
      destruct (bool_decide (k ∈ nums)) eqn:Hk.
      * apply bool_decide_eq_true_1 in Hk.
        rewrite (bool_decide_eq_true_2 (k ∈ n :: nums)) by (right; exact Hk).
        reflexivity.
      * apply bool_decide_eq_false_1 in Hk.
        rewrite (bool_decide_eq_false_2 (k ∈ n :: nums)); [reflexivity |].
        intros Hin'. apply elem_of_cons in Hin'. destruct Hin'; [congruence | contradiction].
Qed.


End MergeFacts.

(** ** The theorems at work on small inputs *)

Section ProtoRuns.
Import Proto Examples.
Local Existing Instance smallEnv.
Local Existing Instance bitReader.

Lemma moveToEndOfBytesDict_moves_hit_to_tail_witness :
  0 <= 0
  /\ dictOf 0 (iteratorWithDict 3 [[1]; [2]; [3]]) = Some [[1]; [2]; [3]]
  /\ 0 <= 1 < slen [[1]; [2]; [3]]
  /\ slen [[1]; [2]; [3]] < 2 ^ 63
  /\ exists x it',
       moveToEndOfBytesDict 0 1 (iteratorWithDict 3 [[1]; [2]; [3]]) = (it', Ok tt)
       /\ dictOf 0 it' = Some ([[1]] ++ [[3]] ++ [x]).
Proof.
  assert (H1 : 0 <= 0) by lia.
  assert (H2 : dictOf 0 (iteratorWithDict 3 [[1]; [2]; [3]]) = Some [[1]; [2]; [3]])
    by reflexivity.
  assert (H3 : 0 <= 1 < slen [[1]; [2]; [3]]) by (vm_compute; split; [discriminate | reflexivity]).
  assert (H4 : slen [[1]; [2]; [3]] < 2 ^ 63) by (vm_compute; reflexivity).
  repeat (split; [assumption |]).
  destruct (moveToEndOfBytesDict_moves_hit_to_tail
              (iteratorWithDict 3 [[1]; [2]; [3]]) 0 1 [[1]; [2]; [3]] H1 H2 H3 H4)
    as (x & it' & _ & Hrun & Hd & _).
  exists x, it'. split; [exact Hrun | exact Hd].
Defined.

Lemma addToBytesDict_appends_or_evicts_witness :
  0 <= 0
  /\ dictOf 0 (iteratorWithDict 3 [[1]; [2]; [3]]) = Some [[1]; [2]; [3]]
  /\ slen [[1]; [2]; [3]] = byteFieldDictLRUSize (iteratorWithDict 3 [[1]; [2]; [3]])
  /\ [[1]; [2]; [3]] <> []
  /\ exists it',
       addToBytesDict 0 [4] (iteratorWithDict 3 [[1]; [2]; [3]]) = (it', Ok tt)
       /\ dictOf 0 it' = Some ([[2]; [3]] ++ [[4]]).
Proof.
  assert (H1 : 0 <= 0) by lia.
  assert (H2 : dictOf 0 (iteratorWithDict 3 [[1]; [2]; [3]]) = Some [[1]; [2]; [3]])
    by reflexivity.
  assert (H3 : slen [[1]; [2]; [3]]
               = byteFieldDictLRUSize (iteratorWithDict 3 [[1]; [2]; [3]]))
    by reflexivity.
  assert (H4 : [[1]; [2]; [3]] <> ([] : list (list Z))) by discriminate.
  repeat (split; [assumption |]).
  destruct (proj2 (addToBytesDict_appends_or_evicts
                     (iteratorWithDict 3 [[1]; [2]; [3]]) 0 [4] [[1]; [2]; [3]] H1 H2)
              H3 H4)
    as (it' & Hrun & Hd & _).
  exists it'. split; [exact Hrun | exact Hd].
Defined.

(** A dictionary of maximum size 0: the empty dictionary
    is full, and the call does not give the dictionary with the new value
    alone, it panics on the index of the last entry. *)
Lemma addToBytesDict_panics_at_size_zero :
  dictOf 0 (iteratorWithDict 0 []) = Some []
  /\ slen (@nil (list Z)) = byteFieldDictLRUSize (iteratorWithDict 0 [])
  /\ snd (addToBytesDict 0 [97] (iteratorWithDict 0 [])) = Panic
  /\ forall it',
       addToBytesDict 0 [97] (iteratorWithDict 0 []) <> (it', Ok tt).
Proof.
  repeat split; try reflexivity. intros it' Heq.
  apply (f_equal snd) in Heq. discriminate Heq.
Qed.



End ProtoRuns.

(** * More on the bit stream *)

Section TszMore.
Import Tsz.

Lemma fillUnused_shape v os os' :
  fillUnused v os = Ok os' ->
  length (rawBuffer os') = length (rawBuffer os) /\ pos os' = pos os
  /\ rawBuffer os <> [].
Proof.
  unfold fillUnused, index_at, store_at.
  destruct ((0 <=? lastIndex os) && (lastIndex os <? slen (rawBuffer os))) eqn:Hc;
    [| discriminate].
  destruct (rawBuffer os !! Z.to_nat (lastIndex os)) eqn:Hl; [| discriminate].
  cbn [bind]. intros Heq. injection Heq as <-. cbn [rawBuffer pos].
  rewrite length_insert. repeat split.
  intros Hnil. rewrite Hnil in Hl. discriminate Hl.
Qed.

(** What a write does to the length and to [pos], for every stream. *)
Lemma WriteByte_shape v os os' :
  WriteByte v os = Ok os' ->
  len os' = len os + 1
  /\ pos os' = (if hasUnusedBits os then pos os else 8).
Proof.
  unfold WriteByte. destruct (hasUnusedBits os) eqn:Hu; cbn [negb].
  - destruct (fillUnused v os) as [os1 | | |] eqn:Hf; try discriminate.
    cbn [bind]. intros Heq. injection Heq as <-.
    destruct (fillUnused_shape _ _ _ Hf) as (Hlen & Hpos & _).
    unfold len, grow. cbn [rawBuffer pos]. rewrite length_app, Hlen. simpl.
    split; [lia | exact Hpos].
  - intros Heq. injection Heq as <-. unfold len, grow. cbn [rawBuffer pos].
    rewrite length_app. simpl. split; [lia | reflexivity].
Qed.

Lemma WriteBit_shape v os os' :
  WriteBit v os = Ok os' ->
  (hasUnusedBits os = false -> len os' = len os + 1 /\ pos os' = 1)
  /\ (hasUnusedBits os = true -> len os' = len os /\ pos os' = pos os + 1).
Proof.
  unfold WriteBit. destruct (hasUnusedBits os) eqn:Hu; cbn [negb].
  - destruct (fillUnused (to_byte v) os) as [os1 | | |] eqn:Hf; try discriminate.
    cbn [bind]. intros Heq. injection Heq as <-.
    destruct (fillUnused_shape _ _ _ Hf) as (Hlen & Hpos & _).
    split; [discriminate |]. intros _. unfold len. cbn [rawBuffer pos].
    rewrite Hlen, Hpos. split; [reflexivity |].
    unfold hasUnusedBits in Hu. apply to_int_small. lia.
  - intros Heq. injection Heq as <-. split; [| discriminate]. intros _.
    unfold len, grow. cbn [rawBuffer pos]. rewrite length_app. simpl.
    split; [lia | reflexivity].
Qed.

(** X1.  On a stream built by the package, [WriteByte] of a byte returns,
    the stream then holds the eight bits of the byte, lowest first, after
    what it held, it is one byte longer, and [pos] is as it was when the
    last byte was partly used and 8 otherwise. *)
Theorem WriteByte_appends_eight_bits (v : Z) (os : ostream) :
  wf os = true -> is_byte v ->
  exists os',
    WriteByte v os = Ok os' /\ wf os' = true
    /\ stream_bits os' = stream_bits os ++ bits_of 8 v
    /\ len os' = len os + 1
    /\ pos os' = (if hasUnusedBits os then pos os else 8).
Proof.
  intros Hw Hv. destruct (WriteByte_bits v os Hw Hv) as (os' & Hr & Hw' & Hb).
  destruct (WriteByte_shape v os os' Hr) as [Hl Hp].
  exists os'. repeat split; assumption.
Qed.

Lemma WriteByte_appends_eight_bits_witness :
  wf (mkOStream [5] 3) = true /\ is_byte 255
  /\ exists os',
       WriteByte 255 (mkOStream [5] 3) = Ok os'
       /\ stream_bits os' = stream_bits (mkOStream [5] 3) ++ bits_of 8 255.
Proof.
  assert (Hb : is_byte 255) by (unfold is_byte; lia).
  split; [reflexivity |]. split; [exact Hb |].
  destruct (WriteByte_appends_eight_bits 255 (mkOStream [5] 3) eq_refl Hb)
    as (os' & Hr & _ & Hs & _).
  exists os'. split; assumption.
Defined.

(** X2.  On a stream built by the package, [WriteBit] of 0 or 1 returns and
    the stream then holds that bit after what it held; a new byte is begun
    exactly when the last byte had no unused bits. *)
Theorem WriteBit_appends_one_bit (b : Z) (os : ostream) :
  wf os = true -> 0 <= b <= 1 ->
  exists os',
    WriteBit b os = Ok os' /\ wf os' = true
    /\ stream_bits os' = stream_bits os ++ [Z.testbit b 0]
    /\ len os' = (if hasUnusedBits os then len os else len os + 1)
    /\ pos os' = (if hasUnusedBits os then pos os + 1 else 1).
Proof.
  intros Hw Hv. destruct (WriteBit_bits b os Hw Hv) as (os' & Hr & Hw' & Hb).
  destruct (WriteBit_shape b os os' Hr) as [Hf Ht].
  exists os'. split; [exact Hr |]. split; [exact Hw' |]. split; [exact Hb |].
  destruct (hasUnusedBits os).
  - destruct (Ht eq_refl). split; assumption.
  - destruct (Hf eq_refl). split; assumption.
Qed.

Lemma WriteBit_appends_one_bit_witness :
  wf (mkOStream [5] 7) = true /\ 0 <= 1 <= 1
  /\ exists os',
       WriteBit 1 (mkOStream [5] 7) = Ok os' /\ pos os' = 7 + 1.
Proof.
  assert (Hb : 0 <= 1 <= 1) by lia.
  split; [reflexivity |]. split; [exact Hb |].
  destruct (WriteBit_appends_one_bit 1 (mkOStream [5] 7) eq_refl Hb)
    as (os' & Hr & _ & _ & _ & Hp).
  exists os'. split; [exact Hr | exact Hp].
Defined.

(** X3.  On a stream built by the package, [WriteBytes] of bytes returns
    and the stream then holds, after what it held, the bits of each byte
    in turn, lowest bit first; it is as many bytes longer as were written
    and [pos] is kept, but for a stream at a byte boundary that received
    a byte, where it becomes 8. *)
Theorem WriteBytes_appends_all_bytes (bytes : list Z) :
  forall os : ostream,
    wf os = true -> Forall is_byte bytes ->
    exists os',
      WriteBytes bytes os = Ok os' /\ wf os' = true
      /\ stream_bits os' = stream_bits os ++ concat (map (bits_of 8) bytes)
      /\ len os' = len os + slen bytes
      /\ pos os' = (if hasUnusedBits os then pos os
                    else match bytes with [] => pos os | _ => 8 end).
Proof.
  induction bytes as [| b rest IH]; intros os Hw Hb.
  - exists os. cbn [WriteBytes map concat]. rewrite app_nil_r.
    unfold slen. simpl. repeat split; try assumption; try lia.
    destruct (hasUnusedBits os); reflexivity.
  - apply Forall_cons in Hb as [Hb Hrest].
    destruct (WriteByte_bits b os Hw Hb) as (os1 & Hr1 & Hw1 & Hs1).
    destruct (WriteByte_shape b os os1 Hr1) as [Hl1 Hp1].
    destruct (IH os1 Hw1 Hrest) as (os' & Hr & Hw' & Hs & Hl & Hp).
    exists os'. cbn [WriteBytes]. rewrite Hr1. cbn [bind].
    split; [exact Hr |]. split; [exact Hw' |].
    split.
    { rewrite Hs, Hs1. cbn [map concat]. rewrite <- app_assoc. reflexivity. }
    split.
    { rewrite Hl, Hl1. unfold slen. cbn [length]. lia. }
    rewrite Hp. unfold hasUnusedBits in *. rewrite Hp1.
    destruct ((0 <? pos os) && (pos os <? 8)) eqn:Hu.
    + rewrite Hu. reflexivity.
    + simpl. destruct rest; reflexivity.
Qed.

Lemma WriteBytes_appends_all_bytes_witness :
  wf (mkOStream [1] 1) = true /\ Forall is_byte [255; 0]
  /\ exists os',
       WriteBytes [255; 0] (mkOStream [1] 1) = Ok os'
       /\ len os' = len (mkOStream [1] 1) + slen [255; 0].
Proof.
  assert (Hb : Forall is_byte [255; 0]).
  { repeat constructor; unfold is_byte; lia. }
  split; [reflexivity |]. split; [exact Hb |].
  destruct (WriteBytes_appends_all_bytes [255; 0] (mkOStream [1] 1) eq_refl Hb)
    as (os' & Hr & _ & _ & Hl & _).
  exists os'. split; assumption.
Defined.

(** X4.  At a byte boundary [WriteBytes] is a plain append: whatever the
    bytes, they are put behind the buffer as they are and [pos] becomes 8;
    so a stream that was reset and then given [bytes] holds exactly
    [bytes]. *)
Theorem WriteBytes_at_byte_boundary_appends (bytes : list Z) (os : ostream) :
  hasUnusedBits os = false -> bytes <> [] ->
  WriteBytes bytes os = Ok (mkOStream (rawBuffer os ++ bytes) 8)
  /\ (forall os0, WriteBytes bytes (Reset os0) = Ok (mkOStream bytes 8)).
Proof.
  assert (Hgen : forall bs o, hasUnusedBits o = false -> bs <> [] ->
            WriteBytes bs o = Ok (mkOStream (rawBuffer o ++ bs) 8)).
  { induction bs as [| b rest IH]; intros o Hu Hne; [congruence |].
    cbn [WriteBytes]. unfold WriteByte. rewrite Hu. cbn [negb bind].
    destruct rest as [| c rest'].
    - reflexivity.
    - rewrite IH; [| reflexivity | discriminate].
      unfold grow. cbn [rawBuffer]. rewrite <- app_assoc. reflexivity. }
  intros Hu Hne. split; [apply Hgen; assumption |].
  intros os0. rewrite Hgen; [reflexivity | reflexivity | assumption].
Qed.

Lemma WriteBytes_at_byte_boundary_appends_witness :
  hasUnusedBits (mkOStream [7] 8) = false /\ [300; -1] <> []
  /\ WriteBytes [300; -1] (mkOStream [7] 8) = Ok (mkOStream [7; 300; -1] 8).
Proof.
  assert (Hne : [300; -1] <> ([] : list Z)) by discriminate.
  split; [reflexivity |]. split; [exact Hne |].
  exact (proj1 (WriteBytes_at_byte_boundary_appends [300; -1] (mkOStream [7] 8)
                  eq_refl Hne)).
Defined.

(** X5.  [WriteBits] with a bit count that is not positive writes nothing,
    on every stream. *)
Theorem WriteBits_without_bits_is_noop (v n : Z) (os : ostream) :
  n <= 0 -> WriteBits v n os = Ok os.
Proof.
  intros Hn. unfold WriteBits.
  destruct (n =? 0) eqn:E0; [reflexivity |].
  assert (H64 : (64 <? n) = false) by (apply Z.ltb_ge; lia).
  rewrite H64.
  assert (H8 : (8 <=? n) = false) by (apply Z.leb_gt; lia).
  assert (Hp : (0 <? n) = false) by (apply Z.ltb_ge; lia).
  destruct (Z.to_nat n) as [| k].
  - cbn [writeBitsBytes]. rewrite H8. cbn [bind writeBitsRest]. rewrite Hp.
    reflexivity.
  - rewrite writeBitsBytes_S, H8. cbn [bind]. rewrite writeBitsRest_S, Hp.
    reflexivity.
Qed.

Lemma WriteBits_without_bits_is_noop_witness :
  -3 <= 0 /\ WriteBits 255 (-3) (mkOStream [1] 1) = Ok (mkOStream [1] 1).
Proof.
  assert (Hn : -3 <= 0) by lia.
  split; [exact Hn |].
  exact (WriteBits_without_bits_is_noop 255 (-3) (mkOStream [1] 1) Hn).
Defined.

Lemma bits_value_bits_of k :
  forall v, bits_value (bits_of k v) = v mod 2 ^ Z.of_nat k.
Proof.
  induction k as [| k IH]; intros v.
  - simpl. rewrite Z.mod_1_r. reflexivity.
  - change (S k) with (1 + k)%nat. rewrite bits_of_app.
    change (bits_of 1 v) with [Z.testbit v 0].
    cbn [app bits_value]. rewrite IH.
    change (Z.of_nat 1) with 1. rewrite Z.shiftr_div_pow2 by lia.
    change (2 ^ 1) with 2.
    rewrite Nat2Z.inj_add. change (Z.of_nat 1) with 1.
    rewrite Z.pow_add_r by lia. change (2 ^ 1) with 2.
    rewrite Z.rem_mul_r; [| lia | apply Z.pow_pos_nonneg; lia].
    rewrite Z.bit0_mod. reflexivity.
Qed.

(** X6.  The bits [WriteBits v n] adds to a stream built by the package,
    read as a number with the first bit written the lowest, are
    [v mod 2^n], for every [n] from 1 to 64: the bits of [v] above the
    [n] lowest never reach the stream. *)
Theorem WriteBits_writes_value_mod_2_pow_n (v n : Z) (os : ostream) :
  wf os = true -> 1 <= n <= 64 ->
  exists os',
    WriteBits v n os = Ok os'
    /\ take (length (stream_bits os)) (stream_bits os') = stream_bits os
    /\ bits_value (drop (length (stream_bits os)) (stream_bits os'))
       = v mod 2 ^ n.
Proof.
  intros Hw Hn. destruct (WriteBits_run v n os Hw Hn) as (os' & Hr & _ & Hs & _).
  exists os'. split; [exact Hr |]. rewrite Hs. split.
  - rewrite take_app_length. reflexivity.
  - rewrite drop_app_length, bits_value_bits_of, Z2Nat.id by lia. reflexivity.
Qed.

Lemma WriteBits_writes_value_mod_2_pow_n_witness :
  wf (mkOStream [1] 1) = true /\ 1 <= 9 <= 64
  /\ exists os',
       WriteBits 1023 9 (mkOStream [1] 1) = Ok os'
       /\ bits_value (drop (length (stream_bits (mkOStream [1] 1)))
                        (stream_bits os')) = 1023 mod 2 ^ 9.
Proof.
  assert (Hn : 1 <= 9 <= 64) by lia.
  split; [reflexivity |]. split; [exact Hn |].
  destruct (WriteBits_writes_value_mod_2_pow_n 1023 9 (mkOStream [1] 1) eq_refl Hn)
    as (os' & Hr & _ & Hv).
  exists os'. split; assumption.
Defined.

(** X7.  [WriteBit] and [WriteByte] return on every stream but one whose
    [pos] says the last byte is partly used while the buffer has no byte;
    there the index expression of [fillUnused] panics.  They never return
    an error. *)
Theorem write_panics_only_without_last_byte (v : Z) (os : ostream) :
  let broken := hasUnusedBits os && bool_decide (rawBuffer os = []) in
  (if broken then WriteBit v os = Panic /\ WriteByte v os = Panic
   else is_ok (WriteBit v os) = true /\ is_ok (WriteByte v os) = true).
Proof.
  cbv zeta. unfold WriteBit, WriteByte.
  destruct (hasUnusedBits os) eqn:Hu; cbn [negb andb]; [| split; reflexivity].
  destruct os as [buf p]. cbn [rawBuffer].
  induction buf as [| b init _] using rev_ind.
  - rewrite bool_decide_eq_true_2 by reflexivity. split; reflexivity.
  - rewrite bool_decide_eq_false_2 by (intros Hnil; destruct init; discriminate).
    rewrite !fillUnused_snoc. split; reflexivity.
Qed.

(** X8.  Whatever stream it is given, a [WriteBit] or [WriteByte] that
    returns leaves a stream with at least one byte whose [pos] lies between
    1 and 8: a stream that was written to is never [empty]. *)
Theorem written_stream_is_not_empty (v : Z) (os os' : ostream) :
  WriteBit v os = Ok os' \/ WriteByte v os = Ok os' ->
  1 <= len os' /\ 1 <= pos os' <= 8 /\ empty os' = false.
Proof.
  intros Hr.
  assert (Hlen : 0 <= len os) by (unfold len; lia).
  assert (Hgoal : 1 <= len os' /\ 1 <= pos os' <= 8).
  { destruct Hr as [Hr | Hr].
    - pose proof Hr as Hr'. apply WriteBit_shape in Hr as [Hf Ht].
      destruct (hasUnusedBits os) eqn:Hu.
      + destruct (Ht eq_refl) as [Hl Hp]. unfold hasUnusedBits in Hu.
        assert (rawBuffer os <> []).
        { unfold WriteBit in Hr'. unfold hasUnusedBits in Hr'. rewrite Hu in Hr'.
          cbn [negb] in Hr'.
          destruct (fillUnused (to_byte v) os) as [o1 | | |] eqn:Hfu;
            try discriminate.
          apply fillUnused_shape in Hfu. tauto. }
        assert (1 <= len os).
        { unfold len. destruct (rawBuffer os); [congruence | simpl; lia]. }
        lia.
      + destruct (Hf eq_refl) as [Hl Hp]. lia.
    - apply WriteByte_shape in Hr as [Hl Hp].
      destruct (hasUnusedBits os) eqn:Hu; [unfold hasUnusedBits in Hu |]; lia. }
  destruct Hgoal as [Hl Hp]. repeat split; try lia.
  unfold empty. apply andb_false_iff. left. apply Z.eqb_neq. lia.
Qed.

Lemma written_stream_is_not_empty_witness :
  WriteBit 1 (mkOStream [] 0) = Ok (mkOStream [1] 1)
  /\ empty (mkOStream [1] 1) = false.
Proof.
  assert (Hr : WriteBit 1 (mkOStream [] 0) = Ok (mkOStream [1] 1)) by reflexivity.
  split; [exact Hr |].
  exact (proj2 (proj2 (written_stream_is_not_empty 1 (mkOStream [] 0)
                         (mkOStream [1] 1) (or_introl Hr)))).
Defined.

End TszMore.

(** * More on the file set *)

Section FsMore.
Import schema Fs.
Context `{Codec}.

(** ** Varints and big-endian words come back as they went *)

Lemma low7_high b : 0 <= b -> Z.lor (Z.land b 127) (Z.shiftl (Z.shiftr b 7) 7) = b.
Proof.
  intros Hb. apply Z.bits_inj'. intros i Hi.
  rewrite Z.lor_spec, Z.land_spec.
  change 127 with (Z.ones 7).
  destruct (Z.lt_ge_cases i 7) as [Hlt | Hge].
  - rewrite Z.ones_spec_low by lia. rewrite Z.shiftl_spec_low by lia.
    rewrite andb_true_r, orb_false_r. reflexivity.
  - rewrite Z.ones_spec_high by lia. rewrite andb_false_r.
    rewrite Z.shiftl_spec by lia. rewrite Z.shiftr_spec by lia.
    simpl. f_equal. lia.
Qed.

Lemma decode_of_encode room :
  forall y enc,
    encodeVarintFrom room y = Ok enc ->
    forall fuel shift acc pre rest,
      0 <= y -> 0 <= shift < 64 -> y < 2 ^ (64 - shift) -> (room <= fuel)%nat ->
      decodeVarintFrom fuel shift (pre ++ enc ++ rest) (slen pre) acc
      = (Z.lor acc (Z.shiftl y shift), slen pre + slen enc).
Proof.
  induction room as [| room IH]; intros y enc Henc fuel shift acc pre rest Hy Hs Hlt Hf.
  - discriminate Henc.
  - destruct fuel as [| fuel]; [lia |].
    cbn [encodeVarintFrom] in Henc. cbn [decodeVarintFrom].
    destruct (Z.ltb_spec shift 64); [| lia].
    assert (Hlook : forall b tl, (pre ++ (b :: tl) ++ rest) !! Z.to_nat (slen pre) = Some b).
    { intros b tl. unfold slen. rewrite Nat2Z.id.
      rewrite lookup_app_r by lia. rewrite Nat.sub_diag. reflexivity. }
    destruct (Z.ltb_spec 127 y) as [Hbig | Hsmall].
    + destruct (encodeVarintFrom room (Z.shiftr y 7)) as [tl | | |] eqn:Htl;
        try discriminate.
      cbn [bind] in Henc. injection Henc as <-.
      rewrite Hlook.
      assert (Hlow : Z.land (Z.lor 128 (Z.land y 127)) 127 = Z.land y 127).
      { rewrite Z.land_lor_distr_l. change (Z.land 128 127) with 0.
        rewrite Z.lor_0_l, <- Z.land_assoc. reflexivity. }
      assert (Hhigh : Z.land (Z.lor 128 (Z.land y 127)) 128 = 128).
      { rewrite Z.land_lor_distr_l. change (Z.land 128 128) with 128.
        rewrite <- Z.land_assoc. change (Z.land 127 128) with 0.
        rewrite Z.land_0_r. reflexivity. }
      rewrite Hlow, Hhigh. change (128 =? 0) with false. cbv iota.
      assert (H7 : shift + 7 < 64).
      { destruct (Z.lt_ge_cases (shift + 7) 64) as [? | Hge]; [assumption |].
        exfalso. assert (2 ^ (64 - shift) <= 2 ^ 7) by (apply Z.pow_le_mono_r; lia).
        change (2 ^ 7) with 128 in *. lia. }
      assert (Hl7 : 0 <= Z.land y 127 < 128).
      { change 127 with (Z.ones 7). rewrite Z.land_ones by lia.
        change (2 ^ 7) with 128. apply Z.mod_pos_bound. lia. }
      assert (Hsh : 0 <= Z.shiftl (Z.land y 127) shift < 2 ^ 64).
      { rewrite Z.shiftl_mul_pow2 by lia.
        assert (0 < 2 ^ shift) by (apply Z.pow_pos_nonneg; lia).
        assert (2 ^ shift * 128 <= 2 ^ 64).
        { change 128 with (2 ^ 7). rewrite <- Z.pow_add_r by lia.
          apply Z.pow_le_mono_r; lia. }
        nia. }
      rewrite (to_uint_small _ Hsh).
      replace (pre ++ (Z.lor 128 (Z.land y 127) :: tl) ++ rest)
        with ((pre ++ [Z.lor 128 (Z.land y 127)]) ++ tl ++ rest)
        by (rewrite <- app_assoc; reflexivity).
      replace (slen pre + 1) with (slen (pre ++ [Z.lor 128 (Z.land y 127)]))
        by (unfold slen; rewrite length_app; simpl; lia).
      rewrite (IH (Z.shiftr y 7) tl Htl fuel (shift + 7)).
      * f_equal.
        -- rewrite <- Z.lor_assoc. f_equal.
           rewrite <- (low7_high y Hy) at 3.
           rewrite Z.shiftl_lor. f_equal.
           rewrite Z.shiftl_shiftl by lia. f_equal. lia.
        -- unfold slen. rewrite length_app. simpl. lia.
      * apply Z.shiftr_nonneg. lia.
      * lia.
      * rewrite Z.shiftr_div_pow2 by lia. change (2 ^ 7) with 128.
        apply Z.div_lt_upper_bound; [lia |].
        replace (64 - shift) with (7 + (64 - (shift + 7))) in Hlt by lia.
        rewrite Z.pow_add_r in Hlt by lia. change (2 ^ 7) with 128 in Hlt. lia.
      * lia.
    + injection Henc as <-. rewrite Hlook.
      rewrite (to_byte_small y) by lia.
      assert (Hl : Z.land y 127 = y).
      { change 127 with (Z.ones 7). rewrite Z.land_ones by lia.
        change (2 ^ 7) with 128. apply Z.mod_small. lia. }
      assert (Hh : Z.land y 128 = 0).
      { apply Z.bits_inj'. intros i Hi. rewrite Z.land_spec, Z.bits_0.
        destruct (Z.eq_dec i 7) as [-> | Hne].
        - replace (Z.testbit y 7) with false; [reflexivity |].
          symmetry. apply (testbit_above y 7 7); [change (2 ^ 7) with 128; lia | lia].
        - change 128 with (2 ^ 7). rewrite Z.pow2_bits_false by lia.
          apply andb_false_r. }
      rewrite Hl, Hh. change (0 =? 0) with true. cbv iota.
      assert (Hsh : 0 <= Z.shiftl y shift < 2 ^ 64).
      { rewrite Z.shiftl_mul_pow2 by lia.
        assert (0 < 2 ^ shift) by (apply Z.pow_pos_nonneg; lia).
        replace (2 ^ 64) with (2 ^ (64 - shift) * 2 ^ shift)
          by (rewrite <- Z.pow_add_r by lia; f_equal; lia).
        nia. }
      rewrite (to_uint_small _ Hsh). f_equal; unfold slen; simpl; lia.
Qed.

Lemma encode_nonempty room y enc : encodeVarintFrom room y = Ok enc -> 1 <= slen enc.
Proof.
  destruct room as [| room]; [discriminate |]. cbn [encodeVarintFrom].
  destruct (127 <? y).
  - destruct (encodeVarintFrom room (Z.shiftr y 7)); try discriminate.
    cbn [bind]. intros Heq. injection Heq as <-. unfold slen. simpl. lia.
  - intros Heq. injection Heq as <-. unfold slen. simpl. lia.
Qed.

Lemma DecodeVarint_EncodeVarint y enc rest :
  EncodeVarint y = Ok enc -> 0 <= y < 2 ^ 64 ->
  DecodeVarint (enc ++ rest) = (y, slen enc) /\ 1 <= slen enc.
Proof.
  intros Henc Hy. split; [| exact (encode_nonempty _ _ _ Henc)].
  unfold DecodeVarint.
  pose proof (decode_of_encode 10 y enc Henc 10%nat 0 0 [] rest) as Hd.
  cbn [app] in Hd. change (slen []) with 0 in Hd.
  rewrite Hd by (change (2 ^ (64 - 0)) with (2 ^ 64); lia).
  rewrite Z.shiftl_0_r, Z.lor_0_l. reflexivity.
Qed.

Lemma be_uint64_put v : 0 <= v < 2 ^ 64 -> be_uint64 (be_put_uint64 v) = v.
Proof.
  intros Hv. unfold be_uint64, be_put_uint64. cbn [seq map fold_left].
  unfold to_byte, wrap_u. rewrite !Z.shiftr_div_pow2 by lia.
  cbn [Z.of_nat Z.mul Z.sub Z.add Z.opp Pos.of_succ_nat Pos.succ Z.pos_sub
       Pos.mul Pos.add Z.succ_double Z.pred_double Z.double Pos.pred_double].
  change (2 ^ 0) with 1. change (2 ^ 8) with 256.
  Z.div_mod_to_equations. lia.
Qed.

Lemma slen_concat ds : slen (concat ds) = payloadLen ds.
Proof.
  induction ds as [| d ds IH]; [reflexivity |].
  cbn [concat]. change (payloadLen (d :: ds)) with (slen d + payloadLen ds).
  rewrite <- IH. unfold slen. rewrite length_app. lia.
Qed.

Lemma slen_dataRecord idx ds : slen (dataRecord idx ds) = frameLen ds.
Proof.
  unfold dataRecord, frameLen, markerLen, idxLen.
  pose proof (length_be_put_uint64 idx) as Hb. pose proof (slen_concat ds) as Hc.
  unfold slen in *. rewrite !length_app. lia.
Qed.

(** One [Read] of a reader that stands before a record as the writer
    leaves it. *)
Lemma Read_record (r : reader (list Z)) (entry : IndexEntry)
    (ds : list (list Z)) (rec irest drest : list Z) :
  (forall e enc, marshalIndexEntry e = Ok enc -> unmarshalIndexEntry enc = Ok e) ->
  read r = readFile ->
  indexRecord entry = Ok rec ->
  indexUnread r = rec ++ irest ->
  slen rec < 2 ^ 63 ->
  dataFd r = dataRecord (Idx entry) ds ++ drest ->
  Size entry = payloadLen ds ->
  0 <= Idx entry < 2 ^ 63 ->
  frameLen ds < 2 ^ 63 ->
  0 <= entriesRead r < 2 ^ 63 - 1 ->
  Read r
  = (mkReader readFile (entries r) (entriesRead r + 1) irest (indexSpare r)
       entry drest,
     Ok (Key entry, concat ds)).
Proof.
  intros Hcodec Hread Hrec Hidx Hreclen Hdata Hsize Hi Hframe Her.
  destruct r as [rd en er iu sp ce df]. cbn [read indexUnread dataFd entriesRead
    entries indexSpare] in *. subst rd iu df.
  unfold indexRecord in Hrec.
  destruct (marshalIndexEntry entry) as [enc | | |] eqn:Hm; try discriminate.
  cbn [bind] in Hrec.
  destruct (EncodeVarint (to_uint (slen enc))) as [v | | |] eqn:Hv; try discriminate.
  cbn [bind] in Hrec. injection Hrec as <-.
  assert (Henc : 0 <= slen enc < 2 ^ 63).
  { unfold slen in *. rewrite length_app in Hreclen. lia. }
  rewrite to_uint_small in Hv by lia.
  destruct (DecodeVarint_EncodeVarint (slen enc) v (enc ++ irest) Hv) as [Hdec Hv1];
    [lia |].
  pose proof markerLen_nonneg as Hml.
  pose proof (payloadLen_nonneg ds) as Hpl.
  assert (Hidx8 : idxLen = 8) by reflexivity.
  pose proof (slen_dataRecord (Idx entry) ds) as Hdr.
  assert (Hfl : frameLen ds = markerLen + idxLen + Size entry).
  { unfold frameLen. lia. }
  set (expected := frameLen ds) in *.
  unfold Read, bindM, modify, get, lift, fail, ret, call_read.
  cbn [indexUnread set_currEntry set_indexUnread fst snd indexSpare].
  rewrite <- app_assoc, Hdec.
  destruct (Z.ltb_spec (slen v) 1); [lia |].
  cbn [indexUnread set_currEntry set_indexUnread fst snd indexSpare].
  assert (Hdrop : drop (Z.to_nat (slen v)) (v ++ enc ++ irest) = enc ++ irest).
  { unfold slen. rewrite Nat2Z.id. apply drop_app_length. }
  rewrite Hdrop.
  rewrite slice_to_ok by (unfold slen in *; rewrite !length_app; lia).
  assert (Htake : take (Z.to_nat (slen enc)) ((enc ++ irest) ++ sp) = enc).
  { rewrite <- app_assoc. unfold slen. rewrite Nat2Z.id. apply take_app_length. }
  rewrite Htake, (Hcodec _ _ Hm).
  cbn [indexUnread set_currEntry set_indexUnread fst snd indexSpare].
  rewrite slice_from_ok by (unfold slen in *; rewrite !length_app; lia).
  assert (Hdrop2 : drop (Z.to_nat (slen enc)) (enc ++ irest) = irest).
  { unfold slen. rewrite Nat2Z.id. apply drop_app_length. }
  rewrite Hdrop2.
  rewrite (to_int_small (markerLen + idxLen)) by lia.
  rewrite (to_int_small (Size entry)) by lia.
  rewrite <- Hfl. rewrite (to_int_small expected) by lia.
  rewrite make_bytes_ok by lia.
  cbn [read dataFd set_currEntry set_indexUnread set_dataFd].
  assert (Hrf : readFile (dataRecord (Idx entry) ds ++ drest)
                  (replicate (Z.to_nat expected) 0)
                = (mkReadResult (dataRecord (Idx entry) ds) expected None, drest)).
  { pose proof (frameLen_pos ds) as Hpos. fold expected in Hpos.
    unfold readFile.
    destruct (replicate (Z.to_nat expected) 0) as [| z zs] eqn:Hbuf.
    { apply (f_equal length) in Hbuf. rewrite length_replicate in Hbuf.
      simpl in Hbuf. lia. }
    rewrite <- Hbuf.
    destruct (dataRecord (Idx entry) ds ++ drest) as [| y ys] eqn:Hfd.
    { apply (f_equal length) in Hfd. rewrite length_app in Hfd.
      unfold slen in Hdr. simpl in Hfd. lia. }
    rewrite <- Hfd. rewrite length_replicate.
    assert (Hmin : Nat.min (Z.to_nat expected)
                     (length (dataRecord (Idx entry) ds ++ drest))
                   = length (dataRecord (Idx entry) ds)).
    { rewrite length_app. unfold slen in Hdr. lia. }
    rewrite Hmin, take_app_length, drop_app_length.
    unfold slen in Hdr. rewrite Hdr. reflexivity. }
  rewrite Hrf. cbn [stored count failure].
  assert (Hov : overlay (replicate (Z.to_nat expected) 0) (dataRecord (Idx entry) ds)
                = dataRecord (Idx entry) ds).
  { unfold overlay. rewrite length_replicate.
    replace (Z.to_nat expected) with (length (dataRecord (Idx entry) ds))
      by (unfold slen in Hdr; lia).
    rewrite take_app_length. reflexivity. }
  rewrite Hov. rewrite Z.eqb_refl. cbn [negb].
  rewrite slice_to_ok by lia.
  assert (Hhead : take (Z.to_nat markerLen) (dataRecord (Idx entry) ds) = marker).
  { unfold dataRecord, markerLen, slen. rewrite Nat2Z.id. apply take_app_length. }
  rewrite Hhead. rewrite bool_decide_eq_true_2 by reflexivity. cbn [negb].
  rewrite slice_range_ok by lia.
  replace (Z.to_nat (markerLen + idxLen - markerLen)) with 8%nat by lia.
  assert (Hbody : drop (Z.to_nat markerLen) (dataRecord (Idx entry) ds)
                  = be_put_uint64 (Idx entry) ++ concat ds).
  { unfold dataRecord, markerLen, slen. rewrite Nat2Z.id. apply drop_app_length. }
  rewrite Hbody.
  assert (Htake8 : take 8 (be_put_uint64 (Idx entry) ++ concat ds)
                   = be_put_uint64 (Idx entry))
    by exact (take_app_length (be_put_uint64 (Idx entry)) (concat ds)).
  assert (Hdrop8 : drop 8 (be_put_uint64 (Idx entry) ++ concat ds) = concat ds)
    by exact (drop_app_length (be_put_uint64 (Idx entry)) (concat ds)).
  rewrite Htake8.
  rewrite be_uint64_put by lia. rewrite (to_int_small (Idx entry)) by lia.
  rewrite Z.eqb_refl. cbn [negb].
  cbn [entriesRead set_entriesRead set_currEntry set_indexUnread set_dataFd
       read entries indexUnread indexSpare currEntry dataFd].
  rewrite slice_from_ok by lia.
  replace (Z.to_nat (markerLen + idxLen)) with (Z.to_nat markerLen + 8)%nat by lia.
  rewrite <- drop_drop, Hbody, Hdrop8.
  rewrite (to_int_small (er + 1)) by lia. reflexivity.
Qed.

Lemma framesLen_nonneg recs : 0 <= framesLen recs.
Proof. pose proof (framesLen_length recs). lia. Qed.

Lemma ReadEach_records recs :
  forall idx off (r : reader (list Z)) bytes irest drest,
    (forall e enc, marshalIndexEntry e = Ok enc -> unmarshalIndexEntry enc = Ok e) ->
    read r = readFile ->
    indexRecords (entriesFrom idx off recs) = Ok bytes ->
    indexUnread r = bytes ++ irest ->
    slen bytes < 2 ^ 63 ->
    dataFd r = dataRecordsFrom idx recs ++ drest ->
    0 <= idx -> idx + Z.of_nat (length recs) < 2 ^ 63 ->
    framesLen recs < 2 ^ 63 ->
    0 <= entriesRead r -> entriesRead r + Z.of_nat (length recs) < 2 ^ 63 ->
    exists r',
      ReadEach (length recs) r = (r', Ok (map recordOf recs))
      /\ read r' = readFile /\ entries r' = entries r
      /\ entriesRead r' = entriesRead r + Z.of_nat (length recs)
      /\ indexUnread r' = irest /\ indexSpare r' = indexSpare r
      /\ dataFd r' = drest.
Proof.
  induction recs as [| [key ds] rest IH];
    intros idx off r bytes irest drest Hcodec Hread Hrecs Hiu Hlen Hdata Hidx Hn Hfr Her Hern.
  - cbn [entriesFrom indexRecords] in Hrecs. injection Hrecs as <-.
    cbn [dataRecordsFrom app] in *. exists r. cbn [ReadEach length map].
    unfold ret. repeat split; try assumption. simpl. lia.
  - cbn [entriesFrom indexRecords] in Hrecs.
    set (e := mkIndexEntry idx (payloadLen ds) off key) in *.
    destruct (indexRecord e) as [a | | |] eqn:Ha; try discriminate.
    cbn [bind] in Hrecs.
    destruct (indexRecords (entriesFrom (idx + 1) (off + frameLen ds) rest))
      as [b | | |] eqn:Hb; try discriminate.
    cbn [bind] in Hrecs. injection Hrecs as <-.
    cbn [dataRecordsFrom] in Hdata. rewrite <- app_assoc in Hdata, Hiu.
    change (framesLen ((key, ds) :: rest)) with (frameLen ds + framesLen rest) in Hfr.
    pose proof (framesLen_nonneg rest) as Hfr0.
    pose proof (frameLen_pos ds) as Hfl0.
    cbn [length] in Hn, Hern.
    assert (Hab : slen a < 2 ^ 63 /\ slen b < 2 ^ 63).
    { unfold slen in *. rewrite length_app in Hlen. lia. }
    pose proof (Read_record r e ds a (b ++ irest)
                  (dataRecordsFrom (idx + 1) rest ++ drest) Hcodec Hread Ha Hiu
                  (proj1 Hab) Hdata eq_refl) as Hstep.
    cbn [Idx Key e] in Hstep.
    specialize (Hstep ltac:(lia) ltac:(lia) ltac:(lia)).
    set (r1 := mkReader readFile (entries r) (entriesRead r + 1) (b ++ irest)
                 (indexSpare r) e (dataRecordsFrom (idx + 1) rest ++ drest)) in *.
    destruct (IH (idx + 1) (off + frameLen ds) r1 b irest drest Hcodec eq_refl Hb
                eq_refl (proj2 Hab) eq_refl) as (r' & Hrun & Hrd & Hen & Hcnt & Hi' & Hsp & Hd');
      try (cbn [entriesRead r1]; lia).
    exists r'. split.
    { cbn [ReadEach length]. rewrite (bindM_run _ _ _ _ _ Hstep).
      rewrite (bindM_run _ _ _ _ _ Hrun). reflexivity. }
    cbn [entries entriesRead indexSpare r1] in *.
    repeat split; try assumption. cbn [length]. lia.
Qed.

(** X9.  What was written is read back.  After appends on a new writer
    over empty index and data files, a reader opened on these files (all
    bytes of the index in its buffer, the data file unread) gives, for
    [Read] called once for each record written, the keys and payloads of
    the appends that had a payload, in the order of the appends, each
    payload in one piece; [EntriesRead] then is the number of records,
    and one more [Read] fails with [ErrReadIndexEntryZeroSize].  The codec
    of the index entry must decode what it encodes. *)
Theorem Read_gives_back_what_WriteAll_wrote
    (blockSize : Z) (o : world) (appends : list (string * list (list Z)))
    (s' : session) (n : Z) (spare : list Z) :
  (forall e enc, marshalIndexEntry e = Ok enc -> unmarshalIndexEntry enc = Ok e) ->
  WriteEach appends (NewWriter blockSize, o) = (s', Ok tt) ->
  bytes_of_file IndexFile o = [] ->
  bytes_of_file DataFile o = [] ->
  framesLen (withPayload appends) < 2 ^ 63 ->
  slen (bytes_of_file IndexFile (snd s')) < 2 ^ 63 ->
  exists r',
    ReadEach (length (withPayload appends))
      (openedReader n (bytes_of_file IndexFile (snd s')) spare
         (bytes_of_file DataFile (snd s')))
    = (r', Ok (map recordOf (withPayload appends)))
    /\ GetEntriesRead r' = Z.of_nat (length (withPayload appends))
    /\ snd (Read r') = Err ErrReadIndexEntryZeroSize.
Proof.
  intros Hcodec Hrun Hi0 Hd0 Hfr Hilen.
  pose proof (framesLen_length (withPayload appends)) as Hcount.
  destruct (WriteEach_ok appends (NewWriter blockSize, o) s' Hrun) as
    (bytes & Hbytes & _ & _ & Hdata & Hindex); try (cbn; lia).
  cbn [fst snd NewWriter currIdx currOffset] in *.
  rewrite Hi0 in Hindex. rewrite Hd0 in Hdata. cbn [app] in *.
  rewrite Hindex in Hilen |- *. rewrite Hdata.
  destruct (ReadEach_records (withPayload appends) 0 0
              (openedReader n bytes spare (dataRecordsFrom 0 (withPayload appends)))
              bytes [] [] Hcodec eq_refl Hbytes)
    as (r' & Hread & Hrd & _ & Hcnt & Hiu & _ & _);
    try (cbn [openedReader indexUnread dataFd entriesRead]; rewrite ?app_nil_r; 
         first [reflexivity | lia]).
  exists r'. split; [exact Hread |]. split.
  - unfold GetEntriesRead. rewrite Hcnt. reflexivity.
  - destruct r' as [rd en er iu sp ce df]. cbn [indexUnread] in Hiu. subst iu.
    reflexivity.
Qed.

(** ** What an append leaves alone *)

Lemma appendedOnly_refl s : appendedOnly s s.
Proof.
  unfold appendedOnly. repeat split; try reflexivity.
  - exists []. rewrite app_nil_r. reflexivity.
  - exists []. rewrite app_nil_r. reflexivity.
  - exists []. rewrite app_nil_r. split; [reflexivity | constructor].
Qed.

Lemma appendedOnly_trans s1 s2 s3 :
  appendedOnly s1 s2 -> appendedOnly s2 s3 -> appendedOnly s1 s3.
Proof.
  intros (A1 & A2 & A3 & A4 & A5 & (d1 & A6) & (i1 & A7) & (e1 & A8 & A9))
         (B1 & B2 & B3 & B4 & B5 & (d2 & B6) & (i2 & B7) & (e2 & B8 & B9)).
  unfold appendedOnly. repeat split; try congruence.
  - exists (d1 ++ d2). rewrite B6, A6, app_assoc. reflexivity.
  - exists (i1 ++ i2). rewrite B7, A7, app_assoc. reflexivity.
  - exists (e1 ++ e2). rewrite B8, A8, app_assoc. split; [reflexivity |].
    apply Forall_app. split; assumption.
Qed.

(** A step that only appends and leaves the record index alone. *)
Local Abbreviation quiet m :=
  (forall s, appendedOnly s (fst (m s)) /\ currIdx (fst (fst (m s))) = currIdx (fst s)).

(** A step that only appends and leaves the record index alone unless it
    returns without an error. *)
Local Abbreviation careful m :=
  (forall s, appendedOnly s (fst (m s))
             /\ (snd (m s) <> Ok tt -> currIdx (fst (fst (m s))) = currIdx (fst s))).

Lemma quiet_bind {A B} (m : M error session A) (k : A -> M error session B) :
  quiet m -> (forall a, quiet (k a)) -> quiet (bindM m k).
Proof.
  intros Hm Hk s. unfold bindM. destruct (Hm s) as [Ha Hi].
  destruct (m s) as [s1 [a | e | |]]; cbn [fst] in *; try (split; assumption).
  destruct (Hk a s1) as [Ha' Hi']. split.
  - eapply appendedOnly_trans; eassumption.
  - congruence.
Qed.

Lemma careful_bind {A} (m : M error session A) (k : A -> M error session unit) :
  quiet m -> (forall a, careful (k a)) -> careful (bindM m k).
Proof.
  intros Hm Hk s. unfold bindM. destruct (Hm s) as [Ha Hi].
  destruct (m s) as [s1 [a | e | |]]; cbn [fst snd] in *;
    try (split; [assumption | intros _; assumption]).
  destruct (Hk a s1) as [Ha' Hi']. split.
  - eapply appendedOnly_trans; eassumption.
  - intros Hr. rewrite (Hi' Hr). exact Hi.
Qed.

Lemma quiet_careful (m : M error session unit) : quiet m -> careful m.
Proof. intros Hm s. destruct (Hm s). split; [assumption | intros _; assumption]. Qed.

Lemma quiet_ret {A} (a : A) : quiet (ret (E := error) (S := session) a).
Proof. intros s. split; [apply appendedOnly_refl | reflexivity]. Qed.

Lemma quiet_lift {A} (x : res error A) : quiet (lift (S := session) x).
Proof. intros s. split; [apply appendedOnly_refl | reflexivity]. Qed.

Lemma quiet_the_writer : quiet the_writer.
Proof. intros s. split; [apply appendedOnly_refl | reflexivity]. Qed.

Lemma appendedOnly_modify_w f s :
  blockSize (f (fst s)) = blockSize (fst s) ->
  start (f (fst s)) = start (fst s) ->
  infoBuffer (f (fst s)) = infoBuffer (fst s) ->
  appendedOnly s (fst (modify_w f s)).
Proof.
  intros H1 H2 H3. unfold modify_w, modify, appendedOnly. cbn [fst snd].
  repeat split; try assumption.
  - exists []. rewrite app_nil_r. reflexivity.
  - exists []. rewrite app_nil_r. reflexivity.
  - exists []. rewrite app_nil_r. split; [reflexivity | constructor].
Qed.

Lemma quiet_modify_w f :
  (forall w, blockSize (f w) = blockSize w /\ start (f w) = start w
             /\ infoBuffer (f w) = infoBuffer w /\ currIdx (f w) = currIdx w) ->
  quiet (modify_w f).
Proof.
  intros Hf s. destruct (Hf (fst s)) as (H1 & H2 & H3 & H4).
  split; [apply appendedOnly_modify_w; assumption | exact H4].
Qed.

Lemma quiet_sysWrite f b :
  f = DataFile \/ f = IndexFile -> quiet (on_os (sysWrite f b)).
Proof.
  intros Hf [w o]. unfold on_os, sysWrite, bindM, syscall, ret, next_fault.
  cbn [fst snd].
  destruct (faults o) as [| [e |] rest]; cbn [fst snd]; (split; [| reflexivity]).
  - unfold appendedOnly, bytes_of_file. cbn [fst snd].
    destruct Hf as [-> | ->]; cbn [content set_content log info index data
      checkpoint trace default]; repeat split.
    + exists b. reflexivity.
    + exists []. rewrite app_nil_r. reflexivity.
    + exists [EvWrite DataFile b]. split; [reflexivity |].
      constructor; [| constructor]. exists b. left. reflexivity.
    + exists []. rewrite app_nil_r. reflexivity.
    + exists b. reflexivity.
    + exists [EvWrite IndexFile b]. split; [reflexivity |].
      constructor; [| constructor]. exists b. right. reflexivity.
  - unfold appendedOnly, bytes_of_file. cbn [fst snd content info index data
      checkpoint trace]. repeat split.
    + exists []. rewrite app_nil_r. reflexivity.
    + exists []. rewrite app_nil_r. reflexivity.
    + exists []. rewrite app_nil_r. split; [reflexivity | constructor].
  - unfold appendedOnly, bytes_of_file.
    destruct Hf as [-> | ->]; cbn [fst snd content set_content log info index data
      checkpoint trace default]; repeat split.
    + exists b. reflexivity.
    + exists []. rewrite app_nil_r. reflexivity.
    + exists [EvWrite DataFile b]. split; [reflexivity |].
      constructor; [| constructor]. exists b. left. reflexivity.
    + exists []. rewrite app_nil_r. reflexivity.
    + exists b. reflexivity.
    + exists [EvWrite IndexFile b]. split; [reflexivity |].
      constructor; [| constructor]. exists b. right. reflexivity.
Qed.

Ltac keeps_fields := intros ?; repeat split; reflexivity.

Lemma quiet_writeData b : quiet (writeData b).
Proof.
  unfold writeData. destruct (slen b =? 0); [apply quiet_ret |].
  apply quiet_bind; [apply quiet_sysWrite; left; reflexivity |]. intros written.
  apply quiet_bind; [apply quiet_the_writer |]. intros w.
  apply quiet_modify_w. keeps_fields.
Qed.

Lemma quiet_writeDataEach ds : quiet (writeDataEach ds).
Proof.
  induction ds as [| d ds IH]; cbn [writeDataEach]; [apply quiet_ret |].
  apply quiet_bind; [apply quiet_writeData | intros _; exact IH].
Qed.

Lemma careful_WriteAll key ds : careful (WriteAll key ds).
Proof.
  unfold WriteAll. destruct (totalSize ds =? 0).
  { apply quiet_careful, quiet_ret. }
  repeat first
    [ apply careful_bind;
      [ first [ apply quiet_the_writer | apply quiet_lift | apply quiet_writeData
              | apply quiet_writeDataEach
              | apply quiet_sysWrite; right; reflexivity
              | apply quiet_modify_w; keeps_fields ]
      | intros ? ] ].
  intros s. split.
  - apply appendedOnly_modify_w; reflexivity.
  - intros Hr. exfalso. apply Hr. reflexivity.
Qed.

(** X10.  [WriteAll] only ever appends to the data and index files: the
    info and checkpoint files, the block size, the block start and the
    info buffer are as before, what the data and index files held is
    still there, and every system call that took effect is a write to one
    of the two.  When it returns an error, whatever was written by then
    stays written but the record index [currIdx] has not moved. *)
Theorem WriteAll_only_appends (key : string) (ds : list (list Z)) (s : session) :
  appendedOnly s (fst (WriteAll key ds s))
  /\ (snd (WriteAll key ds s) <> Ok tt ->
      currIdx (fst (fst (WriteAll key ds s))) = currIdx (fst s)).
Proof. exact (careful_WriteAll key ds s). Qed.

Lemma appendedOnly_WriteEach appends :
  forall s, appendedOnly s (fst (WriteEach appends s)).
Proof.
  induction appends as [| [key ds] rest IH]; intros s; cbn [WriteEach].
  - apply appendedOnly_refl.
  - unfold bindM. destruct (careful_WriteAll key ds s) as [Ha _].
    destruct (WriteAll key ds s) as [s1 [a | e | |]]; cbn [fst] in *;
      try assumption.
    eapply appendedOnly_trans; [exact Ha | apply IH].
Qed.

(** ** What [Close] leaves in the files *)

Lemma syscall_ok ev eff o o' :
  syscall ev eff o = (o', Ok tt) ->
  forall g, content g o' = content g (eff (snd (next_fault o))).
Proof.
  unfold syscall. destruct (next_fault o) as [[e |] o1]; intros Heq;
    [discriminate |].
  injection Heq as <-. intros g. destruct g; reflexivity.
Qed.

Lemma content_set_content g f c o :
  content g (set_content f c o) = if decide (g = f) then c else content g o.
Proof. destruct g, f; reflexivity. Qed.

Lemma sysTruncate_ok f o o' :
  sysTruncate f o = (o', Ok tt) ->
  forall g, content g o' = if decide (g = f) then Some [] else content g o.
Proof.
  intros Heq g. unfold sysTruncate in Heq.
  rewrite (syscall_ok _ _ _ _ Heq g), content_set_content, next_fault_content.
  reflexivity.
Qed.

Lemma sysWrite_content f b o o' n :
  sysWrite f b o = (o', Ok n) ->
  forall g, content g o'
            = if decide (g = f) then Some (bytes_of_file f o ++ b) else content g o.
Proof.
  unfold sysWrite, bindM, ret. intros Heq g.
  destruct (syscall (EvWrite f b)
              (fun o0 => set_content f (Some (default [] (content f o0) ++ b)) o0) o)
    as [o1 [[] | e | |]] eqn:Hs; try discriminate.
  injection Heq as <- <-.
  rewrite (syscall_ok _ _ _ _ Hs g), content_set_content, !next_fault_content.
  reflexivity.
Qed.

Lemma sysClose_content f o g : content g (fst (sysClose f o)) = content g o.
Proof.
  unfold sysClose, syscall. pose proof (next_fault_content g o) as Hnf.
  destruct (next_fault o) as [[e |] o1]; cbn [fst snd] in *; [exact Hnf |].
  rewrite <- Hnf. destruct g; reflexivity.
Qed.

Lemma closeFiles_content fds :
  forall o g, content g (fst (closeFiles fds o)) = content g o.
Proof.
  induction fds as [| f fds IH]; intros o g; cbn [closeFiles]; [reflexivity |].
  unfold bindM. pose proof (sysClose_content f o g) as Hc.
  destruct (sysClose f o) as [o1 [[] | e | |]]; cbn [fst] in *; try exact Hc.
  rewrite IH. exact Hc.
Qed.

Lemma writeCheckpointFile_ok o o' :
  writeCheckpointFile o = (o', Ok tt) ->
  forall g, content g o'
            = if decide (g = CheckpointFile) then Some [] else content g o.
Proof.
  unfold writeCheckpointFile, openWritable, sysOpenWritable, bindM, ret.
  intros Heq g.
  destruct (syscall (EvOpenWritable CheckpointFile)
              (set_content CheckpointFile (Some [])) o)
    as [o1 [[] | e | |]] eqn:Hs; try discriminate.
  pose proof (sysClose_content CheckpointFile o1 g) as Hc.
  destruct (sysClose CheckpointFile o1) as [o2 r2]. cbn [fst] in Hc.
  injection Heq as <-. rewrite Hc.
  rewrite (syscall_ok _ _ _ _ Hs g), content_set_content, next_fault_content.
  reflexivity.
Qed.

Lemma on_os_ok {A} (m : M error world A) s s' a :
  on_os m s = (s', Ok a) -> fst s' = fst s /\ m (snd s) = (snd s', Ok a).
Proof.
  unfold on_os. destruct (m (snd s)) as [o1 r1]. intros Heq.
  injection Heq as <- <-. split; reflexivity.
Qed.

Ltac open_bind H s a Hn :=
  apply bindM_ok in H; destruct H as (s & a & Hn & H).

Lemma Close_ok (w : writer) (o : world) (s' : session) :
  Close (w, o) = (s', Ok tt) ->
  exists encoded,
    marshalIndexInfo (mkIndexInfo (start w) (to_int (blockSize w)) (currIdx w))
    = Ok encoded
    /\ fst s' = set_infoBuffer (infoBuffer w ++ encoded) w
    /\ content InfoFile (snd s') = Some (infoBuffer w ++ encoded)
    /\ content CheckpointFile (snd s') = Some []
    /\ content IndexFile (snd s') = content IndexFile o
    /\ content DataFile (snd s') = content DataFile o.
Proof.
  intros HC. unfold Close in HC.
  open_bind HC s1 a1 H1. apply on_os_ok in H1 as [W1 H1].
  open_bind HC s2 w2 H2. unfold the_writer in H2. injection H2 as <- <-.
  open_bind HC s3 encoded H3. unfold lift in H3. injection H3 as <- Henc.
  open_bind HC s4 a4 H4. unfold modify_w, modify in H4. injection H4 as <- _.
  open_bind HC s5 a5 H5. apply on_os_ok in H5 as [W5 H5].
  open_bind HC s6 a6 H6. apply on_os_ok in H6 as [W6 H6].
  apply on_os_ok in HC as [W7 H7].
  destruct a1, a6. cbn [fst snd] in *.
  pose proof (sysTruncate_ok _ _ _ H1) as C1.
  pose proof (sysWrite_content _ _ _ _ _ H5) as C5.
  assert (C6 : forall g, content g (snd s6) = content g (snd s5)).
  { intros g. pose proof (closeFiles_content [InfoFile; IndexFile; DataFile] (snd s5) g) as Hc.
    rewrite H6 in Hc. exact Hc. }
  pose proof (writeCheckpointFile_ok _ _ H7) as C7.
  exists encoded. split; [rewrite W1 in Henc; exact Henc |].
  split; [rewrite W7, W6, W5, W1; reflexivity |].
  assert (Hinfo : bytes_of_file InfoFile (snd s1) = []).
  { unfold bytes_of_file. rewrite C1. reflexivity. }
  rewrite W1 in *.
  repeat split.
  - rewrite C7, C6, C5, Hinfo. reflexivity.
  - rewrite C7. reflexivity.
  - rewrite C7, C6, C5, C1. reflexivity.
  - rewrite C7, C6, C5, C1. reflexivity.
Qed.

(** X11.  A [Close] that returns without an error leaves the info file
    holding the info buffer followed by the marshaled info record (block
    start, block size, number of records) and nothing else, an empty
    checkpoint file, and the index and data files as they were; of the
    writer only the info buffer has changed. *)
Theorem Close_writes_info_and_checkpoint (w : writer) (o : world) (s' : session) :
  Close (w, o) = (s', Ok tt) ->
  exists encoded,
    marshalIndexInfo (mkIndexInfo (start w) (to_int (blockSize w)) (currIdx w))
    = Ok encoded
    /\ fst s' = set_infoBuffer (infoBuffer w ++ encoded) w
    /\ content InfoFile (snd s') = Some (infoBuffer w ++ encoded)
    /\ content CheckpointFile (snd s') = Some []
    /\ content IndexFile (snd s') = content IndexFile o
    /\ content DataFile (snd s') = content DataFile o.
Proof. exact (Close_ok w o s'). Qed.

(** X12.  The info file counts the records.  For a writer that has not
    written yet (record index and offset 0, empty info buffer), appends
    followed by [Close], all without an error, leave an info file that
    holds exactly the marshaled info record whose [Entries] is the number
    of appends that had a payload, with the block start and block size
    of the writer; the index and data files are as the appends left
    them. *)
Theorem Close_after_appends_counts_records
    (w : writer) (o : world) (appends : list (string * list (list Z)))
    (s1 s2 : session) :
  currIdx w = 0 -> currOffset w = 0 -> infoBuffer w = [] ->
  WriteEach appends (w, o) = (s1, Ok tt) ->
  Close s1 = (s2, Ok tt) ->
  framesLen (withPayload appends) < 2 ^ 63 ->
  exists encoded,
    marshalIndexInfo
      (mkIndexInfo (start w) (to_int (blockSize w))
         (Z.of_nat (length (withPayload appends)))) = Ok encoded
    /\ content InfoFile (snd s2) = Some encoded
    /\ content CheckpointFile (snd s2) = Some []
    /\ content IndexFile (snd s2) = content IndexFile (snd s1)
    /\ content DataFile (snd s2) = content DataFile (snd s1).
Proof.
  intros Hi Ho Hb Hrun Hclose Hfr.
  pose proof (framesLen_length (withPayload appends)) as Hcount.
  destruct (WriteEach_ok appends (w, o) s1 Hrun) as (bytes & _ & Hidx & _);
    try (cbn [fst]; lia).
  pose proof (appendedOnly_WriteEach appends (w, o)) as Hkeep.
  rewrite Hrun in Hkeep. destruct Hkeep as (_ & _ & Hbs & Hst & Hib & _).
  cbn [fst snd] in *. destruct s1 as [w1 o1]. cbn [fst snd] in *.
  destruct (Close_ok w1 o1 s2 Hclose) as (encoded & Henc & _ & Hinfo & Hcp & Hix & Hdt).
  exists encoded. rewrite Hbs, Hst, Hidx, Hi in Henc. rewrite Hib, Hb in Hinfo.
  cbn [app] in Hinfo. rewrite Z.add_0_l in Henc.
  repeat split; assumption.
Qed.

(** X13.  Pieces or one piece.  An append given in pieces and the append
    of the pieces joined, from the same state and both without an error,
    leave the same bytes in the data and index files and the same record
    index and offset. *)
Theorem WriteAll_pieces_as_Write_joined
    (key : string) (ds : list (list Z)) (s s1 s2 : session) :
  WriteAll key ds s = (s1, Ok tt) -> Write key (concat ds) s = (s2, Ok tt) ->
  0 <= currIdx (fst s) < 2 ^ 63 - 1 ->
  0 <= currOffset (fst s) ->
  currOffset (fst s) + frameLen ds < 2 ^ 63 ->
  bytes_of_file DataFile (snd s1) = bytes_of_file DataFile (snd s2)
  /\ bytes_of_file IndexFile (snd s1) = bytes_of_file IndexFile (snd s2)
  /\ currIdx (fst s1) = currIdx (fst s2)
  /\ currOffset (fst s1) = currOffset (fst s2).
Proof.
  intros H1 H2 Hi Ho Hfr. unfold Write in H2.
  assert (Hpl : payloadLen [concat ds] = payloadLen ds).
  { cbn [payloadLen foldr]. rewrite slen_concat. lia. }
  assert (Hfl : frameLen [concat ds] = frameLen ds).
  { unfold frameLen. rewrite Hpl. reflexivity. }
  destruct (Z.eq_dec (payloadLen ds) 0) as [Hz | Hnz].
  - rewrite WriteAll_noop in H1 by exact Hz.
    rewrite WriteAll_noop in H2 by (rewrite Hpl; exact Hz).
    injection H1 as <-. injection H2 as <-. repeat split; reflexivity.
  - destruct (WriteAll_ok key ds s s1 H1 Hnz Hi Ho Hfr)
      as (rec1 & Hr1 & A1 & A2 & A3 & A4).
    destruct (WriteAll_ok key [concat ds] s s2 H2) as (rec2 & Hr2 & B1 & B2 & B3 & B4);
      try (rewrite ?Hpl, ?Hfl; assumption).
    rewrite Hpl in Hr2. rewrite Hr1 in Hr2. injection Hr2 as <-.
    rewrite Hfl in B2.
    assert (Hrec : dataRecord (currIdx (fst s)) [concat ds]
                   = dataRecord (currIdx (fst s)) ds).
    { unfold dataRecord. cbn [concat]. rewrite app_nil_r. reflexivity. }
    rewrite Hrec in B3.
    repeat split; congruence.
Qed.

(** ** What [Read] does to the reader *)

(** X14.  [EntriesRead] counts the records returned and nothing else:
    whatever the index buffer and the data file hold, [Read] adds one to
    [entriesRead] when it returns a record and leaves it alone when it
    returns an error or panics; the number of entries and the read
    function are never changed. *)
Theorem Read_counts_records_returned {fd} (r : reader fd) :
  GetEntriesRead (fst (Read r))
  = (if is_ok (snd (Read r)) then to_int (GetEntriesRead r + 1)
     else GetEntriesRead r)
  /\ GetEntries (fst (Read r)) = GetEntries r
  /\ read (fst (Read r)) = read r
  /\ indexSpare (fst (Read r)) = indexSpare r.
Proof.
  destruct r as [rd en er iu sp ce df].
  unfold Read, GetEntriesRead, GetEntries, bindM, modify, get, lift, fail, ret,
    call_read.
  cbn [fst snd indexUnread set_currEntry set_indexUnread indexSpare].
  destruct (DecodeVarint iu) as [size consumed].
  cbn [fst snd indexUnread set_currEntry set_indexUnread indexSpare].
  destruct (consumed <? 1); [repeat split; reflexivity |].
  cbn [fst snd indexUnread set_currEntry set_indexUnread indexSpare].
  destruct (slice_to _ size) as [ied | | |]; try (repeat split; reflexivity).
  destruct (unmarshalIndexEntry ied) as [entry | | |];
    try (repeat split; reflexivity).
  cbn [fst snd indexUnread set_currEntry set_indexUnread indexSpare].
  destruct (slice_from _ size) as [rest | | |]; try (repeat split; reflexivity).
  cbn [fst snd indexUnread set_currEntry set_indexUnread indexSpare].
  destruct (make_bytes _) as [buf | | |]; try (repeat split; reflexivity).
  cbn [read dataFd set_currEntry set_indexUnread set_dataFd].
  destruct (rd df buf) as [rr f'].
  destruct (failure rr); [repeat split; reflexivity |].
  destruct (negb _); [repeat split; reflexivity |].
  destruct (slice_to _ markerLen) as [head | | |]; try (repeat split; reflexivity).
  destruct (negb _); [repeat split; reflexivity |].
  destruct (slice_range _ _ _) as [idxBytes | | |] eqn:Hsr;
    try (repeat split; reflexivity).
  destruct (negb _); [repeat split; reflexivity |].
  cbn [fst snd entriesRead set_entriesRead set_currEntry set_indexUnread set_dataFd].
  (* the slice of the idx was within the buffer, so the payload is too *)
  unfold slice_range in Hsr. unfold slice_from.
  destruct (0 <=? markerLen) eqn:H0; [| discriminate].
  destruct (markerLen <=? markerLen + idxLen) eqn:H1; [| discriminate].
  destruct (markerLen + idxLen <=? slen (overlay buf (stored rr))) eqn:H2;
    [| discriminate].
  assert (H3 : (0 <=? markerLen + idxLen) = true).
  { apply Z.leb_le. apply Z.leb_le in H0, H1. lia. }
  rewrite H3. repeat split; reflexivity.
Qed.

(** X15.  [Read] moves past an index entry before it looks at the data
    file: once the entry is decoded, the index buffer stands behind it and
    [currEntry] holds it, whatever the read of the data file and the
    checks of the record give.  A [Read] that failed on the data file is
    therefore not tried again by calling [Read] again. *)
Theorem Read_consumes_entry_before_data {fd} (r : reader fd)
    (size consumed : Z) (entry : IndexEntry) :
  DecodeVarint (indexUnread r) = (size, consumed) ->
  1 <= consumed ->
  0 <= size <= slen (drop (Z.to_nat consumed) (indexUnread r)) ->
  unmarshalIndexEntry
    (take (Z.to_nat size) (drop (Z.to_nat consumed) (indexUnread r))) = Ok entry ->
  indexUnread (fst (Read r))
  = drop (Z.to_nat size) (drop (Z.to_nat consumed) (indexUnread r))
  /\ currEntry (fst (Read r)) = entry.
Proof.
  intros Hdec Hc Hsize Hun.
  destruct r as [rd en er iu sp ce df]. cbn [indexUnread] in *.
  unfold Read, bindM, modify, get, lift, fail, ret, call_read.
  cbn [fst snd indexUnread set_currEntry set_indexUnread indexSpare].
  rewrite Hdec. destruct (Z.ltb_spec consumed 1); [lia |].
  cbn [fst snd indexUnread set_currEntry set_indexUnread indexSpare].
  rewrite slice_to_ok by (unfold slen in *; rewrite length_app; lia).
  rewrite take_app_le by (unfold slen in *; lia).
  rewrite Hun.
  cbn [fst snd indexUnread set_currEntry set_indexUnread indexSpare].
  rewrite slice_from_ok by lia.
  cbn [fst snd indexUnread set_currEntry set_indexUnread indexSpare].
  destruct (make_bytes _) as [buf | | |]; try (split; reflexivity).
  cbn [read dataFd set_currEntry set_indexUnread set_dataFd].
  destruct (rd df buf) as [rr f'].
  destruct (failure rr); [split; reflexivity |].
  destruct (negb _); [split; reflexivity |].
  destruct (slice_to _ markerLen) as [head | | |]; try (split; reflexivity).
  destruct (negb _); [split; reflexivity |].
  destruct (slice_range _ _ _) as [idxBytes | | |]; try (split; reflexivity).
  destruct (negb _); [split; reflexivity |].
  cbn [fst snd entriesRead set_entriesRead set_currEntry set_indexUnread set_dataFd].
  destruct (slice_from _ _) as [payload | | |]; split; reflexivity.
Qed.

End FsMore.

Section FsMoreRuns.
Import schema Fs Examples.
Local Existing Instance smallCodec.

Lemma key_of_bytes_of_key k : key_of_bytes (bytes_of_key k) = k.
Proof.
  unfold key_of_bytes, bytes_of_key. rewrite map_map.
  rewrite <- (String.string_of_list_ascii_of_string k) at 2. f_equal.
  induction (String.list_ascii_of_string k) as [| a l IH]; [reflexivity |].
  cbn [map]. rewrite IH, N2Z.id, Ascii.ascii_N_embedding. reflexivity.
Qed.

Lemma smallCodec_decodes_what_it_encodes e enc :
  marshalIndexEntry e = Ok enc -> unmarshalIndexEntry enc = Ok e.
Proof.
  cbn [marshalIndexEntry unmarshalIndexEntry smallCodec]. intros Heq.
  injection Heq as <-. cbn [app]. rewrite key_of_bytes_of_key.
  destruct e; reflexivity.
Qed.

Lemma Read_gives_back_what_WriteAll_wrote_witness :
  exists s',
    WriteEach threeAppends (NewWriter 10, quietWorld) = (s', Ok tt)
    /\ exists r',
         ReadEach 2 (openedReader 2 (bytes_of_file IndexFile (snd s')) []
                       (bytes_of_file DataFile (snd s')))
         = (r', Ok [("a"%string, [1; 2; 3]); ("c"%string, [4; 5])])
         /\ GetEntriesRead r' = 2.
Proof.
  exists (fst (WriteEach threeAppends (NewWriter 10, quietWorld))).
  assert (Hrun : WriteEach threeAppends (NewWriter 10, quietWorld)
                 = (fst (WriteEach threeAppends (NewWriter 10, quietWorld)), Ok tt))
    by (vm_compute; reflexivity).
  split; [exact Hrun |].
  assert (Hfr : framesLen (withPayload threeAppends) < 2 ^ 63)
    by (vm_compute; reflexivity).
  assert (Hlen : slen (bytes_of_file IndexFile
                         (snd (fst (WriteEach threeAppends (NewWriter 10, quietWorld)))))
                 < 2 ^ 63) by (vm_compute; reflexivity).
  destruct (Read_gives_back_what_WriteAll_wrote 10 quietWorld threeAppends _ 2 []
              smallCodec_decodes_what_it_encodes Hrun eq_refl eq_refl Hfr Hlen)
    as (r' & Hread & Hcnt & _).
  exists r'. split; [exact Hread | exact Hcnt].
Defined.

Lemma WriteAll_only_appends_witness :
  let s := (NewWriter 10, mkWorld None None None None [] [None; Some (ErrLib 5)]) in
  snd (WriteAll "k" [[1; 2; 3]] s) = Err (ErrLib 5)
  /\ bytes_of_file DataFile (snd (fst (WriteAll "k" [[1; 2; 3]] s))) = marker
  /\ currIdx (fst (fst (WriteAll "k" [[1; 2; 3]] s))) = 0.
Proof.
  cbv zeta. split; [reflexivity |]. split; [reflexivity |].
  apply (proj2 (WriteAll_only_appends "k" [[1; 2; 3]]
                  (NewWriter 10, mkWorld None None None None [] [None; Some (ErrLib 5)]))).
  discriminate.
Defined.

Lemma Close_writes_info_and_checkpoint_witness :
  exists s',
    Close (NewWriter 10, quietWorld) = (s', Ok tt)
    /\ content InfoFile (snd s') = Some [0; 10; 0]
    /\ content CheckpointFile (snd s') = Some [].
Proof.
  exists (fst (Close (NewWriter 10, quietWorld))).
  assert (Hrun : Close (NewWriter 10, quietWorld)
                 = (fst (Close (NewWriter 10, quietWorld)), Ok tt))
    by (vm_compute; reflexivity).
  split; [exact Hrun |].
  destruct (Close_writes_info_and_checkpoint _ _ _ Hrun)
    as (encoded & Henc & _ & Hinfo & Hcp & _).
  injection Henc as <-. split; [exact Hinfo | exact Hcp].
Defined.

Lemma Close_after_appends_counts_records_witness :
  exists s1 s2,
    WriteEach threeAppends (NewWriter 10, quietWorld) = (s1, Ok tt)
    /\ Close s1 = (s2, Ok tt)
    /\ content InfoFile (snd s2) = Some [0; 10; 2].
Proof.
  exists (fst (WriteEach threeAppends (NewWriter 10, quietWorld))).
  exists (fst (Close (fst (WriteEach threeAppends (NewWriter 10, quietWorld))))).
  assert (Hrun : WriteEach threeAppends (NewWriter 10, quietWorld)
                 = (fst (WriteEach threeAppends (NewWriter 10, quietWorld)), Ok tt))
    by (vm_compute; reflexivity).
  assert (Hclose : Close (fst (WriteEach threeAppends (NewWriter 10, quietWorld)))
                   = (fst (Close (fst (WriteEach threeAppends (NewWriter 10, quietWorld)))),
                      Ok tt))
    by (vm_compute; reflexivity).
  assert (Hfr : framesLen (withPayload threeAppends) < 2 ^ 63)
    by (vm_compute; reflexivity).
  split; [exact Hrun |]. split; [exact Hclose |].
  destruct (Close_after_appends_counts_records (NewWriter 10) quietWorld threeAppends
              _ _ eq_refl eq_refl eq_refl Hrun Hclose Hfr)
    as (encoded & Henc & Hinfo & _).
  injection Henc as <-. exact Hinfo.
Defined.

Lemma WriteAll_pieces_as_Write_joined_witness :
  exists s1 s2,
    WriteAll "c" [[4]; [5]] (NewWriter 10, quietWorld) = (s1, Ok tt)
    /\ Write "c" [4; 5] (NewWriter 10, quietWorld) = (s2, Ok tt)
    /\ bytes_of_file DataFile (snd s1) = bytes_of_file DataFile (snd s2)
    /\ trace (snd s1) <> trace (snd s2).
Proof.
  exists (fst (WriteAll "c" [[4]; [5]] (NewWriter 10, quietWorld))).
  exists (fst (Write "c" [4; 5] (NewWriter 10, quietWorld))).
  assert (H1 : WriteAll "c" [[4]; [5]] (NewWriter 10, quietWorld)
               = (fst (WriteAll "c" [[4]; [5]] (NewWriter 10, quietWorld)), Ok tt))
    by (vm_compute; reflexivity).
  assert (H2 : Write "c" (concat [[4]; [5]]) (NewWriter 10, quietWorld)
               = (fst (Write "c" [4; 5] (NewWriter 10, quietWorld)), Ok tt))
    by (vm_compute; reflexivity).
  assert (Hi : 0 <= currIdx (fst (NewWriter 10, quietWorld)) < 2 ^ 63 - 1)
    by (vm_compute; split; [discriminate | reflexivity]).
  assert (Ho : 0 <= currOffset (fst (NewWriter 10, quietWorld)))
    by (vm_compute; discriminate).
  assert (Hfr : currOffset (fst (NewWriter 10, quietWorld)) + frameLen [[4]; [5]]
                < 2 ^ 63) by (vm_compute; reflexivity).
  split; [exact H1 |]. split; [exact H2 |].
  split.
  - exact (proj1 (WriteAll_pieces_as_Write_joined "c" [[4]; [5]] _ _ _ H1 H2 Hi Ho Hfr)).
  - vm_compute. discriminate.
Defined.

Lemma Read_consumes_entry_before_data_witness :
  snd (Read (readerOn [])) = Err EOF
  /\ indexUnread (fst (Read (readerOn []))) = []
  /\ currEntry (fst (Read (readerOn []))) = mkIndexEntry 0 3 0 "k".
Proof.
  split; [reflexivity |].
  assert (Hdec : DecodeVarint (indexUnread (readerOn [])) = (4, 1)) by reflexivity.
  assert (Hc : 1 <= 1) by lia.
  assert (Hs : 0 <= 4 <= slen (drop (Z.to_nat 1) (indexUnread (readerOn []))))
    by (vm_compute; split; discriminate).
  assert (Hun : unmarshalIndexEntry
                  (take (Z.to_nat 4) (drop (Z.to_nat 1) (indexUnread (readerOn []))))
                = Ok (mkIndexEntry 0 3 0 "k")) by reflexivity.
  exact (Read_consumes_entry_before_data (readerOn []) 4 1 _ Hdec Hc Hs Hun).
Defined.

End FsMoreRuns.

(** * More on the protobuf-diff iterator *)

Section DictMore.
Import Proto.
Context `{Env} {Str : Type} `{IStream Str}.
Local Abbreviation iter := (@iterator _ Str).

(** [addToBytesDict] on a dictionary that has room or is not empty. *)
Lemma addToBytesDict_run (it : iter) (fieldIdx : Z) (b : list Z) (d : list (list Z)) :
  0 <= fieldIdx ->
  dictOf fieldIdx it = Some d ->
  slen d < byteFieldDictLRUSize it \/ d <> [] ->
  exists it',
    addToBytesDict fieldIdx b it = (it', Ok tt)
    /\ dictOf fieldIdx it'
       = Some ((if slen d <? byteFieldDictLRUSize it then d else drop 1 d) ++ [b])
    /\ (forall k, 0 <= k -> k <> fieldIdx -> dictOf k it' = dictOf k it)
    /\ byteFieldDictLRUSize it' = byteFieldDictLRUSize it.
Proof.
  intros Hf Hd Hcase. unfold dictOf in Hd.
  destruct (elems (customFields it) !! Z.to_nat fieldIdx) as [c |] eqn:Hc;
    [| discriminate].
  injection Hd as Hd.
  destruct (Z.ltb_spec (slen d) (byteFieldDictLRUSize it)) as [Hroom | Hfull].
  - eexists.
    destruct (dictOf_stored it fieldIdx c (d ++ [b]) Hf Hc) as (D1 & D2 & D3).
    split; [| split; [exact D1 | split; [exact D2 | exact D3]]].
    unfold addToBytesDict, bindM, get, lift, modify.
    rewrite (index_at_lookup _ _ c Hf Hc). rewrite Hd.
    destruct (Z.ltb_spec (slen d) (byteFieldDictLRUSize it)); [| lia].
    rewrite (store_at_lookup _ _ c _ Hf Hc). reflexivity.
  - destruct Hcase as [Hlt | Hne]; [lia |]. eexists.
    destruct (dictOf_stored it fieldIdx c (drop 1 d ++ [b]) Hf Hc) as (D1 & D2 & D3).
    split; [| split; [exact D1 | split; [exact D2 | exact D3]]].
    unfold addToBytesDict, bindM, get, lift, modify.
    rewrite (index_at_lookup _ _ c Hf Hc). rewrite Hd.
    destruct (Z.ltb_spec (slen d) (byteFieldDictLRUSize it)); [lia |].
    destruct d as [| x post]; [contradiction |].
    pose proof (shiftDown_run post [] x) as Hshift.
    change (length (@nil (list Z))) with 0%nat in Hshift.
    change ([] ++ x :: post) with (x :: post) in Hshift.
    change (S (length post)) with (length (x :: post)) in Hshift.
    rewrite Hshift. clear Hshift. cbn [bind].
    change ([] ++ post ++ [default x (last post)])
      with (post ++ [default x (last post)]).
    change (drop 1 (x :: post)) with post.
    replace (slen (post ++ [default x (last post)]) - 1) with (slen post)
      by (rewrite slen_snoc; lia).
    rewrite store_at_middle.
    rewrite (store_at_lookup _ _ c _ Hf Hc). reflexivity.
Qed.

(** X16.  The dictionary of a bytes field never outgrows the size the
    header advertised.  For a dictionary within a size of at least 1,
    [addToBytesDict] returns, the new value is the last entry, the
    dictionary is still within the size, every entry is the new value or
    was there before, and no entry but the oldest one is lost. *)
Theorem addToBytesDict_keeps_within_LRU_size
    (it : iter) (fieldIdx : Z) (b : list Z) (d : list (list Z)) :
  0 <= fieldIdx ->
  dictOf fieldIdx it = Some d ->
  slen d <= byteFieldDictLRUSize it ->
  1 <= byteFieldDictLRUSize it ->
  exists it' d',
    addToBytesDict fieldIdx b it = (it', Ok tt)
    /\ dictOf fieldIdx it' = Some d'
    /\ byteFieldDictLRUSize it' = byteFieldDictLRUSize it
    /\ slen d' <= byteFieldDictLRUSize it'
    /\ last d' = Some b
    /\ (forall x, x ∈ d' -> x = b \/ x ∈ d)
    /\ (forall x, x ∈ drop 1 d -> x ∈ d').
Proof.
  intros Hf Hd Hlen Hsize.
  assert (Hcase : slen d < byteFieldDictLRUSize it \/ d <> []).
  { destruct d; [left; unfold slen; simpl; lia | right; discriminate]. }
  destruct (addToBytesDict_run it fieldIdx b d Hf Hd Hcase) as (it' & Hrun & Hd' & _ & Hl).
  exists it'. eexists. split; [exact Hrun |]. split; [exact Hd' |].
  split; [exact Hl |]. rewrite Hl.
  destruct (Z.ltb_spec (slen d) (byteFieldDictLRUSize it)) as [Hroom | Hfull].
  - repeat split.
    + rewrite slen_snoc. lia.
    + apply last_snoc.
    + intros x Hx. apply elem_of_app in Hx as [Hx | Hx]; [right; exact Hx |].
      left. apply list_elem_of_singleton in Hx. exact Hx.
    + intros x Hx. apply elem_of_app. left.
      destruct d; [exact Hx | right; exact Hx].
  - repeat split.
    + rewrite slen_snoc. unfold slen in *. rewrite length_drop.
      destruct d; simpl in *; lia.
    + apply last_snoc.
    + intros x Hx. apply elem_of_app in Hx as [Hx | Hx].
      * right. destruct d; [exact Hx | right; exact Hx].
      * left. apply list_elem_of_singleton in Hx. exact Hx.
    + intros x Hx. apply elem_of_app. left. exact Hx.
Qed.

(** X17.  [moveToEndOfBytesDict] loses and adds nothing: for an index
    that is not negative the dictionary afterwards is a rearrangement of
    the one before, and for the last index or an index beyond it nothing
    is moved at all. *)
Theorem moveToEndOfBytesDict_rearranges
    (it : iter) (fieldIdx i : Z) (d : list (list Z)) :
  0 <= fieldIdx ->
  dictOf fieldIdx it = Some d ->
  0 <= i ->
  slen d < 2 ^ 63 ->
  exists it' d',
    moveToEndOfBytesDict fieldIdx i it = (it', Ok tt)
    /\ dictOf fieldIdx it' = Some d'
    /\ d' ≡ₚ d
    /\ (slen d <= i + 1 -> d' = d)
    /\ byteFieldDictLRUSize it' = byteFieldDictLRUSize it.
Proof.
  intros Hf Hd Hi Hlen. unfold dictOf in Hd.
  destruct (elems (customFields it) !! Z.to_nat fieldIdx) as [c |] eqn:Hc;
    [| discriminate].
  injection Hd as Hd.
  assert (Hrun : exists d',
             moveToEndLoop (S (length (iteratorBytesFieldDict c))) i
               (iteratorBytesFieldDict c) = Ok d'
             /\ d' ≡ₚ d /\ (slen d <= i + 1 -> d' = d)).
  { rewrite Hd. destruct (Z.lt_ge_cases i (slen d)) as [Hin | Hout].
    - destruct (lookup_lt_is_Some_2 d (Z.to_nat i)) as [x Hx];
        [unfold slen in Hin; lia |].
      destruct (split_at d (Z.to_nat i) x Hx) as [Hsplit Hpre].
      exists (take (Z.to_nat i) d ++ drop (S (Z.to_nat i)) d ++ [x]).
      split; [| split].
      + remember (take (Z.to_nat i) d) as pre eqn:Epre.
        remember (drop (S (Z.to_nat i)) d) as post eqn:Epost.
        assert (Hip : i = slen pre) by (unfold slen; lia).
        clear Epre Epost Hx. subst d. rewrite Hip. rewrite Hsplit in Hlen |- *.
        apply moveToEndLoop_run; [| exact Hlen].
        rewrite length_app. simpl. lia.
      + rewrite Hsplit at 3. apply Permutation_app_head.
        symmetry. apply Permutation_cons_append.
      + intros Hlast. rewrite Hsplit at 3. f_equal.
        rewrite drop_ge by (unfold slen in *; lia). reflexivity.
    - exists d. split; [| split; [reflexivity | reflexivity]].
      cbn [moveToEndLoop]. destruct (Z.ltb_spec i (slen d)); [lia | reflexivity]. }
  destruct Hrun as (d' & Hrun & Hperm & Hsame).
  exists (set_customFields
            (Some (<[Z.to_nat fieldIdx := set_dict d' c]> (elems (customFields it)))) it).
  exists d'.
  destruct (dictOf_stored it fieldIdx c d' Hf Hc) as (D1 & _ & D3).
  split; [| split; [exact D1 | split; [exact Hperm | split; [exact Hsame | exact D3]]]].
  unfold moveToEndOfBytesDict, bindM, get, lift, modify.
  rewrite (index_at_lookup _ _ c Hf Hc). rewrite Hrun.
  rewrite (store_at_lookup _ _ c _ Hf Hc). reflexivity.
Qed.

End DictMore.

(** ** What the header and the bitset leave in the iterator *)

Section HeaderMore.
Import Proto.
Context `{Env} {Str : Type} `{IStream Str}.
Local Abbreviation iter := (@iterator _ Str).

Lemma to_int_range x : - 2 ^ 63 <= to_int x < 2 ^ 63.
Proof.
  unfold to_int, wrap_s. change (2 ^ (64 - 1)) with (2 ^ 63).
  pose proof (Z.mod_pos_bound (x + 2 ^ 63) (2 ^ 64)). lia.
Qed.

Lemma set_stream_same (it : iter) : set_stream (stream it) it = it.
Proof. destruct it; reflexivity. Qed.

(** A call on the stream changes the stream and nothing else. *)
Lemma on_stream_moves {A} (mk : io_error -> error) (op : Str -> res io_error (A * Str))
    (it : iter) :
  exists s, fst (on_stream mk op it) = set_stream s it.
Proof.
  unfold on_stream. destruct (op (stream it)) as [[a s] | e | |]; cbn [fst].
  - exists s. reflexivity.
  - exists (stream it). symmetry. apply set_stream_same.
  - exists (stream it). symmetry. apply set_stream_same.
  - exists (stream it). symmetry. apply set_stream_same.
Qed.

Lemma readVarIntBytes_moves (fuel : nat) :
  forall buf (it : iter), exists s, fst (readVarIntBytes fuel buf it) = set_stream s it.
Proof.
  induction fuel as [| fuel IH]; intros buf it; cbn [readVarIntBytes].
  - exists (stream it). unfold lift. symmetry. apply set_stream_same.
  - unfold bindM. destruct (on_stream_moves ErrReadingVarInt ReadByte it) as [s Hs].
    destruct (on_stream ErrReadingVarInt ReadByte it) as [it1 [b | e | |]];
      cbn [fst] in *; try (exists s; exact Hs).
    destruct (Z.shiftr b 7 =? 0).
    + exists s. exact Hs.
    + destruct (IH (buf ++ [b]) it1) as [s' Hs']. exists s'. rewrite Hs', Hs.
      reflexivity.
Qed.

Lemma readVarInt_moves (fuel : nat) (it : iter) :
  exists s, fst (readVarInt fuel it) = set_stream s it.
Proof.
  unfold readVarInt, bindM, ret.
  destruct (readVarIntBytes_moves fuel [] it) as [s Hs].
  destruct (readVarIntBytes fuel [] it) as [it1 [b | e | |]]; cbn [fst] in *;
    exists s; exact Hs.
Qed.

(** The loop of [readBitset]: what it appends is ascending and above the
    bit index it started at. *)
Lemma readBitsetBits_ascending (fuel : nat) :
  forall (i n : Z) (it it' : iter),
    readBitsetBits fuel i n it = (it', Ok tt) ->
    0 <= i -> i + Z.of_nat fuel < 2 ^ 63 ->
    exists s l,
      it' = set_bitsetValues (bitsetValues it ++ l) (set_stream s it)
      /\ Forall (fun v => i + 1 <= v) l
      /\ StronglySorted Z.lt l.
Proof.
  induction fuel as [| fuel IH]; intros i n it it' Hrun Hi Hb.
  - cbn [readBitsetBits] in Hrun. destruct (i <? n); [discriminate |].
    injection Hrun as <-. exists (stream it), []. rewrite app_nil_r.
    split; [destruct it; reflexivity | split; constructor].
  - cbn [readBitsetBits] in Hrun. destruct (i <? n).
    2:{ injection Hrun as <-. exists (stream it), []. rewrite app_nil_r.
        split; [destruct it; reflexivity | split; constructor]. }
    apply bindM_ok in Hrun as (it1 & b & Hbit & Hrun).
    apply bindM_ok in Hrun as (it2 & [] & Hadd & Hrun).
    destruct (on_stream_moves ErrBitsetBit ReadBit it) as [s1 Hs1].
    rewrite Hbit in Hs1. cbn [fst] in Hs1. subst it1.
    rewrite (to_uint_small (i + 1)) in Hrun by lia.
    rewrite (to_int_small i), (to_int_small (i + 1)) in Hadd by lia.
    destruct (IH (i + 1) n it2 it' Hrun) as (s & l & Hit' & Hall & Hsorted);
      [lia | lia |].
    assert (Hup : Forall (fun v => i + 1 <= v) l).
    { eapply Forall_impl; [exact Hall |]. intros v Hv. simpl in Hv. lia. }
    destruct (b =? opCodeBitsetValueIsSet).
    + unfold modify in Hadd. injection Hadd as <-.
      exists s, ((i + 1) :: l). split; [| split].
      * rewrite Hit'. destruct it. cbn. rewrite <- app_assoc. reflexivity.
      * constructor; [lia | exact Hup].
      * constructor; [exact Hsorted |].
        eapply Forall_impl; [exact Hall |]. intros v Hv. simpl in Hv. lia.
    + unfold ret in Hadd. injection Hadd as <-.
      exists s, l. split; [| split; assumption].
      rewrite Hit'. destruct it. reflexivity.
Qed.

(** X18.  [readBitset] answers field numbers in ascending order: after a
    run of fewer than 2^63 steps [bitsetValues] holds numbers from 1 up,
    each greater than the one before, so no number twice; what it held
    before is gone; the last message and the custom fields are not
    touched. *)
Theorem readBitset_gives_ascending_field_numbers (fuel : nat) (it it' : iter) :
  readBitset fuel it = (it', Ok tt) ->
  Z.of_nat fuel < 2 ^ 63 ->
  StronglySorted Z.lt (bitsetValues it')
  /\ Forall (fun v => 1 <= v) (bitsetValues it')
  /\ lastIterated it' = lastIterated it
  /\ customFields it' = customFields it
  /\ byteFieldDictLRUSize it' = byteFieldDictLRUSize it.
Proof.
  intros Hrun Hfuel. unfold readBitset in Hrun.
  apply bindM_ok in Hrun as (it1 & [] & Hreset & Hrun).
  unfold modify in Hreset. injection Hreset as <-.
  apply bindM_ok in Hrun as (it2 & n & Hlen & Hrun).
  destruct (readVarInt_moves fuel (set_bitsetValues [] it)) as [s1 Hs1].
  rewrite Hlen in Hs1. cbn [fst] in Hs1. subst it2.
  destruct (readBitsetBits_ascending fuel 0 n _ it' Hrun) as (s & l & Hit' & Hall & Hsorted);
    [lia | lia |].
  subst it'. destruct it. cbn. repeat split; assumption.
Qed.

(** The loop of [readCustomFieldsSchema]: the states it appends are new,
    of a custom type, and ascending in their field number. *)
Lemma readFieldTypes_ascending (fuel : nat) :
  forall (i maxNum : Z) (it it' : iter) (cs0 : list customFieldState),
    readFieldTypes fuel i maxNum it = (it', Ok tt) ->
    customFields it = Some cs0 ->
    1 <= i -> i + Z.of_nat fuel < 2 ^ 63 ->
    exists s l,
      it' = set_customFields (Some (cs0 ++ l)) (set_stream s it)
      /\ Forall (fun c => i <= fieldNum c
                          /\ fieldType c <> cNotCustomEncoded
                          /\ c = newCustomFieldState (fieldNum c) (fieldType c)) l
      /\ StronglySorted (fun a b => fieldNum a < fieldNum b) l.
Proof.
  induction fuel as [| fuel IH]; intros i maxNum it it' cs0 Hrun Hcs Hi Hb.
  - cbn [readFieldTypes] in Hrun. destruct (i <=? to_int maxNum); [discriminate |].
    injection Hrun as <-. exists (stream it), []. rewrite app_nil_r.
    split; [destruct it; cbn in *; subst; reflexivity | split; constructor].
  - cbn [readFieldTypes] in Hrun. destruct (i <=? to_int maxNum).
    2:{ injection Hrun as <-. exists (stream it), []. rewrite app_nil_r.
        split; [destruct it; cbn in *; subst; reflexivity | split; constructor]. }
    apply bindM_ok in Hrun as (it1 & bits & Hbits & Hrun).
    apply bindM_ok in Hrun as (it2 & [] & Hadd & Hrun).
    destruct (on_stream_moves ErrStream (ReadBits 3) it) as [s1 Hs1].
    rewrite Hbits in Hs1. cbn [fst] in Hs1. subst it1.
    rewrite (to_int_small (i + 1)) in Hrun by lia.
    destruct (to_int bits =? cNotCustomEncoded) eqn:Htype.
    + unfold ret in Hadd. injection Hadd as <-.
      destruct (IH (i + 1) maxNum _ it' cs0 Hrun) as (s & l & Hit' & Hall & Hsorted);
        [destruct it; exact Hcs | lia | lia |].
      exists s, l. split; [| split].
      * rewrite Hit'. destruct it. reflexivity.
      * eapply Forall_impl; [exact Hall |]. intros c (Hc1 & Hc2 & Hc3).
        repeat split; [lia | assumption | assumption].
      * exact Hsorted.
    + unfold modify in Hadd. injection Hadd as <-.
      set (c0 := newCustomFieldState i (to_int bits)) in *.
      destruct (IH (i + 1) maxNum _ it' (cs0 ++ [c0]) Hrun)
        as (s & l & Hit' & Hall & Hsorted);
        [destruct it; cbn in *; subst; reflexivity | lia | lia |].
      exists s, (c0 :: l). split; [| split].
      * rewrite Hit'. destruct it. cbn. rewrite <- app_assoc. reflexivity.
      * constructor.
        -- split; [cbn; lia |]. split; [| reflexivity].
           cbn. apply Z.eqb_neq. exact Htype.
        -- eapply Forall_impl; [exact Hall |]. intros c (Hc1 & Hc2 & Hc3).
           repeat split; [lia | assumption | assumption].
      * constructor; [exact Hsorted |].
        eapply Forall_impl; [exact Hall |]. intros c (Hc1 & _). cbn. lia.
Qed.

Lemma readCustomFieldsSchema_ok (fuel : nat) (it it' : iter) :
  readCustomFieldsSchema fuel it = (it', Ok tt) ->
  Z.of_nat fuel < 2 ^ 63 - 1 ->
  exists cs,
    customFields it' = Some cs
    /\ StronglySorted (fun a b => fieldNum a < fieldNum b) cs
    /\ Forall (fun c => 1 <= fieldNum c
                        /\ fieldType c <> cNotCustomEncoded
                        /\ c = newCustomFieldState (fieldNum c) (fieldType c)) cs
    /\ lastIterated it' = lastIterated it
    /\ schema it' = schema it
    /\ byteFieldDictLRUSize it' = byteFieldDictLRUSize it
    /\ bitsetValues it' = bitsetValues it
    /\ consumedFirstMessage it' = consumedFirstMessage it.
Proof.
  intros Hrun Hfuel. unfold readCustomFieldsSchema in Hrun.
  apply bindM_ok in Hrun as (it1 & maxNum & Hmax & Hrun).
  destruct (readVarInt_moves fuel it) as [s1 Hs1].
  rewrite Hmax in Hs1. cbn [fst] in Hs1. subst it1.
  rewrite Z.ltb_irrefl in Hrun.
  apply bindM_ok in Hrun as (it2 & it2' & Hget & Hrun).
  unfold get in Hget. injection Hget as <- <-.
  apply bindM_ok in Hrun as (it3 & [] & Hreset & Hrun).
  assert (Hit3 : it3 = set_customFields (Some []) (set_stream s1 it)).
  { destruct ((maxNum <=? maxTSZFieldsCapacityRetain)
              && bool_decide (customFields (set_stream s1 it) ≠ None)).
    - unfold modify in Hreset. injection Hreset as <-. reflexivity.
    - destruct (canMake maxNum); [| discriminate].
      unfold modify in Hreset. injection Hreset as <-. reflexivity. }
  subst it3.
  destruct (readFieldTypes_ascending fuel 1 maxNum _ it' [] Hrun)
    as (s & l & Hit' & Hall & Hsorted); [destruct it; reflexivity | lia | lia |].
  exists l. subst it'. destruct it. cbn. repeat split; assumption.
Qed.

(** X19.  [readCustomFieldsSchema] starts the custom fields afresh: after
    a run of fewer than 2^63 - 1 steps the custom fields are states as
    [newCustomFieldState] makes them, none of the type that is not
    custom encoded, with field numbers from 1 up in ascending order;
    whatever custom fields the iterator had before are gone, and the last
    message, the schema, the dictionary size and the bitset values are not
    touched. *)
Theorem readCustomFieldsSchema_gives_fresh_ascending_fields
    (fuel : nat) (it it' : iter) :
  readCustomFieldsSchema fuel it = (it', Ok tt) ->
  Z.of_nat fuel < 2 ^ 63 - 1 ->
  exists cs,
    customFields it' = Some cs
    /\ StronglySorted (fun a b => fieldNum a < fieldNum b) cs
    /\ Forall (fun c => 1 <= fieldNum c
                        /\ fieldType c <> cNotCustomEncoded
                        /\ c = newCustomFieldState (fieldNum c) (fieldType c)) cs
    /\ lastIterated it' = lastIterated it
    /\ schema it' = schema it
    /\ byteFieldDictLRUSize it' = byteFieldDictLRUSize it
    /\ bitsetValues it' = bitsetValues it
    /\ consumedFirstMessage it' = consumedFirstMessage it.
Proof. exact (readCustomFieldsSchema_ok fuel it it'). Qed.

(** X20.  [readHeader] takes three varints and the field types from the
    stream and changes the dictionary size and the custom fields only:
    the last message, the schema and the bitset values are as before, and
    the custom fields are new states in ascending order of their field
    number, whatever the version number at the front of the header
    was. *)
Theorem readHeader_changes_size_and_custom_fields_only
    (fuel : nat) (it it' : iter) :
  readHeader fuel it = (it', Ok tt) ->
  Z.of_nat fuel < 2 ^ 63 - 1 ->
  exists cs,
    customFields it' = Some cs
    /\ StronglySorted (fun a b => fieldNum a < fieldNum b) cs
    /\ Forall (fun c => c = newCustomFieldState (fieldNum c) (fieldType c)) cs
    /\ lastIterated it' = lastIterated it
    /\ schema it' = schema it
    /\ consumedFirstMessage it' = consumedFirstMessage it
    /\ bitsetValues it' = bitsetValues it
    /\ - 2 ^ 63 <= byteFieldDictLRUSize it' < 2 ^ 63.
Proof.
  intros Hrun Hfuel. unfold readHeader in Hrun.
  apply bindM_ok in Hrun as (it1 & version & Hver & Hrun).
  destruct (readVarInt_moves fuel it) as [s1 Hs1].
  rewrite Hver in Hs1. cbn [fst] in Hs1. subst it1.
  apply bindM_ok in Hrun as (it2 & size & Hsize & Hrun).
  destruct (readVarInt_moves fuel (set_stream s1 it)) as [s2 Hs2].
  rewrite Hsize in Hs2. cbn [fst] in Hs2. subst it2.
  apply bindM_ok in Hrun as (it3 & [] & Hset & Hrun).
  unfold modify in Hset. injection Hset as <-.
  destruct (readCustomFieldsSchema_ok fuel _ it' Hrun Hfuel)
    as (cs & Hcs & Hsorted & Hall & Hlast & Hschema & Hlru & Hbits & Hfirst).
  exists cs. split; [exact Hcs |]. split; [exact Hsorted |].
  split.
  { eapply Forall_impl; [exact Hall |]. intros c (_ & _ & Hc). exact Hc. }
  rewrite Hlast, Hschema, Hbits, Hlru, Hfirst.
  cbn [lastIterated schema consumedFirstMessage bitsetValues byteFieldDictLRUSize
       set_stream].
  repeat split; try reflexivity; apply to_int_range.
Qed.

End HeaderMore.

(** ** What a record's diff does before it is merged *)

Section DiffMore.
Import Proto.
Context `{Env} {Str : Type} `{IStream Str}.
Local Abbreviation iter := (@iterator _ Str).

(** From [it] to [it'] only the stream and the bitset values may have
    changed. *)
Local Abbreviation kept it it' :=
  (schema it' = schema it
   /\ consumedFirstMessage it' = consumedFirstMessage it
   /\ lastIterated it' = lastIterated it
   /\ byteFieldDictLRUSize it' = byteFieldDictLRUSize it
   /\ customFields it' = customFields it).

Local Abbreviation calm m := (forall it : iter, kept it (fst (m it))).

Lemma calm_bind {A B} (m : M error iter A) (k : A -> M error iter B) :
  calm m -> (forall a, calm (k a)) -> calm (bindM m k).
Proof.
  intros Hm Hk it. unfold bindM. pose proof (Hm it) as Hit.
  destruct (m it) as [it1 [a | e | |]]; cbn [fst] in *; try exact Hit.
  pose proof (Hk a it1) as Hit1.
  destruct Hit as (A1 & A2 & A3 & A4 & A5), Hit1 as (B1 & B2 & B3 & B4 & B5).
  repeat split; congruence.
Qed.

Lemma calm_ret {A} (a : A) : calm (ret (E := error) a).
Proof. intros it. repeat split; reflexivity. Qed.

Lemma calm_fail {A} (e : error) : calm (fail (A := A) e).
Proof. intros it. repeat split; reflexivity. Qed.

Lemma calm_lift {A} (x : res error A) : calm (lift x).
Proof. intros it. repeat split; reflexivity. Qed.

Lemma calm_get : calm (get (E := error) (S := iter)).
Proof. intros it. repeat split; reflexivity. Qed.

Lemma calm_from_lib {A} (mk : Z -> error) (x : res Z A) : calm (from_lib mk x).
Proof. intros it. unfold from_lib. destruct x; repeat split; reflexivity. Qed.

Lemma calm_on_stream {A} (mk : io_error -> error) (op : Str -> res io_error (A * Str)) :
  calm (on_stream mk op).
Proof.
  intros it. unfold on_stream.
  destruct (op (stream it)) as [[a s] | e | |]; repeat split; reflexivity.
Qed.

Lemma calm_wrap_err {A} (mk : error -> error) (m : M error iter A) :
  calm m -> calm (wrap_err mk m).
Proof.
  intros Hm it. unfold wrap_err. pose proof (Hm it) as Hit.
  destruct (m it) as [it1 [a | e | |]]; exact Hit.
Qed.

Lemma calm_set_bitsetValues (f : iter -> list Z) :
  calm (modify (E := error) (fun it => set_bitsetValues (f it) it)).
Proof. intros it. repeat split; reflexivity. Qed.

Lemma calm_readVarIntBytes (fuel : nat) : forall buf, calm (readVarIntBytes fuel buf).
Proof.
  induction fuel as [| fuel IH]; intros buf; cbn [readVarIntBytes].
  - apply calm_lift.
  - apply calm_bind; [apply calm_on_stream |]. intros b.
    destruct (Z.shiftr b 7 =? 0); [apply calm_ret | apply IH].
Qed.

Lemma calm_readVarInt (fuel : nat) : calm (readVarInt fuel).
Proof.
  unfold readVarInt. apply calm_bind; [apply calm_readVarIntBytes |].
  intros buf. apply calm_ret.
Qed.

Lemma calm_readBitsetBits (fuel : nat) : forall i n, calm (readBitsetBits fuel i n).
Proof.
  induction fuel as [| fuel IH]; intros i n; cbn [readBitsetBits].
  - destruct (i <? n); [apply calm_lift | apply calm_ret].
  - destruct (i <? n); [| apply calm_ret].
    apply calm_bind; [apply calm_on_stream |]. intros b.
    apply calm_bind; [| intros _; apply IH].
    destruct (b =? opCodeBitsetValueIsSet); [| apply calm_ret].
    apply (calm_set_bitsetValues (fun it => bitsetValues it ++ [to_int (to_int i + 1)])).
Qed.

Lemma calm_readBitset (fuel : nat) : calm (readBitset fuel).
Proof.
  unfold readBitset.
  apply calm_bind; [intros it; repeat split; reflexivity |]. intros _.
  apply calm_bind; [apply calm_readVarInt |]. intros n.
  apply calm_readBitsetBits.
Qed.

Lemma calm_readProtoDiff (fuel : nat) : calm (readProtoDiff fuel).
Proof.
  unfold readProtoDiff.
  apply calm_bind; [apply calm_on_stream |]. intros b1.
  destruct (b1 =? opCodeNoChange); [apply calm_ret |].
  apply calm_bind; [apply calm_on_stream |]. intros b2.
  apply calm_bind.
  { destruct (b2 =? opCodeFieldsSetToDefaultProtoMarshal);
      [apply calm_wrap_err, calm_readBitset | apply calm_ret]. }
  intros _.
  apply calm_bind; [apply calm_wrap_err, calm_readVarInt |]. intros marshalLen.
  destruct (maxMarshaledProtoMessageSize <? marshalLen); [apply calm_fail |].
  apply calm_bind; [apply calm_on_stream |]. intros [unmarshalBytes n].
  destruct (negb (n =? to_int marshalLen)); [apply calm_fail |].
  apply calm_bind; [apply calm_get |]. intros it0.
  apply calm_bind; [apply calm_lift |]. intros md.
  apply calm_bind; [apply calm_from_lib |]. intros vs.
  apply calm_ret.
Qed.

Lemma lift_err {A} (x : res error A) (it it' : iter) e :
  lift x it = (it', Err e) -> x = Err e.
Proof. unfold lift. intros Heq. injection Heq as _ ->. reflexivity. Qed.

Lemma from_lib_err {A} (mk : Z -> error) (x : res Z A) (it it' : iter) e :
  from_lib mk x it = (it', Err e) -> exists c, e = mk c.
Proof.
  unfold from_lib. destruct x as [a | c | |]; intros Heq; try discriminate.
  injection Heq as _ <-. exists c. reflexivity.
Qed.

Lemma mergeKnownFields_err (m : Message) (fields : list FieldDescriptor) :
  forall (it it' : iter) e,
    mergeKnownFields m fields it = (it', Err e) -> fromMerge e = true.
Proof.
  induction fields as [| f rest IH]; intros it it' e Hrun; cbn [mergeKnownFields] in Hrun.
  - discriminate.
  - destruct (bool_decide (GetMessageType f = None) && negb (IsRepeated f));
      [exact (IH _ _ _ Hrun) |].
    apply bindM_err in Hrun as [Hv | (it1 & curVal & _ & Hrun)].
    { apply lift_err in Hv. unfold valueByNumber in Hv.
      destruct (FindFieldDescriptor m (GetNumber f)); discriminate. }
    apply bindM_err in Hrun as [Hd | (it2 & isDefault & _ & Hrun)].
    { apply from_lib_err in Hd as [c ->]. reflexivity. }
    destruct isDefault; [exact (IH _ _ _ Hrun) |].
    apply bindM_err in Hrun as [Hg | (it3 & it3' & _ & Hrun)]; [discriminate |].
    apply bindM_err in Hrun as [Hs | (it4 & last & _ & Hrun)].
    { apply lift_err in Hs. unfold setByNumber in Hs.
      destruct (FindFieldDescriptor (lastIterated it3') (GetNumber f)); discriminate. }
    apply bindM_err in Hrun as [Hm | (it5 & [] & _ & Hrun)]; [discriminate |].
    exact (IH _ _ _ Hrun).
Qed.

Lemma clearFields_err (nums : list Z) :
  forall (it it' : iter) e, clearFields nums it = (it', Err e) -> fromMerge e = true.
Proof.
  induction nums as [| n rest IH]; intros it it' e Hrun; cbn [clearFields] in Hrun.
  - discriminate.
  - apply bindM_err in Hrun as [Hg | (it1 & it1' & _ & Hrun)]; [discriminate |].
    apply bindM_err in Hrun as [Hc | (it2 & last & _ & Hrun)].
    { apply from_lib_err in Hc as [c ->]. reflexivity. }
    apply bindM_err in Hrun as [Hm | (it3 & [] & _ & Hrun)]; [discriminate |].
    exact (IH _ _ _ Hrun).
Qed.

(** X21.  The last message is safe until the diff of a record has been
    read and unmarshaled: reading the control bits, the bitset, the length
    and the bytes of the diff changes the stream and the bitset values
    only, so when [readProtoValues] returns an error that was not made
    while merging or clearing fields (a stream error, a message that is
    too large or too short, a failed unmarshal), the last message, the
    custom fields and the dictionary size are what they were before the
    call. *)
Theorem readProtoValues_keeps_last_message_until_merge (fuel : nat) (it : iter) :
  (lastIterated (fst (readProtoDiff fuel it)) = lastIterated it
   /\ customFields (fst (readProtoDiff fuel it)) = customFields it
   /\ byteFieldDictLRUSize (fst (readProtoDiff fuel it)) = byteFieldDictLRUSize it)
  /\ (forall it' e,
         readProtoValues fuel it = (it', Err e) ->
         fromMerge e = false ->
         lastIterated it' = lastIterated it
         /\ customFields it' = customFields it
         /\ byteFieldDictLRUSize it' = byteFieldDictLRUSize it).
Proof.
  pose proof (calm_readProtoDiff fuel it) as (_ & _ & K3 & K4 & K5).
  split; [repeat split; assumption |].
  intros it' e Hrun Hnot. unfold readProtoValues in Hrun.
  apply bindM_err in Hrun as [Hd | (it1 & diff & Hd & Hrun)].
  - rewrite Hd in K3, K4, K5. cbn [fst] in *. repeat split; assumption.
  - exfalso. destruct diff as [[flag m] |]; [| discriminate].
    apply bindM_err in Hrun as [Hm | (it2 & [] & _ & Hrun)].
    + apply mergeKnownFields_err in Hm. congruence.
    + destruct (flag =? 1); [| discriminate].
      apply bindM_err in Hrun as [Hg | (it3 & it3' & _ & Hrun)]; [discriminate |].
      apply clearFields_err in Hrun. congruence.
Qed.

End DiffMore.

(** ** Integer fields *)

Lemma to_uint_sub_wrap p d : to_uint (to_uint p - to_uint d) = to_uint (p - d).
Proof. unfold to_uint, wrap_u. rewrite <- Zminus_mod. reflexivity. Qed.

Lemma to_uint_add_wrap p d : to_uint (to_uint p + to_uint d) = to_uint (p + d).
Proof. unfold to_uint, wrap_u. rewrite <- Zplus_mod. reflexivity. Qed.

Lemma to_uint_to_int x : to_uint (to_int x) = to_uint x.
Proof.
  unfold to_uint, to_int, wrap_u, wrap_s. change (2 ^ (64 - 1)) with (2 ^ 63).
  Z.div_mod_to_equations. lia.
Qed.

(** Signed arithmetic on the bits of a number is unsigned arithmetic. *)
Lemma signed_as_unsigned sign p d :
  to_uint (to_int (to_int p + to_int (sign * to_int d))) = to_uint (p + sign * d).
Proof.
  rewrite to_uint_to_int.
  rewrite <- to_uint_add_wrap, !to_uint_to_int, to_uint_add_wrap.
  unfold to_uint, wrap_u.
  rewrite (Zplus_mod p (sign * to_int d)), (Zplus_mod p (sign * d)).
  f_equal. f_equal.
  rewrite (Zmult_mod sign (to_int d)), (Zmult_mod sign d). f_equal. f_equal.
  exact (to_uint_to_int d).
Qed.

Section IntMore.
Import Proto.
Context `{Env} {Str : Type} `{IStream Str} `{IntCodes}.
Local Abbreviation iter := (@iterator _ Str).

Lemma customFieldOf_stored (it : iter) (s : Str) (i : Z) (c c' : customFieldState) :
  0 <= i ->
  customFieldOf i it = Some c ->
  let it' :=
    set_customFields (Some (<[Z.to_nat i := c']> (elems (customFields it))))
      (set_stream s it) in
  customFieldOf i it' = Some c'
  /\ (forall k, 0 <= k -> k <> i -> customFieldOf k it' = customFieldOf k it)
  /\ stream it' = s
  /\ lastIterated it' = lastIterated it
  /\ byteFieldDictLRUSize it' = byteFieldDictLRUSize it.
Proof.
  intros Hi Hc. unfold customFieldOf in *. simpl. apply lookup_lt_Some in Hc as Hlt.
  split; [| split; [| repeat split]].
  - rewrite list_lookup_insert_eq by exact Hlt. reflexivity.
  - intros k Hk Hne. rewrite list_lookup_insert_ne by lia. reflexivity.
Qed.

(** X22.  One rule for signed and unsigned fields.  [readIntValDiff]
    takes the sign bit and [NumSig] bits of difference from the stream and
    leaves in the field the 64 bits of the previous value minus the
    difference when the sign bit says negative, plus the difference
    otherwise, whether the field is of the unsigned type or not: the
    signed branch and the unsigned branch store the same bits.  No other
    field and nothing else of the field is changed. *)
Theorem readIntValDiff_adds_or_subtracts_mod_2_64
    (it : iter) (i : Z) (c : customFieldState) (bit diff : Z) (s1 s2 : Str) :
  0 <= i ->
  customFieldOf i it = Some c ->
  ReadBit (stream it) = Ok (bit, s1) ->
  ReadBits (NumSig c) s1 = Ok (diff, s2) ->
  exists it',
    readIntValDiff i it = (it', Ok tt)
    /\ customFieldOf i it'
       = Some (set_prevFloatBits
                 (to_uint (if bit =? opCodeIntDeltaNegative
                           then prevFloatBits c - diff
                           else prevFloatBits c + diff)) c)
    /\ (forall k, 0 <= k -> k <> i -> customFieldOf k it' = customFieldOf k it)
    /\ stream it' = s2
    /\ lastIterated it' = lastIterated it
    /\ byteFieldDictLRUSize it' = byteFieldDictLRUSize it.
Proof.
  intros Hi Hc Hbit Hdiff.
  set (v := to_uint (if bit =? opCodeIntDeltaNegative
                     then prevFloatBits c - diff else prevFloatBits c + diff)).
  exists (set_customFields
            (Some (<[Z.to_nat i := set_prevFloatBits v c]> (elems (customFields it))))
            (set_stream s2 it)).
  split; [| exact (customFieldOf_stored it s2 i c (set_prevFloatBits v c) Hi Hc)].
  unfold customFieldOf in Hc.
  unfold readIntValDiff, customFieldAt, updateCustomField, bindM, on_stream_as,
    get, lift, modify.
  rewrite Hbit. cbn [stream set_stream customFields].
  rewrite (index_at_lookup (E := int_error) _ _ c Hi Hc). rewrite Hdiff.
  assert (Hit2 : set_stream s2 (set_stream s1 it) = set_stream s2 it)
    by (destruct it; reflexivity).
  rewrite !Hit2.
  change (customFields (set_stream s2 it)) with (customFields it).
  rewrite !(index_at_lookup (E := int_error) _ _ c Hi Hc).
  assert (Hv : forall w, w = v ->
            (set_customFields
               (Some (<[Z.to_nat i := set_prevFloatBits w c]> (elems (customFields it))))
               (set_stream s2 it), @Ok int_error unit tt)
            = (set_customFields
                 (Some (<[Z.to_nat i := set_prevFloatBits v c]> (elems (customFields it))))
                 (set_stream s2 it), Ok tt)).
  { intros w ->. reflexivity. }
  assert (Hcf : forall s, customFields (set_stream s it) = customFields it)
    by reflexivity.
  destruct (fieldType c =? cUnsignedInt64).
  - destruct (bit =? opCodeIntDeltaNegative) eqn:Hneg.
    + rewrite !Hcf, (index_at_lookup (E := int_error) _ _ c Hi Hc). cbv beta iota.
      rewrite (store_at_lookup (E := int_error) _ _ c _ Hi Hc). apply Hv. unfold v.
      apply to_uint_sub_wrap.
    + rewrite !Hcf, (index_at_lookup (E := int_error) _ _ c Hi Hc). cbv beta iota.
      rewrite (store_at_lookup (E := int_error) _ _ c _ Hi Hc). apply Hv. unfold v.
      apply to_uint_add_wrap.
  - rewrite !Hcf, (index_at_lookup (E := int_error) _ _ c Hi Hc). cbv beta iota.
    rewrite (store_at_lookup (E := int_error) _ _ c _ Hi Hc). apply Hv. unfold v.
    rewrite signed_as_unsigned.
    destruct (bit =? opCodeIntDeltaNegative); f_equal; lia.
Qed.

(** X23.  The number of significant bits stays within 0 and 64.  On a
    stream that gives numbers below 64 for six bits, [readIntSig] leaves
    the [NumSig] of the field at 0, at what it was, or at the six bits
    plus one; nothing else of the field and no other field is changed. *)
Theorem readIntSig_keeps_NumSig_within_64
    (it it' : iter) (i : Z) (c : customFieldState) :
  readIntSig i it = (it', Ok tt) ->
  0 <= i ->
  customFieldOf i it = Some c ->
  0 <= NumSig c <= 64 ->
  (forall s v s', ReadBits 6 s = Ok (v, s') -> 0 <= v < 64) ->
  exists n,
    customFieldOf i it' = Some (set_NumSig n c)
    /\ 0 <= n <= 64
    /\ (forall k, 0 <= k -> k <> i -> customFieldOf k it' = customFieldOf k it)
    /\ lastIterated it' = lastIterated it.
Proof.
  intros Hrun Hi Hc Hn Hsix.
  assert (Hsame : set_NumSig (NumSig c) c = c) by (destruct c; reflexivity).
  assert (Hstore : forall (s : Str) n it'',
             updateCustomField (E := int_error) i (set_NumSig n) (set_stream s it)
             = (it'', Ok tt) ->
             0 <= n <= 64 ->
             exists n,
               customFieldOf i it'' = Some (set_NumSig n c)
               /\ 0 <= n <= 64
               /\ (forall k, 0 <= k -> k <> i -> customFieldOf k it'' = customFieldOf k it)
               /\ lastIterated it'' = lastIterated it).
  { intros s n it'' Hup Hrange.
    unfold updateCustomField, bindM, get, lift, modify in Hup.
    unfold customFieldOf in Hc.
    cbn [customFields set_stream] in Hup.
    rewrite (index_at_lookup _ _ c Hi Hc) in Hup.
    rewrite (store_at_lookup _ _ c _ Hi Hc) in Hup.
    injection Hup as <-.
    destruct (customFieldOf_stored it s i c (set_NumSig n c) Hi Hc)
      as (D1 & D2 & _ & D4 & _).
    exists n. cbn [set_stream customFields] in *.
    repeat split; try assumption; lia. }
  unfold readIntSig in Hrun.
  apply bindM_ok in Hrun as (it1 & b1 & Hb1 & Hrun).
  unfold on_stream_as in Hb1.
  destruct (ReadBit (stream it)) as [[x s1] | e | |]; try discriminate.
  injection Hb1 as <- <-.
  destruct (x =? opCodeNoChange).
  { unfold ret in Hrun. injection Hrun as <-. exists (NumSig c).
    rewrite Hsame. unfold customFieldOf in *. cbn [set_stream customFields lastIterated].
    repeat split; try assumption; lia. }
  apply bindM_ok in Hrun as (it2 & b2 & Hb2 & Hrun).
  unfold on_stream_as in Hb2. cbn [stream set_stream] in Hb2.
  destruct (ReadBit s1) as [[y s2] | e | |]; try discriminate.
  injection Hb2 as <- <-.
  assert (Hit2 : set_stream s2 (set_stream s1 it) = set_stream s2 it)
    by (destruct it; reflexivity).
  rewrite Hit2 in Hrun.
  destruct (y =? OpcodeZeroSig).
  { apply (Hstore s2 0 it' Hrun). lia. }
  apply bindM_ok in Hrun as (it3 & bits & Hb3 & Hrun).
  unfold on_stream_as in Hb3. cbn [stream set_stream] in Hb3.
  destruct (ReadBits 6 s2) as [[z s3] | e | |] eqn:Hz; try discriminate.
  injection Hb3 as <- <-.
  assert (Hit3 : set_stream s3 (set_stream s2 it) = set_stream s3 it)
    by (destruct it; reflexivity).
  rewrite Hit3 in Hrun.
  pose proof (Hsix _ _ _ Hz) as Hzr.
  apply (Hstore s3 _ it' Hrun).
  rewrite (to_byte_small z) by lia. rewrite to_byte_small by lia. lia.
Qed.

End IntMore.

(** ** The theorems at work on small inputs *)

Section ProtoMoreRuns.
Import Proto Examples.
Local Existing Instance smallEnv.
Local Existing Instance bitReader.
Local Existing Instance smallIntCodes.

Lemma addToBytesDict_keeps_within_LRU_size_witness :
  0 <= 0
  /\ dictOf 0 (iteratorWithDict 3 [[1]; [2]; [3]]) = Some [[1]; [2]; [3]]
  /\ slen [[1]; [2]; [3]] <= byteFieldDictLRUSize (iteratorWithDict 3 [[1]; [2]; [3]])
  /\ 1 <= byteFieldDictLRUSize (iteratorWithDict 3 [[1]; [2]; [3]])
  /\ exists it' d',
       addToBytesDict 0 [4] (iteratorWithDict 3 [[1]; [2]; [3]]) = (it', Ok tt)
       /\ dictOf 0 it' = Some d'
       /\ slen d' <= byteFieldDictLRUSize it'
       /\ last d' = Some [4].
Proof.
  assert (H1 : 0 <= 0) by lia.
  assert (H2 : dictOf 0 (iteratorWithDict 3 [[1]; [2]; [3]]) = Some [[1]; [2]; [3]])
    by reflexivity.
  assert (H3 : slen [[1]; [2]; [3]]
               <= byteFieldDictLRUSize (iteratorWithDict 3 [[1]; [2]; [3]]))
    by (vm_compute; discriminate).
  assert (H4 : 1 <= byteFieldDictLRUSize (iteratorWithDict 3 [[1]; [2]; [3]]))
    by (vm_compute; discriminate).
  repeat (split; [assumption |]).
  destruct (addToBytesDict_keeps_within_LRU_size
              (iteratorWithDict 3 [[1]; [2]; [3]]) 0 [4] [[1]; [2]; [3]] H1 H2 H3 H4)
    as (it' & d' & Hrun & Hd & _ & Hlen & Hlast & _).
  exists it', d'. repeat split; assumption.
Defined.

Lemma moveToEndOfBytesDict_rearranges_witness :
  0 <= 0
  /\ dictOf 0 (iteratorWithDict 3 [[1]; [2]; [3]]) = Some [[1]; [2]; [3]]
  /\ 0 <= 2
  /\ slen [[1]; [2]; [3]] < 2 ^ 63
  /\ slen [[1]; [2]; [3]] <= 2 + 1
  /\ exists it',
       moveToEndOfBytesDict 0 2 (iteratorWithDict 3 [[1]; [2]; [3]]) = (it', Ok tt)
       /\ dictOf 0 it' = Some [[1]; [2]; [3]].
Proof.
  assert (H1 : 0 <= 0) by lia.
  assert (H2 : dictOf 0 (iteratorWithDict 3 [[1]; [2]; [3]]) = Some [[1]; [2]; [3]])
    by reflexivity.
  assert (H3 : 0 <= 2) by lia.
  assert (H4 : slen [[1]; [2]; [3]] < 2 ^ 63) by (vm_compute; reflexivity).
  assert (H5 : slen [[1]; [2]; [3]] <= 2 + 1) by (vm_compute; discriminate).
  repeat (split; [assumption |]).
  destruct (moveToEndOfBytesDict_rearranges
              (iteratorWithDict 3 [[1]; [2]; [3]]) 0 2 [[1]; [2]; [3]] H1 H2 H3 H4)
    as (it' & d' & Hrun & Hd & _ & Hsame & _).
  exists it'. split; [exact Hrun |]. rewrite Hd, (Hsame H5). reflexivity.
Defined.

Lemma readBitset_gives_ascending_field_numbers_witness :
  exists it',
    readBitset 10 (iteratorOn (bitsOfBytes [3] ++ [true; false; true])) = (it', Ok tt)
    /\ Z.of_nat 10 < 2 ^ 63
    /\ bitsetValues it' = [1; 3]
    /\ StronglySorted Z.lt (bitsetValues it').
Proof.
  exists (fst (readBitset 10 (iteratorOn (bitsOfBytes [3] ++ [true; false; true])))).
  assert (Hrun : readBitset 10 (iteratorOn (bitsOfBytes [3] ++ [true; false; true]))
                 = (fst (readBitset 10
                           (iteratorOn (bitsOfBytes [3] ++ [true; false; true]))),
                    Ok tt)) by reflexivity.
  assert (Hfuel : Z.of_nat 10 < 2 ^ 63) by (vm_compute; reflexivity).
  split; [exact Hrun |]. split; [exact Hfuel |]. split; [reflexivity |].
  exact (proj1 (readBitset_gives_ascending_field_numbers 10 _ _ Hrun Hfuel)).
Defined.

Lemma readCustomFieldsSchema_gives_fresh_ascending_fields_witness :
  let it :=
    set_stream
      (bitsOfBytes [3] ++ [true; false; false; false; false; false; false; true; false])
      (iteratorWithDict 3 [[1]]) in
  exists it',
    readCustomFieldsSchema 10 it = (it', Ok tt)
    /\ Z.of_nat 10 < 2 ^ 63 - 1
    /\ customFields it' = Some [newCustomFieldState 1 1; newCustomFieldState 3 2]
    /\ exists cs,
         customFields it' = Some cs
         /\ StronglySorted (fun a b => fieldNum a < fieldNum b) cs.
Proof.
  cbv zeta.
  set (it := set_stream
               (bitsOfBytes [3]
                  ++ [true; false; false; false; false; false; false; true; false])
               (iteratorWithDict 3 [[1]])).
  exists (fst (readCustomFieldsSchema 10 it)).
  assert (Hrun : readCustomFieldsSchema 10 it
                 = (fst (readCustomFieldsSchema 10 it), Ok tt)) by reflexivity.
  assert (Hfuel : Z.of_nat 10 < 2 ^ 63 - 1) by (vm_compute; reflexivity).
  split; [exact Hrun |]. split; [exact Hfuel |]. split; [reflexivity |].
  destruct (readCustomFieldsSchema_gives_fresh_ascending_fields 10 _ _ Hrun Hfuel)
    as (cs & Hcs & Hsorted & _).
  exists cs. split; [exact Hcs | exact Hsorted].
Defined.

Lemma readHeader_changes_size_and_custom_fields_only_witness :
  exists it',
    readHeader 10 (iteratorOn (bitsOfBytes [1; 4; 1] ++ [false; true; false]))
    = (it', Ok tt)
    /\ Z.of_nat 10 < 2 ^ 63 - 1
    /\ byteFieldDictLRUSize it' = 4
    /\ lastIterated it'
       = lastIterated (iteratorOn (bitsOfBytes [1; 4; 1] ++ [false; true; false])).
Proof.
  exists (fst (readHeader 10 (iteratorOn (bitsOfBytes [1; 4; 1] ++ [false; true; false])))).
  assert (Hrun : readHeader 10 (iteratorOn (bitsOfBytes [1; 4; 1] ++ [false; true; false]))
                 = (fst (readHeader 10
                           (iteratorOn (bitsOfBytes [1; 4; 1] ++ [false; true; false]))),
                    Ok tt)) by reflexivity.
  assert (Hfuel : Z.of_nat 10 < 2 ^ 63 - 1) by (vm_compute; reflexivity).
  split; [exact Hrun |]. split; [exact Hfuel |]. split; [reflexivity |].
  destruct (readHeader_changes_size_and_custom_fields_only 10 _ _ Hrun Hfuel)
    as (cs & _ & _ & _ & Hlast & _).
  exact Hlast.
Defined.

Lemma readProtoValues_keeps_last_message_until_merge_witness :
  exists it',
    readProtoValues 10 (iteratorOn [true]) = (it', Err (ErrFieldsSetToDefaultBit EOF))
    /\ fromMerge (ErrFieldsSetToDefaultBit EOF) = false
    /\ lastIterated it' = lastIterated (iteratorOn [true]).
Proof.
  exists (fst (readProtoValues 10 (iteratorOn [true]))).
  assert (Hrun : readProtoValues 10 (iteratorOn [true])
                 = (fst (readProtoValues 10 (iteratorOn [true])),
                    Err (ErrFieldsSetToDefaultBit EOF))) by reflexivity.
  assert (Hnot : fromMerge (ErrFieldsSetToDefaultBit EOF) = false) by reflexivity.
  split; [exact Hrun |]. split; [exact Hnot |].
  exact (proj1 (proj2 (readProtoValues_keeps_last_message_until_merge 10
                         (iteratorOn [true])) _ _ Hrun Hnot)).
Defined.

Lemma readIntValDiff_adds_or_subtracts_mod_2_64_witness :
  0 <= 0
  /\ customFieldOf 0 (iteratorWithInt 5 10 3 [true; true; false; true])
     = Some (mkCustomFieldState 3 5 10 0 3 [])
  /\ exists it',
       readIntValDiff 0 (iteratorWithInt 5 10 3 [true; true; false; true]) = (it', Ok tt)
       /\ customFieldOf 0 it' = Some (mkCustomFieldState 3 5 5 0 3 []).
Proof.
  assert (H1 : 0 <= 0) by lia.
  assert (H2 : customFieldOf 0 (iteratorWithInt 5 10 3 [true; true; false; true])
               = Some (mkCustomFieldState 3 5 10 0 3 [])) by reflexivity.
  assert (H3 : ReadBit (stream (iteratorWithInt 5 10 3 [true; true; false; true]))
               = Ok (1, [true; false; true])) by reflexivity.
  assert (H4 : ReadBits (NumSig (mkCustomFieldState 3 5 10 0 3 [])) [true; false; true]
               = Ok (5, [])) by reflexivity.
  split; [exact H1 |]. split; [exact H2 |].
  destruct (readIntValDiff_adds_or_subtracts_mod_2_64 _ 0 _ 1 5 _ _ H1 H2 H3 H4)
    as (it' & Hrun & Hc & _).
  exists it'. split; [exact Hrun | exact Hc].
Defined.

Lemma readBitsLow_below (n : nat) :
  forall s v s', readBitsLow n s = Ok (v, s') -> 0 <= v < 2 ^ Z.of_nat n.
Proof.
  induction n as [| n IH]; intros s v s' Hr.
  - cbn [readBitsLow] in Hr. injection Hr as <- _. simpl. lia.
  - cbn [readBitsLow] in Hr. destruct s as [| b rest]; [discriminate |].
    destruct (readBitsLow n rest) as [[w s1] | e | |] eqn:Hw; try discriminate.
    cbn [bind fst snd] in Hr. injection Hr as <- _.
    specialize (IH _ _ _ Hw). rewrite Nat2Z.inj_succ, Z.pow_succ_r by lia.
    destruct b; simpl Z.b2z; lia.
Qed.

Lemma readIntSig_keeps_NumSig_within_64_witness :
  exists it',
    readIntSig 0 (iteratorWithInt 5 10 3
                    [true; true; false; false; true; false; false; false]) = (it', Ok tt)
    /\ customFieldOf 0 it' = Some (mkCustomFieldState 3 5 10 0 5 [])
    /\ exists n,
         customFieldOf 0 it' = Some (set_NumSig n (mkCustomFieldState 3 5 10 0 3 []))
         /\ 0 <= n <= 64.
Proof.
  exists (fst (readIntSig 0 (iteratorWithInt 5 10 3
                              [true; true; false; false; true; false; false; false]))).
  assert (Hrun : readIntSig 0 (iteratorWithInt 5 10 3
                    [true; true; false; false; true; false; false; false])
                 = (fst (readIntSig 0 (iteratorWithInt 5 10 3
                      [true; true; false; false; true; false; false; false])), Ok tt))
    by reflexivity.
  assert (H1 : 0 <= 0) by lia.
  assert (H2 : customFieldOf 0 (iteratorWithInt 5 10 3
                 [true; true; false; false; true; false; false; false])
               = Some (mkCustomFieldState 3 5 10 0 3 [])) by reflexivity.
  assert (H3 : 0 <= NumSig (mkCustomFieldState 3 5 10 0 3 []) <= 64)
    by (vm_compute; split; discriminate).
  assert (H4 : forall s v s', ReadBits 6 s = Ok (v, s') -> 0 <= v < 64)
    by exact (readBitsLow_below 6).
  split; [exact Hrun |]. split; [reflexivity |].
  destruct (readIntSig_keeps_NumSig_within_64 _ _ 0 _ Hrun H1 H2 H3 H4)
    as (n & Hc & Hn & _).
  exists n. split; [exact Hc | exact Hn].
Defined.

End ProtoMoreRuns.

(** * A writer opened a second time, and a dictionary of size 0 *)

Section WriterReopened.
Import schema Fs Examples.
Local Existing Instance smallCodec.

(** [Open] leaves the record index, the offset and the info buffer of the
    writer as they are, whatever it returns. *)
Lemma Open_keeps_counters (t : Z) (s : session) :
  currIdx (fst (fst (Open t s))) = currIdx (fst s)
  /\ currOffset (fst (fst (Open t s))) = currOffset (fst s)
  /\ infoBuffer (fst (fst (Open t s))) = infoBuffer (fst s).
Proof.
  unfold Open, bindM, on_os, modify_w, modify.
  destruct (sysMkdirAll (snd s)) as [o1 [[] | e | |]]; cbn [fst snd];
    try (repeat split; reflexivity).
  destruct (openFiles openWritable [InfoFile; IndexFile; DataFile] o1) as [o2 r2].
  cbn [fst snd]. repeat split; reflexivity.
Qed.

(** C3.  The index entries of a block count from 0 and from offset 0 only
    in the first block a writer writes.  [Open] does not set [currIdx] and
    [currOffset] back, whatever state it is called in.  So with a writer
    that wrote the records "a" (3 bytes) and "c" (2 bytes), was closed and
    is opened again, the append of "d" (1 byte) puts its record at the
    front of the truncated data file with idx 2, and the one entry of the
    index file, entry 0, has idx 2 and offset 29: a reader of the block
    gets the record back and holds that entry. *)
Theorem reopened_writer_counts_on :
  (forall t s,
      currIdx (fst (fst (Open t s))) = currIdx (fst s)
      /\ currOffset (fst (fst (Open t s))) = currOffset (fst s))
  /\ (let run :=
        Open 0 ;;; WriteEach threeAppends ;;; Close ;;; Open 0 ;;; Write "d" [9] in
      let o := snd (fst (run (NewWriter 10, quietWorld))) in
      let r := openedReader 1 (bytes_of_file IndexFile o) []
                 (bytes_of_file DataFile o) in
      snd (run (NewWriter 10, quietWorld)) = Ok tt
      /\ bytes_of_file DataFile o = marker ++ be_put_uint64 2 ++ [9]
      /\ indexRecords (entriesFrom 2 29 [("d"%string, [[9]])])
         = Ok (bytes_of_file IndexFile o)
      /\ indexRecords (entriesFrom 0 0 [("d"%string, [[9]])])
         = Ok [4; 0; 1; 0; 100]
      /\ bytes_of_file IndexFile o = [4; 2; 1; 29; 100]
      /\ snd (Read r) = Ok ("d"%string, [9])
      /\ currEntry (fst (Read r)) = mkIndexEntry 2 1 29 "d").
Proof.
  split.
  - intros t s. destruct (Open_keeps_counters t s) as (H1 & H2 & _).
    split; assumption.
  - cbv zeta. repeat split; vm_compute; reflexivity.
Qed.

End WriterReopened.

Section DictionaryOfSizeZero.
Import Proto Examples.
Local Existing Instance smallEnv.
Local Existing Instance bitReader.

(** C7.  A header may advertise a dictionary of size 0: [readHeader] takes
    it as it takes any other.  The dictionary of a field then is empty and
    full at once, and the first new value of the field makes
    [addToBytesDict] panic: nothing is shifted and the store of the value
    at index [len(existing) - 1] is a store at index -1.  The claim has
    the dictionary with the value alone there. *)
Theorem addToBytesDict_panics_after_header_of_size_zero :
  let header := bitsOfBytes [1; 0; 1] ++ [true; false; false] in
  let it := fst (readHeader 10 (iteratorOn header)) in
  snd (readHeader 10 (iteratorOn header)) = Ok tt
  /\ byteFieldDictLRUSize it = 0
  /\ dictOf 0 it = Some []
  /\ shiftDown (seq 0 (length (@nil (list Z)))) [] = Ok []
  /\ store_at (E := error) (@nil (list Z)) (slen (@nil (list Z)) - 1) [97] = Panic
  /\ snd (addToBytesDict 0 [97] it) = Panic.
Proof. cbv zeta. repeat split; reflexivity. Qed.

End DictionaryOfSizeZero.
